(** * Batch image compressor: worker pool, progress estimator, SSE notifications

    A shallow embedding of [src/index.js]: the Express handler
    [POST /api/compress-multi], [processFile], [reportIfNeeded], the
    observers ([sseClients], [sendSse], [GET /sse], the keep-alive timer)
    and the helpers [formatBytes] and [jimpToJpegBuffer].

    Modelling conventions.
    - The server is event driven.  One macrotask of the Node event loop
      (a timer callback, or the settlement of the promise a job awaits,
      together with the microtasks it triggers) is one [Event]; the handler
      state between two macrotasks is a [Pool].
    - The encode capability (sharp / Jimp) and [writeFile] are opaque: the
      environment decides when and how they settle.
    - JavaScript numbers that are byte counts, percentages and counters are
      integers far below 2^53 and are modelled by [Z]; fractional
      intermediate values ([Math.random], the products and quotients fed to
      [Math.round] and [Math.floor]) are modelled by exact rationals [Q].
    - Numbers parsed from text ([Number(...)] of a form field or of an
      environment variable) may be NaN or infinite and are modelled by
      [JsNum]; the parser itself is a parameter [Number].
    - A notification is "pushed" when [sendSse] is called; the log of these
      calls is the field [sse] of the pool.  The registry [sseClients]
      and the responses the calls write to are modelled apart, as a [Hub]
      on which [deliver] replays such a log; whether a write throws is the
      transport's matter ([faults]).
    - multer has parsed the request: [req.body] exists and [req.files] is
      the list of uploaded files. *)

From Stdlib Require Import ZArith QArith Qround Qminmax Lia.
From stdpp Require Import base strings list gmap pretty sorting.

Open Scope Z_scope.

(** ** JavaScript numbers *)

(** [Math.round x] is the integer nearest to [x], ties towards +infinity. *)
Definition Math_round (x : Q) : Z := Qfloor (x + (1 # 2)).

Definition Math_floor (x : Q) : Z := Qfloor x.

Inductive JsNum : Type :=
| Fin (q : Q)
| PInf
| NInf
| NaN.

Definition Math_min (a b : JsNum) : JsNum :=
  match a, b with
  | NaN, _ | _, NaN => NaN
  | NInf, _ | _, NInf => NInf
  | PInf, x | x, PInf => x
  | Fin x, Fin y => Fin (Qmin x y)
  end.

Definition Math_max (a b : JsNum) : JsNum :=
  match a, b with
  | NaN, _ | _, NaN => NaN
  | PInf, _ | _, PInf => PInf
  | NInf, x | x, NInf => x
  | Fin x, Fin y => Fin (Qmax x y)
  end.

(** [r < l] for an integer counter [r]; every comparison with NaN is false. *)
Definition lt_num (r : Z) (l : JsNum) : bool :=
  match l with
  | Fin q => match (inject_Z r ?= q)%Q with Lt => true | _ => false end
  | PInf => true
  | NInf | NaN => false
  end.

(** Truthiness of an optional string: [undefined] and [""] are falsy. *)
Definition truthy (s : option string) : bool :=
  match s with
  | Some s' => negb (String.eqb s' "")
  | None => false
  end.

(** [a || b] on optional strings. *)
Definition or_else (a b : option string) : option string :=
  if truthy a then a else b.

(** ** Constants of the module *)

Definition MIN_REPORT_BYTES : Z := 64 * 1024.
Definition MAX_SIMULATED_PCT : Z := 90.

(** ** Data *)

(** An uploaded file as multer's memory storage delivers it.  [size] is the
    byte length of the buffer.  multer sets no [file] field, so in
    [f.size || (f.file && f.file.size) || 0] the middle operand is
    [undefined] and the chain evaluates to [f.size]. *)
Module File.
Record t : Type := mk {
  originalname : option string;
  name : option string;
  size : N
}.
End File.

(** The [state] object of [processFile]. *)
Module State.
Record t : Type := mk {
  index : nat;
  originalName : string;
  originalSize : Z;
  processedBytes : Z;
  progress : Z;
  compressedSize : option Z;
  outPath : option string;
  error : option string;
  lastReportedPct : Z;
  lastReportedBytes : Z;
  isCompressing : bool
}.

Definition set_processedBytes (v : Z) (s : t) : t :=
  mk (index s) (originalName s) (originalSize s) v (progress s)
     (compressedSize s) (outPath s) (error s)
     (lastReportedPct s) (lastReportedBytes s) (isCompressing s).

Definition set_progress (v : Z) (s : t) : t :=
  mk (index s) (originalName s) (originalSize s) (processedBytes s) v
     (compressedSize s) (outPath s) (error s)
     (lastReportedPct s) (lastReportedBytes s) (isCompressing s).

Definition set_compressedSize (v : option Z) (s : t) : t :=
  mk (index s) (originalName s) (originalSize s) (processedBytes s)
     (progress s) v (outPath s) (error s)
     (lastReportedPct s) (lastReportedBytes s) (isCompressing s).

Definition set_outPath (v : option string) (s : t) : t :=
  mk (index s) (originalName s) (originalSize s) (processedBytes s)
     (progress s) (compressedSize s) v (error s)
     (lastReportedPct s) (lastReportedBytes s) (isCompressing s).

Definition set_error (v : option string) (s : t) : t :=
  mk (index s) (originalName s) (originalSize s) (processedBytes s)
     (progress s) (compressedSize s) (outPath s) v
     (lastReportedPct s) (lastReportedBytes s) (isCompressing s).

Definition set_lastReported (pct bytes : Z) (s : t) : t :=
  mk (index s) (originalName s) (originalSize s) (processedBytes s)
     (progress s) (compressedSize s) (outPath s) (error s)
     pct bytes (isCompressing s).

Definition set_isCompressing (v : bool) (s : t) : t :=
  mk (index s) (originalName s) (originalSize s) (processedBytes s)
     (progress s) (compressedSize s) (outPath s) (error s)
     (lastReportedPct s) (lastReportedBytes s) v.
End State.

(** An entry of [results] (and of the [done] event and of the response). *)
Module Result.
Record t : Type := mk {
  index : nat;
  name : string;
  originalSize : option Z;
  compressedSize : option Z;
  outPath : option string;
  error : option string
}.
End Result.

(** The object [processFile] returns: a result entry plus the [state]. *)
Module FileResult.
Record t : Type := mk {
  index : nat;
  name : string;
  originalSize : option Z;
  compressedSize : option Z;
  outPath : option string;
  error : option string;
  state : option State.t
}.
End FileResult.

(** An entry of [statesMeta]. *)
Module Meta.
Record t : Type := mk {
  index : nat;
  originalName : string;
  originalSize : Z;
  processedBytes : Z
}.

Definition set_processedBytes (v : Z) (m : t) : t :=
  mk (index m) (originalName m) (originalSize m) v.
End Meta.

(** The named events of the push stream, with their payloads. *)
Inductive SseEvent : Type :=
| file_progress (index : nat) (name : string)
                (processedBytes originalSize progress : Z)
| file_done (index : nat) (name : string)
            (originalSize compressedSize : option Z)
            (outPath error : option string)
| overall_progress (processedBytes totalOriginal progress : Z)
| done (results : list Result.t).

(** ** processFile *)

(** [f.originalname || f.name || `file_${idx}`] *)
Definition originalName_of (f : File.t) (idx : nat) : string :=
  match or_else (File.originalname f) (File.name f) with
  | Some s => if truthy (Some s) then s else "file_" +:+ pretty idx
  | None => "file_" +:+ pretty idx
  end.

Definition init_state (f : File.t) (idx : nat) : State.t :=
  State.mk idx (originalName_of f idx) (Z.of_N (File.size f))
           0 0 None None None (-1) (-1) false.

(** [if (clientId) sendSse(clientId, event, data)]: the list of calls made. *)
Definition sendSse_if (clientId : option string) (ev : SseEvent)
  : list SseEvent :=
  if truthy clientId then [ev] else [].

(** [reportIfNeeded]: the throttled [file-progress] push.  Returns the
    updated state and the notifications pushed. *)
Definition reportIfNeeded (clientId : option string) (st : State.t)
  : State.t * list SseEvent :=
  let pct := Math_round (inject_Z (State.progress st)) in
  let bytes := State.processedBytes st in
  let pctChanged := negb (pct =? State.lastReportedPct st) in
  let bytesChanged := MIN_REPORT_BYTES <? bytes - State.lastReportedBytes st in
  if negb pctChanged && negb bytesChanged then (st, [])
  else
    (State.set_lastReported pct bytes st,
     sendSse_if clientId
       (file_progress (State.index st) (State.originalName st)
                      (State.processedBytes st) (State.originalSize st)
                      (State.progress st))).

(** The increment computed by one estimator tick;
    [random] is the value of [Math.random()]. *)
Definition tick_inc (originalSize : Z) (random : Q) : Z :=
  Z.max (8 * 1024)
        (Math_round (inject_Z originalSize * (random * (4 # 100) + (1 # 100)))).

Definition maxBeforeFinish (originalSize : Z) : Z :=
  Math_floor (inject_Z originalSize * (9 # 10)).

Definition newPct (processedBytes originalSize : Z) : Z :=
  Math_round (inject_Z processedBytes / inject_Z (Z.max 1 originalSize) * 100).

(** The body of the [setInterval] callback. *)
Definition tick (clientId : option string) (random : Q) (st : State.t)
  : State.t * list SseEvent :=
  if negb (State.isCompressing st) then (st, [])
  else
    let inc := tick_inc (State.originalSize st) random in
    let pb := Z.min (maxBeforeFinish (State.originalSize st))
                    (State.processedBytes st + inc) in
    let st1 := State.set_processedBytes pb st in
    let st2 :=
      State.set_progress
        (Z.min MAX_SIMULATED_PCT (newPct pb (State.originalSize st))) st1 in
    reportIfNeeded clientId st2.

(** Where the activation of [processFile] is suspended. *)
Inductive Phase : Type :=
| Encoding   (* awaiting the encode capability *)
| Writing.   (* awaiting writeFile *)

(** A live activation of [processFile]: its [state], whether the timer
    [interval] is armed, the await it is suspended at, and the local
    [outName] (computed from [Date.now()] and the sanitised file name,
    supplied by the environment). *)
Record Job : Type := mkJob {
  state : State.t;
  interval : bool;
  phase : Phase;
  outName : string
}.

(** Entry of [processFile] up to the first await: build the state, set
    [isCompressing], arm the interval. *)
Definition processFile_start (f : File.t) (idx : nat) : Job :=
  mkJob (State.set_isCompressing true (init_state f idx)) true Encoding "".

(** The quality handed to the encoder:
    [Math.max(1, Math.min(100, quality))]. *)
Definition encode_quality (quality : JsNum) : JsNum :=
  Math_max (Fin 1) (Math_min (Fin 100) quality).

(** "finalize": the encoder resolved with a buffer of [len] bytes. *)
Definition processFile_finalize (len : Z) (out : string) (j : Job) : Job :=
  let st := state j in
  let st := State.set_compressedSize (Some len) st in
  let st := State.set_processedBytes len st in
  let st := State.set_progress 100 st in
  let st := State.set_isCompressing false st in
  mkJob st false Writing out.

(** After [writeFile] resolved: set [outPath], final report, [file-done],
    return the result. *)
Definition processFile_return (clientId : option string) (j : Job)
  : FileResult.t * list SseEvent :=
  let st := State.set_outPath (Some ("/outputs/" +:+ outName j)) (state j) in
  let '(st, out1) := reportIfNeeded clientId st in
  let out2 :=
    sendSse_if clientId
      (file_done (State.index st) (State.originalName st)
                 (Some (State.originalSize st)) (State.compressedSize st)
                 (State.outPath st) None) in
  (FileResult.mk (State.index st) (State.originalName st)
                 (Some (State.originalSize st)) (State.compressedSize st)
                 (State.outPath st) None (Some st),
   out1 ++ out2).

(** The [catch] block of [processFile]. *)
Definition processFile_catch (clientId : option string) (msg : string)
           (j : Job) : Job * FileResult.t * list SseEvent :=
  let st := State.set_error (Some msg) (state j) in
  let st := State.set_isCompressing false st in
  let st := State.set_progress 0 st in
  let st := State.set_processedBytes 0 st in
  let '(st, out1) := reportIfNeeded clientId st in
  let out2 :=
    sendSse_if clientId
      (file_done (State.index st) (State.originalName st)
                 None None None (State.error st)) in
  (mkJob st false (phase j) (outName j),
   FileResult.mk (State.index st) (State.originalName st)
                 None None None (State.error st) (Some st),
   out1 ++ out2).

(** ** The request handler [POST /api/compress-multi] *)

(** What the handler reads from the request: [req.query.id], [req.body.id],
    [req.body.quality] (text fields) and [req.files]. *)
Record Request : Type := mkRequest {
  query_id : option string;
  body_id : option string;
  body_quality : option string;
  req_files : list File.t
}.

(** The response sent with [res.json]: status 400 with an error, or the
    summary [{success, results}]. *)
Inductive Response : Type :=
| BadRequest (error : string)
| Json (success : bool) (results : list Result.t).

(** What the environment can do to a running batch.  [i] is the index of
    the job concerned.  [WrapperRejected] stands for an exception that
    escapes the job's async wrapper, that is, one that the [try]/[catch] of
    [processFile] did not turn into a result; such an exception can only
    leave [processFile] from its [catch] block, after [clearInterval], or
    be raised by the wrapper itself, so no timer of the job survives it. *)
Inductive Event : Type :=
| Tick (i : nat) (random : Q)
    (* the interval of job [i] fires; [Math.random()] returns [random] *)
| EncodeResolved (i : nat) (len : N) (out : string)
    (* the encoder resolves with [len] bytes; [outName] is [out] *)
| EncodeRejected (i : nat) (msg : string)
    (* the encoder (or the Jimp import / read) throws *)
| WriteResolved (i : nat)
| WriteRejected (i : nat) (msg : string)
| WrapperRejected (i : nat).
    (* the promise of the job's async wrapper rejects: [.catch] runs *)

(** The variables of the handler between two events. *)
Record Pool : Type := mkPool {
  statesMeta : list Meta.t;
  results : list Result.t;
  running : Z;
  idxPtr : nat;
  jobs : gmap nat Job;               (* live activations, by index *)
  resolved : bool;                   (* [resolveAll] has been called *)
  sse : list SseEvent;               (* calls of [sendSse], oldest first *)
  encodeCalls : list (nat * JsNum)   (* job started, with encoder quality *)
}.

(** What an observer of the handler has seen so far. *)
Record Outcome : Type := mkOutcome {
  response : option Response;        (* [None]: not answered yet *)
  pushed : list SseEvent;
  encodes : list (nat * JsNum)
}.

Definition dquote : string := String (Ascii.ascii_of_nat 34) EmptyString.

Definition no_files_message : string :=
  "No files uploaded (use field name " +:+ dquote +:+ "files" +:+ dquote
  +:+ ")".

(** ** Sample environments and requests

    Concrete data used to exercise the model. *)

Fixpoint digits_value (acc : Z) (s : string) : option Z :=
  match s with
  | EmptyString => Some acc
  | String c r =>
      let n := Z.of_nat (Ascii.nat_of_ascii c) in
      if (48 <=? n) && (n <=? 57)
      then digits_value (10 * acc + (n - 48)) r
      else None
  end.

(** A parser that agrees with JavaScript's [Number] on plain decimal
    integers with an optional minus sign, and answers NaN elsewhere. *)
Definition Number_decimal (s : string) : JsNum :=
  match s with
  | EmptyString => Fin 0
  | String c r =>
      if Ascii.eqb c (Ascii.ascii_of_nat 45) then
        match r with
        | EmptyString => NaN
        | _ => match digits_value 0 r with
               | Some z => Fin (inject_Z (- z))
               | None => NaN
               end
        end
      else
        match digits_value 0 s with
        | Some z => Fin (inject_Z z)
        | None => NaN
        end
  end.

Definition sample_file (n : N) : File.t := File.mk (Some "a.png") None n.

(** One file of 1,000,000 bytes, with a session id. *)
Definition req_one : Request :=
  mkRequest (Some "cid") None None [sample_file 1000000].


(** Two files, with a session id. *)
Definition req_two : Request :=
  mkRequest (Some "cid") None None [sample_file 1000000; sample_file 500000].

(** Three files of sizes 1,000,000, 500,000 and 0. *)
Definition req_three : Request :=
  mkRequest (Some "cid") None None
            [sample_file 1000000; sample_file 500000; sample_file 0].


(** Histories used in the examples. *)

(** Both jobs of [req_two] succeed, job 1 before job 0. *)
Definition evs_two_reversed : list Event :=
  [EncodeResolved 1 1234 "b.jpg"; WriteResolved 1;
   EncodeResolved 0 2345 "a.jpg"; WriteResolved 0].

(** One tick, then the encoder throws. *)
Definition evs_tick_then_fail : list Event :=
  [Tick 0 (1 # 2); EncodeRejected 0 "boom"].


Definition evs_one_ok : list Event :=
  [EncodeResolved 0 1234 "a.jpg"; WriteResolved 0].

Definition evs_wrapper_rejected : list Event := [WrapperRejected 0].


(** ** Vocabulary of the properties *)

(** The progress values of the [file-progress] notifications of job [i],
    in the order they were pushed. *)
Definition progress_of (i : nat) (log : list SseEvent) : list Z :=
  omap (fun ev =>
          match ev with
          | file_progress k _ _ _ pr => if decide (k = i) then Some pr else None
          | _ => None
          end) log.

(** No entry is lower than an earlier one. *)
Definition nondecreasing (l : list Z) : Prop :=
  forall a b x y, (a <= b)%nat -> l !! a = Some x -> l !! b = Some y -> x <= y.

Definition is_done (ev : SseEvent) : bool :=
  match ev with done _ => true | _ => false end.

Definition is_overall (ev : SseEvent) : bool :=
  match ev with overall_progress _ _ _ => true | _ => false end.

Definition is_file_progress (ev : SseEvent) : bool :=
  match ev with file_progress _ _ _ _ _ => true | _ => false end.

(** The jobs whose [processFile] returned (with a result, successful or
    failed), in the order of their return. *)
Definition returned (evs : list Event) : list nat :=
  omap (fun e =>
          match e with
          | EncodeRejected i _ | WriteResolved i | WriteRejected i _ => Some i
          | _ => None
          end) evs.

(** The jobs whose [processFile] ended in its [catch] block. *)
Definition failed (evs : list Event) : list nat :=
  omap (fun e =>
          match e with
          | EncodeRejected i _ | WriteRejected i _ => Some i
          | _ => None
          end) evs.

(** The jobs whose wrapper rejected. *)
Definition rejected (evs : list Event) : list nat :=
  omap (fun e => match e with WrapperRejected i => Some i | _ => None end) evs.

(** The limit in force is the integer [c]. *)
Definition limit_is (c : Z) (l : JsNum) : Prop :=
  match l with
  | Fin q => (q == inject_Z c)%Q
  | _ => False
  end.

(** ** Helpers of the server: formatBytes, output names, Jimp fallback *)

(** Text is a sequence of code units below 256 (multer decodes file names
    as latin1); a regular expression without the [u] flag works on code
    units, one character of [string] each. *)

Fixpoint string_forall (P : Ascii.ascii -> bool) (s : string) : bool :=
  match s with
  | EmptyString => true
  | String c r => P c && string_forall P r
  end.

Fixpoint string_map (f : Ascii.ascii -> Ascii.ascii) (s : string) : string :=
  match s with
  | EmptyString => EmptyString
  | String c r => String (f c) (string_map f r)
  end.

Definition char_in (lo hi : nat) (c : Ascii.ascii) : bool :=
  (lo <=? Ascii.nat_of_ascii c)%nat && (Ascii.nat_of_ascii c <=? hi)%nat.

Definition is_digit (c : Ascii.ascii) : bool := char_in 48 57 c.

(** The class [[a-zA-Z0-9.\-_]]. *)
Definition is_safe_char (c : Ascii.ascii) : bool :=
  char_in 97 122 c || char_in 65 90 c || char_in 48 57 c
  || char_in 46 46 c || char_in 45 45 c || char_in 95 95 c.

Definition underscore : Ascii.ascii := Ascii.ascii_of_nat 95.
Definition dot : Ascii.ascii := Ascii.ascii_of_nat 46.
Definition slash : Ascii.ascii := Ascii.ascii_of_nat 47.
Definition backslash : Ascii.ascii := Ascii.ascii_of_nat 92.

(** [s.replace(/[^a-zA-Z0-9.\-_]/g, '_')] *)
Definition safeName (s : string) : string :=
  string_map (fun c => if is_safe_char c then c else underscore) s.

(** The match of [/\.[^/.]+$/] in [s], if any: the text before it.  The
    match is a dot followed, up to the end of the text, by at least one
    character, none of them a dot or a slash; hence only the last dot can
    start it. *)
Fixpoint extension_match (s : string) : option string :=
  match s with
  | EmptyString => None
  | String c r =>
      match extension_match r with
      | Some b => Some (String c b)
      | None =>
          if Ascii.eqb c dot
             && negb (String.eqb r "")
             && string_forall
                  (fun x => negb (Ascii.eqb x slash) && negb (Ascii.eqb x dot)) r
          then Some EmptyString
          else None
      end
  end.

(** [s.replace(/\.[^/.]+$/, '')] *)
Definition strip_extension (s : string) : string :=
  default s (extension_match s).

(** [`${Date.now()}_${idx}_${safeName.replace(/\.[^/.]+$/, '')}.jpg`];
    [now] is the value of [Date.now()]. *)
Definition outName_of (now : Z) (f : File.t) (idx : nat) : string :=
  pretty now +:+ "_" +:+ pretty idx +:+ "_"
  +:+ strip_extension (safeName (originalName_of f idx)) +:+ ".jpg".

(** [state.outPath] *)
Definition outPath_of (now : Z) (f : File.t) (idx : nat) : string :=
  "/outputs/" +:+ outName_of now f idx.

(** [x.toFixed(d)], for a number [x] below 10^21 whose value is exact
    (here a byte count divided by a power of two): the sign, then the
    multiple of [10^-d] nearest to the magnitude, the larger one on a tie,
    with [d] decimals. *)
Definition toFixed_units (d : nat) (x : Q) : Z :=
  Math_round ((if Qle_bool 0 x then x else - x)%Q
              * inject_Z (10 ^ Z.of_nat d)).

Definition pad_zeros (d : nat) (s : string) : string :=
  Nat.iter (d - String.length s) (String (Ascii.ascii_of_nat 48)) s.

Definition toFixed (d : nat) (x : Q) : string :=
  let units := toFixed_units d x in
  let sign := if Qle_bool 0 x then "" else "-" in
  let whole := pretty (units `div` 10 ^ Z.of_nat d) in
  match d with
  | O => sign +:+ whole
  | _ => sign +:+ whole +:+ "."
         +:+ pad_zeros d (pretty (units `mod` 10 ^ Z.of_nat d))
  end.

(** [formatBytes] of an integer byte count; [None] is a value that is
    neither a number nor 0 under [!n && n !== 0] ([undefined], [null],
    NaN). *)
Definition formatBytes (n : option Z) : string :=
  match n with
  | None => "0 B"
  | Some n =>
      if n <? 1024 then pretty n +:+ " B"
      else if n <? 1024 * 1024
           then toFixed 1 (inject_Z n / 1024) +:+ " KB"
           else toFixed 2 (inject_Z n / 1024 / 1024) +:+ " MB"
  end.

(** The RGBA to RGB loop of [jimpToJpegBuffer].  A [Buffer] is a list of
    bytes of fixed length: reading past the end gives [undefined], which
    is stored as 0, and writing past the end does nothing. *)
Definition byte_at (data : list Byte.byte) (i : nat) : Byte.byte :=
  default Byte.x00 (data !! i).

Fixpoint rgb_loop (fuel : nat) (data : list Byte.byte) (i dst : nat)
         (rgb : list Byte.byte) : list Byte.byte :=
  match fuel with
  | O => rgb
  | S fuel' =>
      if (i <? length data)%nat then
        let rgb := <[dst := byte_at data i]> rgb in
        let rgb := <[S dst := byte_at data (i + 1)]> rgb in
        let rgb := <[S (S dst) := byte_at data (i + 2)]> rgb in
        rgb_loop fuel' data (i + 4) (dst + 3) rgb
      else rgb
  end.

(** [Buffer.alloc(width * height * 3)] filled by the loop
    [for (let i = 0; i < data.length; i += 4)]. *)
Definition rgba_to_rgb (data : list Byte.byte) (width height : nat)
  : list Byte.byte :=
  rgb_loop (length data) data 0 0 (replicate (width * height * 3) Byte.x00).

(** What [jimpToJpegBuffer] can see of its argument: which methods exist,
    and the bitmap. *)
Record JimpImage : Type := mkJimpImage {
  has_getBufferAsync : bool;
  has_getBuffer : bool;
  has_quality : bool;
  bitmap : option (list Byte.byte * nat * nat)   (* data, width, height *)
}.

(** The encoder [jimpToJpegBuffer] ends up calling. *)
Inductive JimpCall : Type :=
| GetBufferAsync (quality : option JsNum)
    (* [quality]: the value given to [jimg.quality], if that method exists *)
| GetBuffer (quality : option JsNum)
| JpegJsEncode (rgb : list Byte.byte) (width height : nat) (quality : JsNum)
| NoSupportedMethod.
    (* throws 'No supported buffer method on Jimp instance' *)

Definition jimpToJpegBuffer_call (jimg : option JimpImage)
           (preferQuality fallbackQuality : JsNum) : JimpCall :=
  match jimg with
  | None => NoSupportedMethod
  | Some img =>
      if has_getBufferAsync img then
        GetBufferAsync (if has_quality img then Some preferQuality else None)
      else if has_getBuffer img then
        GetBuffer (if has_quality img then Some preferQuality else None)
      else
        match bitmap img with
        | Some (data, width, height) =>
            if negb (width =? 0)%nat && negb (height =? 0)%nat
            then JpegJsEncode (rgba_to_rgb data width height) width height
                              fallbackQuality
            else NoSupportedMethod
        | None => NoSupportedMethod
        end
  end.

(** ** The observers: [sseClients], [sendSse], [GET /sse], keep-alive *)

(** What [JSON.stringify] is applied to. *)
Inductive Payload : Type :=
| connected_payload (message clientId : string)
| event_payload (ev : SseEvent).

(** What is written to a response, one [res.write] each. *)
Inductive Chunk : Type :=
| event_chunk (name : string)   (* event: <name>, newline *)
| data_chunk (data : Payload)   (* data: <JSON>, two newlines *)
| heartbeat_chunk.              (* the comment line ": heartbeat" *)

(** A response object kept open as an event stream: the headers set on it,
    the chunks of its calls of [res.write] that returned, and whether
    [res.end()] was called.  Whether a call of [res.write] throws is the
    transport's matter: [faults] says it for the coming calls, in order
    ([true]: the call throws); calls beyond the list return. *)
Record Conn : Type := mkConn {
  headers : list (string * string);
  written : list Chunk;
  ended : bool;
  faults : list bool
}.

(** [res.write(chunk)]: the response after the call, and whether the call
    returned ([true]) or threw ([false]). *)
Definition res_write (chunk : Chunk) (c : Conn) : Conn * bool :=
  match faults c with
  | true :: rest => (mkConn (headers c) (written c) (ended c) rest, false)
  | false :: rest =>
      (mkConn (headers c) (written c ++ [chunk]) (ended c) rest, true)
  | [] => (mkConn (headers c) (written c ++ [chunk]) (ended c) [], true)
  end.

(** [try { res.end(); } catch (_) {}] *)
Definition res_end (c : Conn) : Conn :=
  mkConn (headers c) (written c) true (faults c).

(** The response objects alive in the process, each known by its position,
    and the map [sseClients] from session ids to response objects. *)
Record Hub : Type := mkHub {
  conns : list Conn;
  sseClients : gmap string nat
}.

Definition event_name (ev : SseEvent) : string :=
  match ev with
  | file_progress _ _ _ _ _ => "file-progress"
  | file_done _ _ _ _ _ _ => "file-done"
  | overall_progress _ _ _ => "overall-progress"
  | done _ => "done"
  end.

(** [sendSse(clientId, event, data)] *)
Definition sendSse (clientId event : string) (data : Payload) (h : Hub) : Hub :=
  match sseClients h !! clientId with
  | None => h
  | Some r =>
      match conns h !! r with
      | None => h
      | Some c =>
          let (c1, returned1) := res_write (event_chunk event) c in
          if returned1 then
            let (c2, _) := res_write (data_chunk data) c1 in
            mkHub (<[r := c2]> (conns h)) (sseClients h)
          else                                       (* caught, ignored *)
            mkHub (<[r := c1]> (conns h)) (sseClients h)
      end
  end.

(** The calls of [sendSse] logged by the batch handler, made one after the
    other for the session [clientId]. *)
Definition deliver (clientId : string) (log : list SseEvent) (h : Hub) : Hub :=
  foldl (fun h ev => sendSse clientId (event_name ev) (event_payload ev) h)
        h log.

(** How [GET /sse] ends: status 400 with the text 'Missing id', an event
    stream on the response object [r], or an exception of one of the two
    first writes that leaves the handler. *)
Inductive SseReply : Type :=
| Missing_id
| Stream (r : nat)
| Write_threw (r : nat).

Definition stream_headers : list (string * string) :=
  [("Content-Type", "text/event-stream; charset=utf-8");
   ("Cache-Control", "no-cache, no-transform");
   ("Connection", "keep-alive")].

(** [app.get('/sse', ...)]; [id] is [req.query.id] and [fs] the faults of
    the transport of the new response object. *)
Definition sse_get (id : option string) (fs : list bool) (h : Hub)
  : Hub * SseReply :=
  match id with
  | Some clientId =>
      if truthy id then
        let r := length (conns h) in
        let res := mkConn stream_headers [] false fs in
        let (res1, returned1) := res_write (event_chunk "connected") res in
        if returned1 then
          let (res2, returned2) :=
            res_write (data_chunk (connected_payload "connected" clientId))
                      res1 in
          if returned2 then
            (mkHub (conns h ++ [res2]) (<[clientId := r]> (sseClients h)),
             Stream r)
          else (mkHub (conns h ++ [res2]) (sseClients h), Write_threw r)
        else (mkHub (conns h ++ [res1]) (sseClients h), Write_threw r)
      else (h, Missing_id)
  | None => (h, Missing_id)
  end.

(** The handler of the request's 'close' event, registered by [GET /sse]
    for the session [clientId] and the response object [r]. *)
Definition on_close (clientId : string) (r : nat) (h : Hub) : Hub :=
  mkHub (alter res_end r (conns h)) (delete clientId (sseClients h)).

(** The body of the keep-alive loop for the entry [[id, res]]. *)
Definition keepalive_entry (h : Hub) (entry : string * nat) : Hub :=
  let (id, r) := entry in
  match conns h !! r with
  | None => h
  | Some c =>
      let (c1, returned1) := res_write heartbeat_chunk c in
      if returned1 then mkHub (<[r := c1]> (conns h)) (sseClients h)
      else mkHub (<[r := res_end c1]> (conns h)) (delete id (sseClients h))
  end.

(** One round of the keep-alive timer; [entries] is [sseClients.entries()],
    the registered sessions in the order of their registration. *)
Definition keepalive (entries : list (string * nat)) (h : Hub) : Hub :=
  foldl keepalive_entry h entries.

(** [entries] lists the registry of [h], in some order. *)
Definition entries_of (h : Hub) (entries : list (string * nat)) : Prop :=
  entries ≡ₚ map_to_list (sseClients h).

(** Every registered session points to an existing response object, and no
    two sessions share one. *)
Definition hub_wf (h : Hub) : Prop :=
  (forall id r, sseClients h !! id = Some r -> (r < length (conns h))%nat)
  /\ (forall id1 id2 r,
         sseClients h !! id1 = Some r -> sseClients h !! id2 = Some r ->
         id1 = id2).

(** The two chunks of one notification. *)
Definition frames (ev : SseEvent) : list Chunk :=
  [event_chunk (event_name ev); data_chunk (event_payload ev)].

(** The two chunks [GET /sse] writes when it opens a stream. *)
Definition greeting (clientId : string) : list Chunk :=
  [event_chunk "connected";
   data_chunk (connected_payload "connected" clientId)].

(** The next call of [res.write] on [c] returns. *)
Definition next_write_returns (c : Conn) : bool :=
  match faults c with
  | true :: _ => false
  | _ => true
  end.

Definition hub_empty : Hub := mkHub [] ∅.

(** What happens to the registry, one macrotask each: a [GET /sse] request,
    the 'close' event of such a request, a call of [sendSse] by a handler,
    a round of the keep-alive timer. *)
Inductive HubEvent : Type :=
| Sse_get (id : option string) (fs : list bool)
| Close (clientId : string) (r : nat)
| SendSse (clientId event : string) (data : Payload)
| Keepalive (entries : list (string * nat)).

Definition hub_step (h : Hub) (ev : HubEvent) : Hub :=
  match ev with
  | Sse_get id fs => fst (sse_get id fs h)
  | Close clientId r => on_close clientId r h
  | SendSse clientId event data => sendSse clientId event data h
  | Keepalive entries => keepalive entries h
  end.

Definition hub_run (evs : list HubEvent) : Hub := foldl hub_step hub_empty evs.

(** One observer, session "cid", connected over a sound transport. *)
Definition hub_one : Hub := fst (sse_get (Some "cid") [] hub_empty).

(** Two observers; the transport of "b" fails at its third write. *)
Definition hub_two : Hub :=
  fst (sse_get (Some "b") [false; false; true]
               (fst (sse_get (Some "a") [] hub_empty))).


(** Every registered session is on a response that carries the stream
    headers and begins with the session's greeting. *)
Definition greeted (h : Hub) : Prop :=
  forall s r, sseClients h !! s = Some r ->
              exists c, conns h !! r = Some c
                        /\ headers c = stream_headers
                        /\ greeting s `prefix_of` written c.

(** [h'] has the responses of [h], each with its headers and with what was
    written to it still in front. *)
Definition hub_extends (h h' : Hub) : Prop :=
  forall k c, conns h !! k = Some c ->
              exists c', conns h' !! k = Some c'
                         /\ headers c' = headers c
                         /\ written c `prefix_of` written c'.

(** ** Vocabulary for the quality *)

(** The same JavaScript number: equal as rationals, or the same special
    value. *)
Definition same_number (a b : JsNum) : Prop :=
  match a, b with
  | Fin x, Fin y => (x == y)%Q
  | PInf, PInf | NInf, NInf | NaN, NaN => True
  | _, _ => False
  end.

(** A finite number between [lo] and [hi]. *)
Definition in_range (lo hi : Q) (a : JsNum) : Prop :=
  match a with
  | Fin x => (lo <= x)%Q /\ (x <= hi)%Q
  | _ => False
  end.

(** The quality an encoder call is made with, if any. *)
Definition call_quality (c : JimpCall) : option JsNum :=
  match c with
  | GetBufferAsync q | GetBuffer q => q
  | JpegJsEncode _ _ _ q => Some q
  | NoSupportedMethod => None
  end.

(** One file, quality "150". *)
Definition req_quality_150 : Request :=
  mkRequest (Some "cid") None (Some "150") [sample_file 1000000].

(** An image object that offers only its bitmap, of one pixel. *)
Definition jimg_bitmap_only : JimpImage :=
  mkJimpImage false false false
              (Some ([Byte.x01; Byte.x02; Byte.x03; Byte.xff], 1%nat, 1%nat)).

(** Both jobs of [req_two] succeed, one after the other. *)
Definition evs_two_in_turn : list Event :=
  [EncodeResolved 0 2345 "a.jpg"; WriteResolved 0;
   EncodeResolved 1 1234 "b.jpg"; WriteResolved 1].

(** The percentages of the [overall-progress] notifications, in the order
    they were pushed. *)
Definition overall_pcts (log : list SseEvent) : list Z :=
  omap (fun ev =>
          match ev with
          | overall_progress _ _ pr => Some pr
          | _ => None
          end) log.

(** One job of [req_two] succeeds, the other fails. *)
Definition evs_one_of_two_fails : list Event :=
  [EncodeResolved 0 400000 "a.jpg"; EncodeRejected 1 "boom"; WriteResolved 0].

Section Server.

(** [Number] applied to a string (a JavaScript builtin). *)
Variable Number : string -> JsNum.

(** [process.env.CONCURRENCY] *)
Variable env_CONCURRENCY : option string.

Variable req : Request.

(** [Number(x || d)] for a text [x] and a numeric default [d]. *)
Definition Number_or (x : option string) (d : Q) : JsNum :=
  match x with
  | Some s => if truthy x then Number s else Fin d
  | None => Fin d
  end.

Definition CONCURRENCY : JsNum :=
  Math_max (Fin 1) (Number_or env_CONCURRENCY 2).

Definition clientId : option string := or_else (query_id req) (body_id req).

Definition files : list File.t := req_files req.

(** [Math.max(1, Math.min(100, Number(req.body.quality || 80)))] *)
Definition quality : JsNum :=
  Math_max (Fin 1) (Math_min (Fin 100) (Number_or (body_quality req) 80)).

Definition init_statesMeta : list Meta.t :=
  imap (fun idx f =>
          Meta.mk idx (originalName_of f idx) (Z.of_N (File.size f)) 0)
       files.

Definition sum_originalSize (ms : list Meta.t) : Z :=
  foldl (fun s it => s + Meta.originalSize it) 0 ms.

Definition sum_processedBytes (ms : list Meta.t) : Z :=
  foldl (fun s it => s + Meta.processedBytes it) 0 ms.

Definition overallPct (totalProcessed totalOriginal : Z) : Z :=
  if 0 <? totalOriginal
  then Z.min 100
         (Math_round (inject_Z totalProcessed / inject_Z totalOriginal * 100))
  else 0.

Definition reportOverall (ms : list Meta.t) : list SseEvent :=
  let totalOriginal := sum_originalSize ms in
  let totalProcessed := sum_processedBytes ms in
  let pct := overallPct totalProcessed totalOriginal in
  sendSse_if clientId (overall_progress totalProcessed totalOriginal pct).

Definition init_pool : Pool :=
  mkPool init_statesMeta [] 0 0 ∅ false [] [].

(** One iteration of the [while] loop of [startNext]: take
    [currentIdx = idxPtr++], count the job as running, and run its
    wrapper up to the first await of [processFile]. *)
Definition launch (f : File.t) (p : Pool) : Pool :=
  let currentIdx := idxPtr p in
  mkPool (statesMeta p) (results p) (running p + 1) (S currentIdx)
         (<[currentIdx := processFile_start f currentIdx]> (jobs p))
         (resolved p) (sse p)
         (encodeCalls p ++ [(currentIdx, encode_quality quality)]).

(** [while (running < CONCURRENCY && idxPtr < files.length)]; the lookup
    [files !! idxPtr] succeeds exactly when [idxPtr < files.length]. *)
Fixpoint startLoop (fuel : nat) (p : Pool) : Pool :=
  match fuel with
  | O => p
  | S fuel' =>
      match files !! idxPtr p with
      | Some f =>
          if lt_num (running p) CONCURRENCY
          then startLoop fuel' (launch f p)
          else p
      | None => p
      end
  end.

Definition startNext (p : Pool) : Pool :=
  if (length files <=? idxPtr p)%nat && (running p =? 0)
  then mkPool (statesMeta p) (results p) (running p) (idxPtr p) (jobs p)
              true (sse p) (encodeCalls p)
  else startLoop (length files - idxPtr p) p.

(** The [.catch] handler of the wrapper: [running--; startNext()]. *)
Definition job_rejected (p : Pool) : Pool :=
  startNext
    (mkPool (statesMeta p) (results p) (running p - 1) (idxPtr p) (jobs p)
            (resolved p) (sse p) (encodeCalls p)).

(** The value stored into [statesMeta[currentIdx].processedBytes], if any. *)
Definition propagated_bytes (result : FileResult.t) : option Z :=
  match FileResult.state result with
  | Some st => Some (State.processedBytes st)
  | None =>
      match FileResult.compressedSize result with
      | Some c => if c =? 0 then None else Some c
      | None => None
      end
  end.

Definition result_entry (result : FileResult.t) : Result.t :=
  Result.mk (FileResult.index result) (FileResult.name result)
            (FileResult.originalSize result)
            (FileResult.compressedSize result)
            (FileResult.outPath result) (FileResult.error result).

(** The wrapper after [await processFile(...)]: propagate the bytes,
    [reportOverall], push the result, [running--], [startNext()]. *)
Definition job_continue (ms : list Meta.t) (result : FileResult.t)
           (p : Pool) : Pool :=
  startNext
    (mkPool ms (results p ++ [result_entry result]) (running p - 1)
            (idxPtr p) (jobs p) (resolved p)
            (sse p ++ reportOverall ms) (encodeCalls p)).

(** An assignment to a field of [statesMeta[currentIdx]] throws when the
    entry does not exist; the exception reaches the [.catch] handler. *)
Definition job_returned (currentIdx : nat) (result : FileResult.t)
           (p : Pool) : Pool :=
  match propagated_bytes result with
  | None => job_continue (statesMeta p) result p
  | Some v =>
      match statesMeta p !! currentIdx with
      | Some m =>
          job_continue
            (<[currentIdx := Meta.set_processedBytes v m]> (statesMeta p))
            result p
      | None => job_rejected p
      end
  end.

Definition set_jobs (js : gmap nat Job) (out : list SseEvent) (p : Pool)
  : Pool :=
  mkPool (statesMeta p) (results p) (running p) (idxPtr p) js
         (resolved p) (sse p ++ out) (encodeCalls p).

(** One event.  [None]: the event cannot occur in this state (no such
    activation, timer cleared, or the job awaits something else). *)
Definition step (p : Pool) (e : Event) : option Pool :=
  match e with
  | Tick i random =>
      match jobs p !! i with
      | Some j =>
          if interval j then
            let '(st, out) := tick clientId random (state j) in
            Some (set_jobs
                    (<[i := mkJob st (interval j) (phase j) (outName j)]>
                       (jobs p)) out p)
          else None
      | None => None
      end
  | EncodeResolved i len out =>
      match jobs p !! i with
      | Some (mkJob _ _ Encoding _ as j) =>
          Some (set_jobs
                  (<[i := processFile_finalize (Z.of_N len) out j]> (jobs p))
                  [] p)
      | _ => None
      end
  | EncodeRejected i msg =>
      match jobs p !! i with
      | Some (mkJob _ _ Encoding _ as j) =>
          let '(_, result, out) := processFile_catch clientId msg j in
          Some (job_returned i result (set_jobs (delete i (jobs p)) out p))
      | _ => None
      end
  | WriteResolved i =>
      match jobs p !! i with
      | Some (mkJob _ _ Writing _ as j) =>
          let '(result, out) := processFile_return clientId j in
          Some (job_returned i result (set_jobs (delete i (jobs p)) out p))
      | _ => None
      end
  | WriteRejected i msg =>
      match jobs p !! i with
      | Some (mkJob _ _ Writing _ as j) =>
          let '(_, result, out) := processFile_catch clientId msg j in
          Some (job_returned i result (set_jobs (delete i (jobs p)) out p))
      | _ => None
      end
  | WrapperRejected i =>
      match jobs p !! i with
      | Some _ => Some (job_rejected (set_jobs (delete i (jobs p)) [] p))
      | None => None
      end
  end.

Fixpoint exec (p : Pool) (evs : list Event) : option Pool :=
  match evs with
  | [] => Some p
  | e :: evs' =>
      match step p e with
      | Some p' => exec p' evs'
      | None => None
      end
  end.

(** The code after [await new Promise(...)]: final [overall-progress],
    [done], and the response. *)
Definition finish (p : Pool) : Outcome :=
  let totalOriginal :=
    foldl (fun s r => s + default 0 (Result.originalSize r)) 0 (results p) in
  let totalProcessed :=
    foldl (fun s r => s + default 0 (Result.compressedSize r)) 0 (results p) in
  let finalPct :=
    if 0 <? totalOriginal
    then Z.min 100
           (Math_round
              (inject_Z totalProcessed / inject_Z totalOriginal * 100))
    else 100 in
  mkOutcome
    (Some (Json true (results p)))
    (sse p
     ++ sendSse_if clientId
          (overall_progress totalProcessed totalOriginal finalPct)
     ++ sendSse_if clientId (done (results p)))
    (encodeCalls p).

(** The handler, observed after the events [evs]. [None]: [evs] is not a
    possible history. *)
Definition compress_multi (evs : list Event) : option Outcome :=
  if (length files =? 0)%nat then
    match evs with
    | [] => Some (mkOutcome (Some (BadRequest no_files_message)) [] [])
    | _ => None
    end
  else
    match exec (startNext init_pool) evs with
    | Some p =>
        Some (if resolved p then finish p
              else mkOutcome None (sse p) (encodeCalls p))
    | None => None
    end.

(** ** Invariants *)

(** The state of a live activation agrees with the await it is at. *)
Definition job_ok (j : Job) : Prop :=
  0 <= State.originalSize (state j)
  /\ match phase j with
     | Encoding =>
         interval j = true
         /\ State.isCompressing (state j) = true
         /\ 0 <= State.processedBytes (state j)
            <= maxBeforeFinish (State.originalSize (state j))
         /\ State.progress (state j)
            = Z.min MAX_SIMULATED_PCT
                (newPct (State.processedBytes (state j))
                        (State.originalSize (state j)))
     | Writing =>
         interval j = false
         /\ State.isCompressing (state j) = false
         /\ State.progress (state j) = 100
     end.

(** Job [i] has a result entry with an error. *)
Definition failed_in (rs : list Result.t) (i : nat) : Prop :=
  exists r, r ∈ rs /\ Result.index r = i /\ is_Some (Result.error r).

(** The progress values [ps] of a job that is over: non-decreasing, except
    for one final 0 when the job failed. *)
Definition settled_log (rs : list Result.t) (i : nat) (ps : list Z) : Prop :=
  exists l t,
    ps = l ++ t /\ nondecreasing l
    /\ (t = [] \/ (t = [0] /\ failed_in rs i)).

Definition overall_ok (ev : SseEvent) : Prop :=
  match ev with
  | overall_progress tp to pr =>
      to = sum_originalSize init_statesMeta /\ pr = overallPct tp to
  | _ => True
  end.

(** What one job may push without disturbing the others. *)
Definition job_output (i : nat) (out : list SseEvent) : Prop :=
  (forall k, k <> i -> progress_of k out = [])
  /\ Forall (fun ev => is_done ev = false) out
  /\ Forall overall_ok out.

Record pool_inv (p : Pool) : Prop := mk_pool_inv {
  inv_running : running p = Z.of_nat (size (jobs p));
  inv_idx : (idxPtr p <= length files)%nat;
  inv_jobs :
    forall i j, jobs p !! i = Some j ->
      (i < idxPtr p)%nat /\ State.index (state j) = i /\ job_ok j
      /\ exists f, files !! i = Some f
                   /\ State.originalSize (state j) = Z.of_N (File.size f);
  inv_limit : 0 < running p -> lt_num (running p - 1) CONCURRENCY = true;
  inv_meta :
    map Meta.originalSize (statesMeta p)
    = map (fun f => Z.of_N (File.size f)) files;
  inv_resolved :
    resolved p = true -> jobs p = ∅ /\ idxPtr p = length files;
  inv_encodes :
    encodeCalls p
    = map (fun i => (i, encode_quality quality)) (seq 0 (idxPtr p));
  inv_results_idx :
    forall i, i ∈ map Result.index (results p) ->
      (i < idxPtr p)%nat /\ jobs p !! i = None;
  inv_results_nodup : NoDup (map Result.index (results p));
  inv_results_size :
    forall r, r ∈ results p ->
      Result.originalSize r = None
      \/ exists f, files !! Result.index r = Some f
                   /\ Result.originalSize r = Some (Z.of_N (File.size f));
  inv_log_live :
    forall i j, jobs p !! i = Some j ->
      nondecreasing (progress_of i (sse p))
      /\ Forall (fun x => x <= State.progress (state j))
                (progress_of i (sse p));
  inv_log_settled :
    forall i, jobs p !! i = None -> (i < idxPtr p)%nat ->
      settled_log (results p) i (progress_of i (sse p));
  inv_log_pending :
    forall i, (idxPtr p <= i)%nat -> progress_of i (sse p) = [];
  inv_no_done : Forall (fun ev => is_done ev = false) (sse p);
  inv_overall : Forall overall_ok (sse p)
}.

(** The events at which [processFile] returns a result. *)
Definition returns_at (e : Event) (i : nat) (j : Job)
           (result : FileResult.t) (out : list SseEvent) : Prop :=
  match e with
  | EncodeRejected k msg =>
      k = i /\ phase j = Encoding
      /\ exists j', processFile_catch clientId msg j = (j', result, out)
  | WriteRejected k msg =>
      k = i /\ phase j = Writing
      /\ exists j', processFile_catch clientId msg j = (j', result, out)
  | WriteResolved k =>
      k = i /\ phase j = Writing
      /\ processFile_return clientId j = (result, out)
  | _ => False
  end.

(** Jobs not yet over: those still to launch plus the live ones. *)
Definition remaining (p : Pool) : nat :=
  (length files - idxPtr p + size (jobs p))%nat.

(** Histories, as a relation: [reaches evs p] when the events [evs], in
    this order, lead from the start of the batch to [p]. *)
Inductive reaches : list Event -> Pool -> Prop :=
| reaches_init : reaches [] (startNext init_pool)
| reaches_step evs p e p' :
    reaches evs p -> step p e = Some p' -> reaches (evs ++ [e]) p'.

(** The call of [jimpToJpegBuffer] in the Jimp branch of [processFile]:
    [jimpToJpegBuffer(img, Math.max(1, Math.min(100, quality)),
    Math.max(60, quality))]. *)
Definition processFile_jimp_encode (img : option JimpImage) : JimpCall :=
  jimpToJpegBuffer_call img (encode_quality quality)
                        (Math_max (Fin 60) quality).

(** ** What a job and a result entry carry *)

(** [f.size] of the file at index [i]. *)
Definition file_size_at (i : nat) : Z :=
  match files !! i with
  | Some f => Z.of_N (File.size f)
  | None => 0
  end.

(** The entry of a job that did not fail. *)
Definition succeeded (r : Result.t) : bool :=
  match Result.error r with
  | None => true
  | Some _ => false
  end.

(** A live job [i] works on the file at index [i]; its last reported
    percentage is one of the simulated ones (or none yet); once the encoder
    has resolved, it holds the length of the buffer. *)
Definition job_track (i : nat) (j : Job) : Prop :=
  exists f,
    files !! i = Some f
    /\ State.index (state j) = i
    /\ State.originalName (state j) = originalName_of f i
    /\ State.originalSize (state j) = Z.of_N (File.size f)
    /\ State.error (state j) = None
    /\ -1 <= State.lastReportedPct (state j) <= MAX_SIMULATED_PCT
    /\ match phase j with
       | Encoding => State.compressedSize (state j) = None
       | Writing =>
           exists len : N,
             State.compressedSize (state j) = Some (Z.of_N len)
             /\ State.processedBytes (state j) = Z.of_N len
             /\ State.progress (state j) = 100
       end.

(** An entry of [results] names its file; it carries the sizes and the
    output path of a job that succeeded, and nothing but the error of one
    that failed. *)
Definition result_track (r : Result.t) : Prop :=
  exists f,
    files !! Result.index r = Some f
    /\ Result.name r = originalName_of f (Result.index r)
    /\ ((Result.error r = None
         /\ Result.originalSize r = Some (Z.of_N (File.size f))
         /\ exists (len : N) (o : string),
             Result.compressedSize r = Some (Z.of_N len)
             /\ Result.outPath r = Some ("/outputs/" +:+ o))
        \/ (is_Some (Result.error r)
            /\ Result.originalSize r = None
            /\ Result.compressedSize r = None
            /\ Result.outPath r = None)).

Definition pool_track (p : Pool) : Prop :=
  (forall i j, jobs p !! i = Some j -> job_track i j)
  /\ Forall result_track (results p).

(** The aggregation behind [reportOverall]: an entry of [statesMeta] counts
    only once its job has a result, the processed total is the sum of the
    compressed sizes recorded in [results], and the percentages pushed so
    far go up and stay below the one a push would report now. *)
Definition pool_overall (p : Pool) : Prop :=
  (forall i m, statesMeta p !! i = Some m ->
               i ∉ map Result.index (results p) ->
               Meta.processedBytes m = 0)
  /\ sum_processedBytes (statesMeta p)
     = foldl (fun s r => s + default 0 (Result.compressedSize r)) 0
             (results p)
  /\ 0 <= sum_processedBytes (statesMeta p)
  /\ nondecreasing (overall_pcts (sse p))
  /\ Forall (fun x => 0 <= x
                      /\ x <= overallPct (sum_processedBytes (statesMeta p))
                                         (sum_originalSize init_statesMeta))
            (overall_pcts (sse p)).

(** ** Arithmetic of the estimator *)

Lemma Math_round_Z (z : Z) : Math_round (inject_Z z) = z.
Proof.
  unfold Math_round, Qfloor, Qplus, inject_Z; simpl.
  rewrite Z.mul_1_r.
  apply eq_sym, (Z.div_unique (z * 2 + 1) 2 z 1); lia.
Qed.

Lemma maxBeforeFinish_eq (s : Z) : maxBeforeFinish s = (s * 9) `div` 10.
Proof. reflexivity. Qed.

Lemma round_ratio_eq (a d : Z) :
  0 < d ->
  Math_round (inject_Z a / inject_Z d * 100) = (200 * a + d) `div` (2 * d).
Proof.
  intros Hd. destruct d as [|p|p]; try lia.
  unfold Math_round.
  rewrite (Qfloor_comp _ ((200 * a + Z.pos p) # (2 * p))).
  - reflexivity.
  - unfold Qeq, Qdiv, Qmult, Qinv, Qplus, inject_Z; simpl. lia.
Qed.

Lemma newPct_eq (pb s : Z) :
  newPct pb s = (200 * pb + Z.max 1 s) `div` (2 * Z.max 1 s).
Proof. unfold newPct. apply round_ratio_eq. lia. Qed.

Lemma newPct_0 (s : Z) : newPct 0 s = 0.
Proof.
  rewrite newPct_eq. apply Z.div_small. lia.
Qed.

Lemma newPct_mono (a b s : Z) : a <= b -> newPct a s <= newPct b s.
Proof.
  intros Hab. rewrite !newPct_eq. apply Z.div_le_mono; lia.
Qed.

Lemma maxBeforeFinish_nonneg (s : Z) : 0 <= s -> 0 <= maxBeforeFinish s.
Proof. intros Hs. rewrite maxBeforeFinish_eq. apply Z.div_pos; lia. Qed.


Lemma tick_inc_min (s : Z) (u : Q) : 8 * 1024 <= tick_inc s u.
Proof. unfold tick_inc. apply Z.le_max_l. Qed.

(** ** reportIfNeeded *)

Lemma reportIfNeeded_out (cid : option string) (st : State.t) :
  snd (reportIfNeeded cid st) = []
  \/ snd (reportIfNeeded cid st)
     = [file_progress (State.index st) (State.originalName st)
                      (State.processedBytes st) (State.originalSize st)
                      (State.progress st)].
Proof.
  unfold reportIfNeeded, sendSse_if.
  destruct (_ && _); simpl; [by left|].
  destruct (truthy cid); [by right | by left].
Qed.

Lemma reportIfNeeded_state (cid : option string) (st : State.t) :
  let st' := fst (reportIfNeeded cid st) in
  State.index st' = State.index st
  /\ State.originalName st' = State.originalName st
  /\ State.originalSize st' = State.originalSize st
  /\ State.processedBytes st' = State.processedBytes st
  /\ State.progress st' = State.progress st
  /\ State.compressedSize st' = State.compressedSize st
  /\ State.outPath st' = State.outPath st
  /\ State.error st' = State.error st
  /\ State.isCompressing st' = State.isCompressing st
  /\ State.lastReportedPct st' = State.progress st.
Proof.
  unfold reportIfNeeded. rewrite Math_round_Z.
  destruct (State.progress st =? State.lastReportedPct st) eqn:E; simpl.
  - apply Z.eqb_eq in E.
    destruct (negb _); simpl; repeat split; try reflexivity; by symmetry.
  - repeat split; reflexivity.
Qed.

(** ** Lists of progress values *)

Lemma nondecreasing_nil : nondecreasing [].
Proof. intros a b x y _ H. by rewrite lookup_nil in H. Qed.

Lemma nondecreasing_snoc (l : list Z) (x : Z) :
  nondecreasing l -> Forall (fun y => y <= x) l -> nondecreasing (l ++ [x]).
Proof.
  intros Hl Hx a b u v Hab Ha Hb.
  destruct (decide (b < length l)%nat) as [Hlt|Hge].
  - rewrite lookup_app_l in Ha by lia. rewrite lookup_app_l in Hb by lia.
    eauto.
  - rewrite lookup_app_r in Hb by lia.
    destruct (b - length l)%nat eqn:E; simpl in Hb; [|by rewrite lookup_nil in Hb].
    injection Hb as <-.
    destruct (decide (a < length l)%nat) as [Hlt'|Hge'].
    + rewrite lookup_app_l in Ha by lia.
      rewrite Forall_forall in Hx. apply Hx.
      eapply list_elem_of_lookup_2. eassumption.
    + rewrite lookup_app_r in Ha by lia.
      destruct (a - length l)%nat eqn:E'; simpl in Ha; [|by rewrite lookup_nil in Ha].
      injection Ha as <-. lia.
Qed.

Lemma Forall_le_snoc (l : list Z) (x y : Z) :
  Forall (fun z => z <= x) l -> x <= y -> Forall (fun z => z <= y) (l ++ [y]).
Proof.
  intros Hl Hxy. apply Forall_app. split.
  - eapply Forall_impl; [exact Hl|]. simpl. intros; lia.
  - constructor; [lia|constructor].
Qed.

Lemma progress_of_app (i : nat) (l1 l2 : list SseEvent) :
  progress_of i (l1 ++ l2) = progress_of i l1 ++ progress_of i l2.
Proof. apply omap_app. Qed.

Lemma progress_of_sendSse_if (i : nat) (cid : option string) (ev : SseEvent) :
  is_file_progress ev = false -> progress_of i (sendSse_if cid ev) = [].
Proof.
  unfold sendSse_if. destruct (truthy cid); [|done].
  by destruct ev.
Qed.

Lemma progress_of_report (k : nat) (cid : option string) (st : State.t) :
  progress_of k (snd (reportIfNeeded cid st)) = []
  \/ (k = State.index st
      /\ progress_of k (snd (reportIfNeeded cid st)) = [State.progress st]).
Proof.
  destruct (reportIfNeeded_out cid st) as [-> | ->]; [by left|].
  unfold progress_of; simpl. destruct (decide _); [right|left]; done.
Qed.

Lemma progress_of_report_other (k : nat) (cid : option string) (st : State.t) :
  k <> State.index st -> progress_of k (snd (reportIfNeeded cid st)) = [].
Proof.
  intros Hk. destruct (progress_of_report k cid st) as [?|[? _]]; done.
Qed.

(** ** One tick of the estimator *)

Lemma tick_spec (cid : option string) (u : Q) (st : State.t) :
  State.isCompressing st = true ->
  let pb := Z.min (maxBeforeFinish (State.originalSize st))
                  (State.processedBytes st
                   + tick_inc (State.originalSize st) u) in
  let pr := Z.min MAX_SIMULATED_PCT (newPct pb (State.originalSize st)) in
  let st' := fst (tick cid u st) in
  let out := snd (tick cid u st) in
  State.index st' = State.index st
  /\ State.originalName st' = State.originalName st
  /\ State.originalSize st' = State.originalSize st
  /\ State.isCompressing st' = true
  /\ State.processedBytes st' = pb
  /\ State.progress st' = pr
  /\ (out = []
      \/ out = [file_progress (State.index st) (State.originalName st)
                              pb (State.originalSize st) pr]).
Proof.
  intros Hc. unfold tick. rewrite Hc. simpl.
  match goal with
  | |- context [reportIfNeeded cid ?s] =>
      pose proof (reportIfNeeded_state cid s) as Hs;
      pose proof (reportIfNeeded_out cid s) as Ho
  end.
  simpl in Hs, Ho.
  destruct Hs as (H1 & H2 & H3 & H4 & H5 & _ & _ & _ & H9 & _).
  rewrite Hc in H9.
  repeat split; try assumption.
Qed.

Lemma tick_job_ok (cid : option string) (u : Q) (j : Job) :
  job_ok j -> phase j = Encoding ->
  job_ok (mkJob (fst (tick cid u (state j))) (interval j) (phase j)
                (outName j))
  /\ State.progress (state j) <= State.progress (fst (tick cid u (state j))).
Proof.
  intros [Hs Hj] Hp. rewrite Hp in Hj.
  destruct Hj as (Hi & Hc & Hpb & Hpr).
  destruct (tick_spec cid u (state j) Hc) as (H1 & H2 & H3 & H4 & H5 & H6 & _).
  pose proof (tick_inc_min (State.originalSize (state j)) u) as Hinc.
  unfold job_ok; simpl. rewrite Hp, H3, H4, H5, H6.
  repeat split; try assumption; try lia.
  rewrite Hpr.
  apply Z.min_le_compat_l, newPct_mono. lia.
Qed.

(** ** The concurrency limit *)

Lemma lt_num_antitone (a b : Z) (l : JsNum) :
  a <= b -> lt_num b l = true -> lt_num a l = true.
Proof.
  intros Hab. destruct l as [q| | |]; try done. unfold lt_num.
  destruct (inject_Z b ?= q)%Q eqn:Hb; try done. intros _.
  apply Qlt_alt in Hb.
  assert (inject_Z a < q)%Q as Ha.
  { eapply Qle_lt_trans; [|exact Hb]. rewrite <- Zle_Qle. exact Hab. }
  by rewrite (proj1 (Qlt_alt _ _) Ha).
Qed.

Lemma lt_num_limit_is (r c : Z) (l : JsNum) :
  limit_is c l -> lt_num r l = true <-> r < c.
Proof.
  destruct l as [q| | |]; try done. unfold lt_num, limit_is. intros Hq.
  rewrite Zlt_Qlt, <- Hq, Qlt_alt.
  destruct (inject_Z r ?= q)%Q; split; done.
Qed.

(** ** The pool invariant *)

Lemma imap_sizes (h : nat -> File.t -> Meta.t) (l : list File.t) :
  (forall i f, Meta.originalSize (h i f) = Z.of_N (File.size f)) ->
  map Meta.originalSize (imap h l) = map (fun f => Z.of_N (File.size f)) l.
Proof.
  revert h. induction l as [|f l IH]; intros h Hh; [done|].
  simpl. rewrite Hh. f_equal. apply IH. intros i f'. apply Hh.
Qed.

Lemma init_statesMeta_sizes :
  map Meta.originalSize init_statesMeta
  = map (fun f => Z.of_N (File.size f)) files.
Proof. apply imap_sizes. done. Qed.

Lemma pool_inv_init : pool_inv init_pool.
Proof.
  split; simpl; try done.
  all: try (intros; lia).
  all: try by (intros ? H; apply elem_of_nil in H).
  all: try apply init_statesMeta_sizes.
  all: try constructor.
Qed.

Ltac pool_fields :=
  cbn [statesMeta results running idxPtr jobs resolved sse encodeCalls].

Lemma processFile_start_ok (f : File.t) (idx : nat) :
  job_ok (processFile_start f idx).
Proof.
  unfold job_ok, processFile_start; simpl.
  pose proof (N2Z.is_nonneg (File.size f)) as Hs.
  split; [exact Hs|].
  repeat split; try done.
  - by apply maxBeforeFinish_nonneg.
  - by rewrite newPct_0.
Qed.

Lemma pool_inv_fresh (p : Pool) :
  pool_inv p -> jobs p !! idxPtr p = None.
Proof.
  intros Hinv. destruct (jobs p !! idxPtr p) as [j|] eqn:Hj; [|done].
  apply (inv_jobs p Hinv) in Hj. lia.
Qed.

Lemma pool_inv_launch (p : Pool) (f : File.t) :
  pool_inv p ->
  files !! idxPtr p = Some f ->
  lt_num (running p) CONCURRENCY = true ->
  pool_inv (launch f p).
Proof.
  intros Hinv Hf Hlt.
  pose proof (pool_inv_fresh p Hinv) as Hfresh.
  pose proof (lookup_lt_Some _ _ _ Hf) as Hlen.
  destruct Hinv as [H1 H2 H3 H4 H5 H6 H7 H8 H9 H10 H11 H12 H13 H14 H15].
  split; unfold launch; pool_fields; try assumption.
  - rewrite map_size_insert_None by done. lia.
  - intros i j. rewrite lookup_insert. case_decide as Hi.
    + intros [= <-]. subst i. split; [lia|]. split; [done|].
      split; [apply processFile_start_ok|]. by exists f.
    + intros Hj. destruct (H3 i j Hj) as (? & ? & ? & ?).
      split; [lia|]. done.
  - intros _. by replace (running p + 1 - 1) with (running p) by lia.
  - intros Hr. destruct (H6 Hr) as [_ Hi]. lia.
  - rewrite seq_S, map_app, <- H7. done.
  - intros i Hi. destruct (H8 i Hi) as [? ?]. split; [lia|].
    rewrite lookup_insert_ne by lia. done.
  - intros i j. rewrite lookup_insert. case_decide as Hi.
    + intros _. subst i. rewrite (H13 (idxPtr p)) by lia.
      split; [apply nondecreasing_nil|constructor].
    + apply H11.
  - intros i. rewrite lookup_insert. case_decide as Hi; [done|].
    intros Hn Hlt'. apply H12; [done|lia].
  - intros i Hi. apply H13. lia.
Qed.

Lemma pool_inv_startLoop (fuel : nat) (p : Pool) :
  pool_inv p -> pool_inv (startLoop fuel p).
Proof.
  revert p. induction fuel as [|fuel IH]; intros p Hinv; simpl; [done|].
  destruct (files !! idxPtr p) as [f|] eqn:Hf; [|done].
  destruct (lt_num (running p) CONCURRENCY) eqn:Hlt; [|done].
  apply IH. by apply pool_inv_launch.
Qed.

Lemma pool_inv_startNext (p : Pool) :
  pool_inv p -> pool_inv (startNext p).
Proof.
  intros Hinv. unfold startNext.
  destruct (_ && _) eqn:E; [|by apply pool_inv_startLoop].
  apply andb_true_iff in E as [E1 E2].
  apply Nat.leb_le in E1. apply Z.eqb_eq in E2.
  destruct Hinv as [H1 H2 H3 H4 H5 H6 H7 H8 H9 H10 H11 H12 H13 H14 H15].
  split; pool_fields; try assumption.
  intros _. split; [|lia].
  apply map_size_empty_inv. lia.
Qed.

Lemma job_output_nil (i : nat) : job_output i [].
Proof. repeat split; constructor. Qed.

Lemma job_output_app (i : nat) (o1 o2 : list SseEvent) :
  job_output i o1 -> job_output i o2 -> job_output i (o1 ++ o2).
Proof.
  intros (A1 & B1 & C1) (A2 & B2 & C2). repeat split.
  - intros k Hk. by rewrite progress_of_app, A1, A2.
  - by apply Forall_app.
  - by apply Forall_app.
Qed.

Lemma job_output_report (cid : option string) (st : State.t) :
  job_output (State.index st) (snd (reportIfNeeded cid st)).
Proof.
  repeat split.
  - intros k Hk. by apply progress_of_report_other.
  - destruct (reportIfNeeded_out cid st) as [-> | ->]; repeat constructor.
  - destruct (reportIfNeeded_out cid st) as [-> | ->]; repeat constructor.
Qed.

Lemma job_output_sendSse_if (i : nat) (cid : option string) (ev : SseEvent) :
  is_file_progress ev = false -> is_done ev = false -> overall_ok ev ->
  job_output i (sendSse_if cid ev).
Proof.
  intros H1 H2 H3. repeat split.
  - intros k _. by apply progress_of_sendSse_if.
  - unfold sendSse_if. destruct (truthy cid); repeat constructor; done.
  - unfold sendSse_if. destruct (truthy cid); repeat constructor; done.
Qed.

Lemma settled_log_mono (rs : list Result.t) (r : Result.t) (i : nat)
      (ps : list Z) :
  settled_log rs i ps -> settled_log (rs ++ [r]) i ps.
Proof.
  intros (l & t & -> & Hl & Ht). exists l, t. repeat split; try done.
  destruct Ht as [->|[-> (r' & Hr' & ?)]]; [by left|right].
  split; [done|]. exists r'. split; [|done].
  apply elem_of_app. by left.
Qed.

(** A live job changes state and pushes [out]. *)
Lemma pool_inv_update (p : Pool) (i : nat) (j j' : Job)
      (out : list SseEvent) :
  pool_inv p ->
  jobs p !! i = Some j ->
  State.index (state j') = i ->
  State.originalSize (state j') = State.originalSize (state j) ->
  job_ok j' ->
  State.progress (state j) <= State.progress (state j') ->
  job_output i out ->
  (progress_of i out = [] \/ progress_of i out = [State.progress (state j')]) ->
  pool_inv (set_jobs (<[i := j']> (jobs p)) out p).
Proof.
  intros Hinv Hj Hidx Hsz Hok Hpr (Hothers & Hnd & Hov) Hmine.
  destruct Hinv as [H1 H2 H3 H4 H5 H6 H7 H8 H9 H10 H11 H12 H13 H14 H15].
  destruct (H3 i j Hj) as (Hlt & _ & _ & f & Hf & Hfs).
  split; unfold set_jobs; pool_fields; try assumption.
  - rewrite map_size_insert, Hj. done.
  - intros k jk. rewrite lookup_insert. case_decide as Hk.
    + intros [= <-]. subst k.
      split; [done|]. split; [done|]. split; [done|].
      exists f. split; [done|congruence].
    + apply H3.
  - intros Hr. destruct (H6 Hr) as [He _]. by rewrite He in Hj.
  - intros k Hk. destruct (H8 k Hk) as [? Hn]. split; [done|].
    rewrite lookup_insert_ne; [done|]. intros ->. congruence.
  - intros k jk. rewrite lookup_insert, progress_of_app. case_decide as Hk.
    + intros [= <-]. subst k. destruct (H11 i j Hj) as [Hmono Hle].
      destruct Hmine as [-> | ->].
      * rewrite app_nil_r. split; [done|].
        eapply Forall_impl; [exact Hle|]. simpl. intros; lia.
      * split.
        -- apply nondecreasing_snoc; [done|].
           eapply Forall_impl; [exact Hle|]. simpl. intros; lia.
        -- eapply Forall_le_snoc; [exact Hle|done].
    + intros Hjk. rewrite Hothers by done. rewrite app_nil_r. by apply H11.
  - intros k. rewrite lookup_insert, progress_of_app. case_decide as Hk; [done|].
    intros Hn Hlt'. rewrite Hothers by done. rewrite app_nil_r. by apply H12.
  - intros k Hk. rewrite progress_of_app, Hothers by lia.
    rewrite app_nil_r. by apply H13.
  - by apply Forall_app.
  - by apply Forall_app.
Qed.
Lemma sum_originalSize_fmap (ms : list Meta.t) :
  sum_originalSize ms = foldl Z.add 0 (map Meta.originalSize ms).
Proof.
  unfold sum_originalSize. generalize 0.
  induction ms as [|m ms IH]; intros a; [done|]. simpl. apply IH.
Qed.

Lemma sum_originalSize_inv (p : Pool) :
  pool_inv p -> sum_originalSize (statesMeta p) = sum_originalSize init_statesMeta.
Proof.
  intros Hinv. rewrite !sum_originalSize_fmap.
  by rewrite (inv_meta p Hinv), init_statesMeta_sizes.
Qed.

Lemma job_output_reportOverall (i : nat) (ms : list Meta.t) :
  map Meta.originalSize ms = map (fun f => Z.of_N (File.size f)) files ->
  job_output i (reportOverall ms).
Proof.
  intros Hms. apply job_output_sendSse_if; try done.
  simpl. split; [|done].
  rewrite !sum_originalSize_fmap. by rewrite Hms, init_statesMeta_sizes.
Qed.

(** A live job ends: its activation disappears, [running] is decremented,
    and possibly a result is recorded. *)
Lemma pool_inv_leave (p : Pool) (i : nat) (j : Job) (ms : list Meta.t)
      (rs' : list Result.t) (out : list SseEvent) :
  pool_inv p ->
  jobs p !! i = Some j ->
  map Meta.originalSize ms = map Meta.originalSize (statesMeta p) ->
  (rs' = results p
   \/ exists r, rs' = results p ++ [r] /\ Result.index r = i
                /\ (Result.originalSize r = None
                    \/ Result.originalSize r
                       = Some (State.originalSize (state j)))) ->
  job_output i out ->
  settled_log rs' i (progress_of i (sse p) ++ progress_of i out) ->
  pool_inv (mkPool ms rs' (running p - 1) (idxPtr p) (delete i (jobs p))
                   (resolved p) (sse p ++ out) (encodeCalls p)).
Proof.
  intros Hinv Hj Hms Hrs (Hothers & Hnd & Hov) Hlog.
  destruct Hinv as [H1 H2 H3 H4 H5 H6 H7 H8 H9 H10 H11 H12 H13 H14 H15].
  destruct (H3 i j Hj) as (Hlt & _ & _ & f & Hf & Hfs).
  assert (size (jobs p) <> 0%nat) as Hsz.
  { intros Hz. apply map_size_empty_inv in Hz. by rewrite Hz in Hj. }
  assert (i ∉ map Result.index (results p)) as Hnotin.
  { intros Hin. destruct (H8 i Hin) as [_ Hn]. congruence. }
  split; pool_fields; try assumption.
  - rewrite map_size_delete_Some by (by eexists). lia.
  - intros k jk. rewrite lookup_delete. case_decide as Hk; [done|]. apply H3.
  - intros Hpos. eapply lt_num_antitone; [|apply H4; lia]. lia.
  - congruence.
  - intros Hr. destruct (H6 Hr) as [He _]. by rewrite He in Hj.
  - intros k Hk. destruct Hrs as [-> | (r & -> & Hri & _)].
    + destruct (H8 k Hk) as [? ?]. split; [done|].
      rewrite lookup_delete. by case_decide.
    + rewrite map_app in Hk. apply elem_of_app in Hk as [Hk|Hk].
      * destruct (H8 k Hk) as [? ?]. split; [done|].
        rewrite lookup_delete. by case_decide.
      * apply list_elem_of_singleton in Hk. simpl in Hk. subst k. rewrite Hri.
        split; [done|]. apply lookup_delete_eq.
  - destruct Hrs as [-> | (r & -> & Hri & _)]; [done|].
    rewrite map_app. apply NoDup_app. split; [done|]. split.
    + intros k Hk Hk'. apply list_elem_of_singleton in Hk'. simpl in Hk'.
      congruence.
    + apply NoDup_singleton.
  - intros r Hr. destruct Hrs as [-> | (r0 & -> & Hri & Hro)]; [by apply H10|].
    apply elem_of_app in Hr as [Hr|Hr]; [by apply H10|].
    apply list_elem_of_singleton in Hr. subst r0.
    destruct Hro as [Hro|Hro]; [by left|right].
    exists f. rewrite Hri. split; [done|congruence].
  - intros k jk. rewrite lookup_delete, progress_of_app.
    case_decide as Hk; [done|]. intros Hjk.
    rewrite Hothers by done. rewrite app_nil_r. by apply H11.
  - intros k. rewrite lookup_delete, progress_of_app.
    case_decide as Hk.
    + intros _ _. by subst k.
    + intros Hn Hlt'. rewrite Hothers by done. rewrite app_nil_r.
      destruct Hrs as [-> | (r & -> & _)]; [by apply H12|].
      apply settled_log_mono. by apply H12.
  - intros k Hk. rewrite progress_of_app, Hothers by lia.
    rewrite app_nil_r. by apply H13.
  - by apply Forall_app.
  - by apply Forall_app.
Qed.
(** ** The exits of processFile *)

Lemma processFile_catch_spec (cid : option string) (msg : string) (j j' : Job)
      (result : FileResult.t) (out : list SseEvent) :
  processFile_catch cid msg j = (j', result, out) ->
  FileResult.index result = State.index (state j)
  /\ FileResult.originalSize result = None
  /\ FileResult.compressedSize result = None
  /\ FileResult.outPath result = None
  /\ FileResult.error result = Some msg
  /\ FileResult.state result = Some (state j')
  /\ interval j' = false
  /\ State.isCompressing (state j') = false
  /\ State.processedBytes (state j') = 0
  /\ State.progress (state j') = 0
  /\ State.lastReportedPct (state j') = 0
  /\ job_output (State.index (state j)) out
  /\ (progress_of (State.index (state j)) out = []
      \/ progress_of (State.index (state j)) out = [0]).
Proof.
  unfold processFile_catch.
  match goal with
  | |- context [reportIfNeeded cid ?s] =>
      pose proof (reportIfNeeded_state cid s) as Hs;
      pose proof (job_output_report cid s) as Ho;
      pose proof (progress_of_report (State.index (state j)) cid s) as Hp;
      destruct (reportIfNeeded cid s) as [st1 out1]
  end.
  simpl in Hs, Ho, Hp.
  destruct Hs as (H1 & H2 & H3 & H4 & H5 & H6 & H7 & H8 & H9 & H10).
  intros [= <- <- <-]. simpl.
  rewrite H1, H8.
  split_and!; try done.
  - apply job_output_app; [done|]. by apply job_output_sendSse_if.
  - rewrite progress_of_app, progress_of_sendSse_if by done.
    rewrite app_nil_r. destruct Hp as [?|[_ ?]]; [by left|by right].
Qed.

Lemma processFile_return_spec (cid : option string) (j : Job)
      (result : FileResult.t) (out : list SseEvent) :
  processFile_return cid j = (result, out) ->
  FileResult.index result = State.index (state j)
  /\ FileResult.originalSize result = Some (State.originalSize (state j))
  /\ FileResult.compressedSize result = State.compressedSize (state j)
  /\ FileResult.error result = None
  /\ (exists st, FileResult.state result = Some st
                 /\ State.processedBytes st = State.processedBytes (state j)
                 /\ State.progress st = State.progress (state j))
  /\ job_output (State.index (state j)) out
  /\ (progress_of (State.index (state j)) out = []
      \/ progress_of (State.index (state j)) out
         = [State.progress (state j)]).
Proof.
  unfold processFile_return.
  match goal with
  | |- context [reportIfNeeded cid ?s] =>
      pose proof (reportIfNeeded_state cid s) as Hs;
      pose proof (job_output_report cid s) as Ho;
      pose proof (progress_of_report (State.index (state j)) cid s) as Hp;
      destruct (reportIfNeeded cid s) as [st1 out1]
  end.
  simpl in Hs, Ho, Hp.
  destruct Hs as (H1 & H2 & H3 & H4 & H5 & H6 & H7 & H8 & H9 & H10).
  intros [= <- <-]. simpl.
  rewrite H1, H3, H6.
  split_and!; try done.
  - by exists st1.
  - apply job_output_app; [done|]. by apply job_output_sendSse_if.
  - rewrite progress_of_app, progress_of_sendSse_if by done.
    rewrite app_nil_r. destruct Hp as [?|[_ ?]]; [by left|by right].
Qed.

Lemma processFile_finalize_ok (len : N) (o : string) (j : Job) :
  job_ok j -> job_ok (processFile_finalize (Z.of_N len) o j).
Proof. intros [Hs _]. by split. Qed.

(** ** Every event preserves the invariant *)

Lemma statesMeta_lookup (p : Pool) (i : nat) (j : Job) :
  pool_inv p -> jobs p !! i = Some j -> is_Some (statesMeta p !! i).
Proof.
  intros Hinv Hj. apply lookup_lt_is_Some.
  destruct (inv_jobs p Hinv i j Hj) as (Hlt & _).
  pose proof (inv_idx p Hinv) as Hle.
  pose proof (f_equal length (inv_meta p Hinv)) as Hlen.
  rewrite !length_map in Hlen. lia.
Qed.

Lemma pool_inv_job_returned (p : Pool) (i : nat) (j : Job)
      (result : FileResult.t) (out : list SseEvent) :
  pool_inv p ->
  jobs p !! i = Some j ->
  FileResult.index result = i ->
  (FileResult.originalSize result = None
   \/ FileResult.originalSize result = Some (State.originalSize (state j))) ->
  job_output i out ->
  settled_log (results p ++ [result_entry result]) i
              (progress_of i (sse p) ++ progress_of i out) ->
  pool_inv (job_returned i result (set_jobs (delete i (jobs p)) out p)).
Proof.
  intros Hinv Hj Hidx Hsz Hout Hlog.
  destruct (statesMeta_lookup p i j Hinv Hj) as [m Hm].
  assert (forall ms,
             map Meta.originalSize ms = map Meta.originalSize (statesMeta p) ->
             pool_inv (job_continue ms result
                         (set_jobs (delete i (jobs p)) out p))) as Hcont.
  { intros ms Hms. unfold job_continue, set_jobs. pool_fields.
    apply pool_inv_startNext. rewrite <- app_assoc.
    apply (pool_inv_leave p i j); try done.
    - right. exists (result_entry result). by repeat split.
    - apply job_output_app; [done|].
      apply job_output_reportOverall. rewrite Hms. by apply inv_meta.
    - rewrite progress_of_app.
      destruct (job_output_reportOverall i ms) as (Hq & _).
      { rewrite Hms. by apply inv_meta. }
      unfold reportOverall.
      rewrite (progress_of_sendSse_if i) by done. by rewrite app_nil_r. }
  unfold job_returned.
  destruct (propagated_bytes result) as [v|]; [|by apply Hcont].
  unfold set_jobs at 1. pool_fields. rewrite Hm. apply Hcont.
  rewrite list_fmap_insert. apply list_insert_id.
  by rewrite list_lookup_fmap, Hm.
Qed.
Lemma job_ok_interval (j : Job) :
  job_ok j -> interval j = true -> phase j = Encoding.
Proof.
  intros [_ Hph] Hi. destruct (phase j); [done|].
  destruct Hph as [Hf _]. congruence.
Qed.

Lemma pool_inv_tick (p : Pool) (i : nat) (u : Q) (j : Job) :
  pool_inv p -> jobs p !! i = Some j -> interval j = true ->
  pool_inv
    (set_jobs
       (<[i := mkJob (fst (tick clientId u (state j))) (interval j)
                     (phase j) (outName j)]> (jobs p))
       (snd (tick clientId u (state j))) p).
Proof.
  intros Hinv Hj Hi.
  destruct (inv_jobs p Hinv i j Hj) as (Hlt & Hidx & Hok & _).
  pose proof (job_ok_interval j Hok Hi) as Hph.
  destruct (tick_job_ok clientId u j Hok Hph) as [Hok' Hle].
  assert (State.isCompressing (state j) = true) as Hc.
  { destruct Hok as [_ Hx]. rewrite Hph in Hx. tauto. }
  destruct (tick_spec clientId u (state j) Hc)
    as (T1 & T2 & T3 & T4 & T5 & T6 & T7).
  apply (pool_inv_update p i j); simpl; try done.
  - congruence.
  - destruct T7 as [-> | ->]; [apply job_output_nil|].
    repeat split; try (repeat constructor; done).
    intros k Hk. unfold progress_of; simpl.
    destruct (decide _); [congruence|done].
  - destruct T7 as [-> | ->]; [by left|right].
    unfold progress_of; simpl. rewrite T6.
    destruct (decide _); [done|congruence].
Qed.

Lemma pool_inv_step (p p' : Pool) (e : Event) :
  pool_inv p -> step p e = Some p' -> pool_inv p'.
Proof.
  intros Hinv Hstep.
  destruct e as [i u|i len o|i msg|i|i msg|i]; simpl in Hstep;
    destruct (jobs p !! i) as [j|] eqn:Hj; try discriminate;
    destruct (inv_jobs p Hinv i j Hj) as (Hlt & Hidx & Hok & f & Hf & Hfs);
    pose proof (inv_log_live p Hinv i j Hj) as [Hmono Hle].
  - (* Tick *)
    destruct (interval j) eqn:Hi; [|discriminate].
    pose proof (pool_inv_tick p i u j Hinv Hj Hi) as Ht.
    destruct (tick clientId u (state j)) as [st out].
    injection Hstep as <-. by rewrite Hi in Ht.
  - (* EncodeResolved *)
    destruct j as [st iv [] on]; [|discriminate].
    injection Hstep as <-.
    apply (pool_inv_update p i _ _ [] Hinv Hj); simpl; try done.
    + by destruct Hok.
    + destruct Hok as [_ (_ & _ & _ & Hpr)]. simpl in Hpr. rewrite Hpr.
      unfold MAX_SIMULATED_PCT. lia.
    + by left.
  - (* EncodeRejected *)
    destruct j as [st iv [] on]; [|discriminate].
    destruct (processFile_catch clientId msg _) as [[j' result] out] eqn:Ec.
    injection Hstep as <-.
    destruct (processFile_catch_spec _ _ _ _ _ _ Ec)
      as (C1 & C2 & _ & _ & C5 & _ & _ & _ & _ & _ & _ & C12 & C13).
    simpl in Hidx, C1, C12, C13. rewrite Hidx in C1, C12, C13.
    apply (pool_inv_job_returned p i _ _ _ Hinv Hj); try done.
    + by left.
    + exists (progress_of i (sse p)), (progress_of i out).
      split; [done|]. split; [done|].
      destruct C13 as [-> | ->]; [by left|right]. split; [done|].
      exists (result_entry result). split; [apply elem_of_app; right; by left|].
      split; [done|]. simpl. rewrite C5. by eexists.
  - (* WriteResolved *)
    destruct j as [st iv [] on]; [discriminate|].
    destruct (processFile_return clientId _) as [result out] eqn:Er.
    injection Hstep as <-.
    destruct (processFile_return_spec _ _ _ _ Er)
      as (R1 & R2 & _ & _ & _ & R6 & R7).
    simpl in Hidx, R1, R2, R6, R7, Hle. rewrite Hidx in R1, R6, R7.
    apply (pool_inv_job_returned p i _ _ _ Hinv Hj); try done.
    + by right.
    + exists (progress_of i (sse p) ++ progress_of i out), [].
      split; [by rewrite app_nil_r|]. split; [|by left].
      destruct R7 as [-> | ->]; [by rewrite app_nil_r|].
      by apply nondecreasing_snoc.
  - (* WriteRejected *)
    destruct j as [st iv [] on]; [discriminate|].
    destruct (processFile_catch clientId msg _) as [[j' result] out] eqn:Ec.
    injection Hstep as <-.
    destruct (processFile_catch_spec _ _ _ _ _ _ Ec)
      as (C1 & C2 & _ & _ & C5 & _ & _ & _ & _ & _ & _ & C12 & C13).
    simpl in Hidx, C1, C12, C13. rewrite Hidx in C1, C12, C13.
    apply (pool_inv_job_returned p i _ _ _ Hinv Hj); try done.
    + by left.
    + exists (progress_of i (sse p)), (progress_of i out).
      split; [done|]. split; [done|].
      destruct C13 as [-> | ->]; [by left|right]. split; [done|].
      exists (result_entry result). split; [apply elem_of_app; right; by left|].
      split; [done|]. simpl. rewrite C5. by eexists.
  - (* WrapperRejected *)
    injection Hstep as <-.
    unfold job_rejected, set_jobs. pool_fields.
    apply pool_inv_startNext.
    apply (pool_inv_leave p i j _ _ [] Hinv Hj eq_refl (or_introl eq_refl)
                          (job_output_nil i)).
    exists (progress_of i (sse p)), []. simpl.
    split; [done|]. split; [done|by left].
Qed.

Lemma reaches_inv (evs : list Event) (p : Pool) :
  reaches evs p -> pool_inv p.
Proof.
  induction 1 as [|evs p e p' _ IH Hstep].
  - apply pool_inv_startNext, pool_inv_init.
  - by apply (pool_inv_step p p' e).
Qed.

(** ** Histories *)

Lemma exec_snoc (p : Pool) (evs : list Event) (e : Event) :
  exec p (evs ++ [e])
  = match exec p evs with Some p' => step p' e | None => None end.
Proof.
  revert p. induction evs as [|e' evs IH]; intros p; simpl.
  - by destruct (step p e).
  - destruct (step p e'); [apply IH|done].
Qed.

Lemma exec_app (p : Pool) (evs1 evs2 : list Event) :
  exec p (evs1 ++ evs2)
  = match exec p evs1 with Some p' => exec p' evs2 | None => None end.
Proof.
  revert p. induction evs1 as [|e' evs IH]; intros p; simpl; [done|].
  destruct (step p e'); [apply IH|done].
Qed.

Lemma exec_reaches (evs : list Event) (p : Pool) :
  exec (startNext init_pool) evs = Some p <-> reaches evs p.
Proof.
  split.
  - revert p. induction evs as [|e evs IH] using rev_ind; intros p.
    + intros [= <-]. constructor.
    + rewrite exec_snoc.
      destruct (exec (startNext init_pool) evs) as [q|]; [|done].
      intros Hstep. econstructor; [by apply IH|done].
  - induction 1 as [|evs p e p' _ IH Hstep]; [done|].
    by rewrite exec_snoc, IH.
Qed.

(** ** What [startNext] leaves alone *)

Lemma startLoop_frame (fuel : nat) (p : Pool) :
  let p' := startLoop fuel p in
  statesMeta p' = statesMeta p /\ results p' = results p
  /\ sse p' = sse p /\ resolved p' = resolved p
  /\ (idxPtr p <= idxPtr p')%nat
  /\ running p' = running p + Z.of_nat (idxPtr p' - idxPtr p)
  /\ (forall i, (i < idxPtr p)%nat -> jobs p' !! i = jobs p !! i)
  /\ (forall i, (idxPtr p <= i < idxPtr p')%nat -> is_Some (jobs p' !! i))
  /\ (forall i, (idxPtr p' <= i)%nat -> jobs p' !! i = jobs p !! i).
Proof.
  revert p. induction fuel as [|fuel IH]; intros p; simpl.
  { split_and!; try done; try lia. }
  destruct (files !! idxPtr p) as [f|] eqn:Hf.
  2:{ split_and!; try done; try lia. }
  destruct (lt_num (running p) CONCURRENCY) eqn:Hlt.
  2:{ split_and!; try done; try lia. }
  destruct (IH (launch f p)) as (A1 & A2 & A3 & A4 & A5 & A6 & A7 & A8 & A9).
  change (idxPtr (launch f p)) with (S (idxPtr p)) in *.
  change (running (launch f p)) with (running p + 1) in *.
  change (jobs (launch f p))
    with (<[idxPtr p := processFile_start f (idxPtr p)]> (jobs p)) in *.
  split_and!; try done; try lia.
  - intros i Hi. rewrite A7 by lia. rewrite lookup_insert_ne by lia. done.
  - intros i Hi. destruct (decide (i = idxPtr p)) as [->|Hne].
    + rewrite A7 by lia. rewrite lookup_insert_eq. by eexists.
    + apply A8. lia.
  - intros i Hi. rewrite A9 by lia. rewrite lookup_insert_ne by lia. done.
Qed.

Lemma startNext_frame (p : Pool) :
  let p' := startNext p in
  statesMeta p' = statesMeta p /\ results p' = results p
  /\ sse p' = sse p
  /\ (idxPtr p <= idxPtr p')%nat
  /\ running p' = running p + Z.of_nat (idxPtr p' - idxPtr p)
  /\ (forall i, (i < idxPtr p)%nat -> jobs p' !! i = jobs p !! i)
  /\ (forall i, (idxPtr p <= i < idxPtr p')%nat -> is_Some (jobs p' !! i))
  /\ (forall i, (idxPtr p' <= i)%nat -> jobs p' !! i = jobs p !! i).
Proof.
  unfold startNext. destruct (_ && _).
  - pool_fields. split_and!; try done; try lia.
  - destruct (startLoop_frame (length files - idxPtr p) p)
      as (A1 & A2 & A3 & A4 & A5 & A6 & A7 & A8 & A9).
    split_and!; done.
Qed.

Lemma startLoop_exit (fuel : nat) (p : Pool) :
  (length files - idxPtr p <= fuel)%nat ->
  (idxPtr (startLoop fuel p) < length files)%nat ->
  lt_num (running (startLoop fuel p)) CONCURRENCY = false.
Proof.
  revert p. induction fuel as [|fuel IH]; intros p Hfuel; simpl; [lia|].
  destruct (files !! idxPtr p) as [f|] eqn:Hf.
  2:{ apply lookup_ge_None in Hf. lia. }
  destruct (lt_num (running p) CONCURRENCY) eqn:Hlt; [|done].
  apply IH. simpl. lia.
Qed.

(** When [startNext] returns, the pool is saturated: a job is left to
    start only if the limit forbids it. *)
Lemma startNext_saturated (p : Pool) :
  (idxPtr (startNext p) < length files)%nat ->
  lt_num (running (startNext p)) CONCURRENCY = false.
Proof.
  unfold startNext. destruct (_ && _) eqn:E.
  - pool_fields. apply andb_true_iff in E as [E1 _].
    apply Nat.leb_le in E1. lia.
  - by apply startLoop_exit.
Qed.

(** When [startNext] returns with no live job, it has resolved the batch
    (provided the limit lets at least one job run). *)
Lemma startNext_quiescent (p : Pool) :
  running p = Z.of_nat (size (jobs p)) ->
  (forall i, is_Some (jobs p !! i) -> (i < idxPtr p)%nat) ->
  lt_num 0 CONCURRENCY = true ->
  jobs (startNext p) = ∅ ->
  resolved (startNext p) = true.
Proof.
  intros Hrun Hkeys Hlim Hempty.
  destruct (startNext_frame p) as (_ & _ & _ & A4 & A5 & A6 & A7 & A8).
  destruct (decide (size (jobs p) = 0%nat)) as [Hz|Hnz].
  - destruct (decide (idxPtr p < length files)%nat) as [Hlt|Hge].
    + pose proof (startNext_saturated p) as Hsat.
      destruct (decide (idxPtr p < idxPtr (startNext p))%nat) as [Hadm|Hno].
      * destruct (A7 (idxPtr p)) as [j Hj]; [lia|].
        rewrite Hempty in Hj. by rewrite lookup_empty in Hj.
      * assert (idxPtr (startNext p) = idxPtr p) as He by lia.
        rewrite He in Hsat, A5. rewrite A5, Hrun, Hz in Hsat.
        replace (Z.of_nat 0 + Z.of_nat (idxPtr p - idxPtr p)) with 0 in Hsat
          by lia.
        rewrite Hsat in Hlim by done. done.
    + unfold startNext. rewrite Hrun, Hz.
      replace (length files <=? idxPtr p)%nat with true; [done|].
      symmetry. apply Nat.leb_le. lia.
  - destruct (map_choose (jobs p)) as (i & j & Hj).
    { intros He. rewrite He in Hnz. by rewrite map_size_empty in Hnz. }
    rewrite <- A6 in Hj by (apply Hkeys; by eexists).
    rewrite Hempty in Hj. by rewrite lookup_empty in Hj.
Qed.

(** ** The shape of a step *)

Lemma step_tick_shape (p p' : Pool) (i : nat) (u : Q) :
  step p (Tick i u) = Some p' ->
  exists j, jobs p !! i = Some j /\ interval j = true
            /\ p' = set_jobs
                      (<[i := mkJob (fst (tick clientId u (state j)))
                                    (interval j) (phase j) (outName j)]>
                         (jobs p))
                      (snd (tick clientId u (state j))) p.
Proof.
  simpl. destruct (jobs p !! i) as [j|]; [|done].
  destruct (interval j) eqn:Hi; [|done].
  destruct (tick clientId u (state j)) as [st out] eqn:Et.
  intros [= <-]. exists j. by rewrite Et, Hi.
Qed.

Lemma step_encoded_shape (p p' : Pool) (i : nat) (len : N) (o : string) :
  step p (EncodeResolved i len o) = Some p' ->
  exists j, jobs p !! i = Some j /\ phase j = Encoding
            /\ p' = set_jobs
                      (<[i := processFile_finalize (Z.of_N len) o j]>
                         (jobs p)) [] p.
Proof.
  simpl. destruct (jobs p !! i) as [[st iv [] on]|]; try done.
  intros [= <-]. by eexists.
Qed.

Lemma step_return_shape (p p' : Pool) (e : Event) (i : nat) :
  pool_inv p ->
  step p e = Some p' ->
  returned [e] = [i] ->
  exists j result out m v,
    jobs p !! i = Some j
    /\ returns_at e i j result out
    /\ statesMeta p !! i = Some m
    /\ propagated_bytes result = Some v
    /\ p' = startNext
              (mkPool (<[i := Meta.set_processedBytes v m]> (statesMeta p))
                      (results p ++ [result_entry result])
                      (running p - 1) (idxPtr p) (delete i (jobs p))
                      (resolved p)
                      ((sse p ++ out)
                       ++ reportOverall
                            (<[i := Meta.set_processedBytes v m]>
                               (statesMeta p)))
                      (encodeCalls p)).
Proof.
  intros Hinv Hstep Hret.
  destruct e as [k u|k len o|k msg|k|k msg|k]; try done;
    injection Hret as ->; simpl in Hstep;
    destruct (jobs p !! i) as [j|] eqn:Hj; try done;
    destruct (statesMeta_lookup p i j Hinv Hj) as [m Hm].
  - destruct j as [st iv [] on]; [|done].
    destruct (processFile_catch clientId msg _) as [[j' result] out] eqn:Ec.
    injection Hstep as <-.
    destruct (processFile_catch_spec _ _ _ _ _ _ Ec)
      as (_ & _ & _ & _ & _ & C6 & _).
    eexists _, result, out, m, _. split; [done|].
    split; [simpl; eauto|]. split; [done|].
    unfold job_returned, propagated_bytes. rewrite C6.
    split; [done|]. unfold set_jobs at 1. pool_fields. by rewrite Hm.
  - destruct j as [st iv [] on]; [done|].
    destruct (processFile_return clientId _) as [result out] eqn:Er.
    injection Hstep as <-.
    destruct (processFile_return_spec _ _ _ _ Er)
      as (_ & _ & _ & _ & (st' & R5 & _) & _).
    eexists _, result, out, m, _. split; [done|].
    split; [simpl; eauto|]. split; [done|].
    unfold job_returned, propagated_bytes. rewrite R5.
    split; [done|]. unfold set_jobs at 1. pool_fields. by rewrite Hm.
  - destruct j as [st iv [] on]; [done|].
    destruct (processFile_catch clientId msg _) as [[j' result] out] eqn:Ec.
    injection Hstep as <-.
    destruct (processFile_catch_spec _ _ _ _ _ _ Ec)
      as (_ & _ & _ & _ & _ & C6 & _).
    eexists _, result, out, m, _. split; [done|].
    split; [simpl; eauto|]. split; [done|].
    unfold job_returned, propagated_bytes. rewrite C6.
    split; [done|]. unfold set_jobs at 1. pool_fields. by rewrite Hm.
Qed.

Lemma step_rejected_shape (p p' : Pool) (i : nat) :
  step p (WrapperRejected i) = Some p' ->
  exists j, jobs p !! i = Some j
            /\ p' = startNext
                      (mkPool (statesMeta p) (results p) (running p - 1)
                              (idxPtr p) (delete i (jobs p)) (resolved p)
                              (sse p ++ []) (encodeCalls p)).
Proof.
  simpl. destruct (jobs p !! i) as [j|]; [|done].
  intros [= <-]. by exists j.
Qed.

(** ** What a history records *)

Lemma leave_cover (p : Pool) (i k : nat) (ms : list Meta.t)
      (rs : list Result.t) (log : list SseEvent) :
  let p' := startNext (mkPool ms rs (running p - 1) (idxPtr p)
                              (delete i (jobs p)) (resolved p) log
                              (encodeCalls p)) in
  (k < idxPtr p')%nat -> jobs p' !! k = None ->
  k = i \/ ((k < idxPtr p)%nat /\ jobs p !! k = None).
Proof.
  intros p'.
  destruct (startNext_frame
              (mkPool ms rs (running p - 1) (idxPtr p) (delete i (jobs p))
                      (resolved p) log (encodeCalls p)))
    as (_ & _ & _ & A4 & _ & A6 & A7 & _).
  fold p' in A4, A6, A7. cbn [idxPtr jobs] in A4, A6, A7.
  intros Hk Hn.
  destruct (decide (k < idxPtr p)%nat) as [Hlt|Hge].
  - rewrite A6 in Hn by done. rewrite lookup_delete in Hn.
    case_decide; [by left|by right].
  - destruct (A7 k) as [j Hj]; [lia|]. congruence.
Qed.

Lemma reaches_history (evs : list Event) (p : Pool) :
  reaches evs p ->
  map Result.index (results p) = returned evs
  /\ (forall i, (i < idxPtr p)%nat -> jobs p !! i = None ->
                i ∈ returned evs \/ i ∈ rejected evs)
  /\ (forall i, failed_in (results p) i -> i ∈ failed evs).
Proof.
  induction 1 as [|evs p e p' Hr (IH1 & IH2 & IH3) Hstep].
  - destruct (startNext_frame init_pool) as (_ & A2 & _ & _ & _ & _ & A7 & _).
    split_and!.
    + by rewrite A2.
    + intros i Hi Hn. destruct (A7 i) as [j Hj]; [simpl; lia|]. congruence.
    + intros i (r & Hr & _). rewrite A2 in Hr. by apply elem_of_nil in Hr.
  - pose proof (reaches_inv evs p Hr) as Hinv.
    unfold returned, rejected, failed in *. rewrite !omap_app.
    destruct e as [i u|i len o|i msg|i|i msg|i].
    + apply step_tick_shape in Hstep as (j & Hj & _ & ->).
      unfold set_jobs; pool_fields; simpl; rewrite !app_nil_r.
      split_and!; try done.
      intros k Hk. rewrite lookup_insert. case_decide; [done|]. by apply IH2.
    + apply step_encoded_shape in Hstep as (j & Hj & _ & ->).
      unfold set_jobs; pool_fields; simpl; rewrite !app_nil_r.
      split_and!; try done.
      intros k Hk. rewrite lookup_insert. case_decide; [done|]. by apply IH2.
    + destruct (step_return_shape p p' _ i Hinv Hstep eq_refl)
        as (j & result & out & m & v & Hj & Hat & Hm & Hv & ->).
      destruct (inv_jobs p Hinv i j Hj) as (_ & Hidx & _).
      destruct Hat as (_ & _ & j' & Hc).
      destruct (processFile_catch_spec _ _ _ _ _ _ Hc) as (C1 & _).
      match goal with
      | |- context [startNext ?q] =>
          destruct (startNext_frame q) as (_ & A2 & _);
          pose proof (leave_cover p i) as Hcov
      end.
      rewrite A2. pool_fields. simpl. rewrite !app_nil_r.
      split_and!.
      * by rewrite map_app, IH1; simpl; rewrite C1, Hidx.
      * intros k Hk Hn. destruct (Hcov k _ _ _ Hk Hn) as [-> | [? ?]].
        -- left. apply elem_of_app. right. by left.
        -- destruct (IH2 k) as [?|?]; try done; [left|by right].
           apply elem_of_app. by left.
      * intros k (r & Hr' & Hri & He). apply elem_of_app.
        apply elem_of_app in Hr' as [Hr'|Hr'].
        -- left. apply IH3. by exists r.
        -- apply list_elem_of_singleton in Hr'. subst r. simpl in Hri.
           right. rewrite <- Hri, C1, Hidx. by left.
    + destruct (step_return_shape p p' _ i Hinv Hstep eq_refl)
        as (j & result & out & m & v & Hj & Hat & Hm & Hv & ->).
      destruct (inv_jobs p Hinv i j Hj) as (_ & Hidx & _).
      destruct Hat as (_ & _ & Hc).
      destruct (processFile_return_spec _ _ _ _ Hc) as (R1 & _ & _ & R4 & _).
      match goal with
      | |- context [startNext ?q] =>
          destruct (startNext_frame q) as (_ & A2 & _);
          pose proof (leave_cover p i) as Hcov
      end.
      rewrite A2. pool_fields. simpl. rewrite !app_nil_r.
      split_and!.
      * by rewrite map_app, IH1; simpl; rewrite R1, Hidx.
      * intros k Hk Hn. destruct (Hcov k _ _ _ Hk Hn) as [-> | [? ?]].
        -- left. apply elem_of_app. right. by left.
        -- destruct (IH2 k) as [?|?]; try done; [left|by right].
           apply elem_of_app. by left.
      * intros k (r & Hr' & Hri & He).
        apply elem_of_app in Hr' as [Hr'|Hr'].
        -- apply IH3. by exists r.
        -- apply list_elem_of_singleton in Hr'. subst r. simpl in He.
           rewrite R4 in He. by destruct He.
    + destruct (step_return_shape p p' _ i Hinv Hstep eq_refl)
        as (j & result & out & m & v & Hj & Hat & Hm & Hv & ->).
      destruct (inv_jobs p Hinv i j Hj) as (_ & Hidx & _).
      destruct Hat as (_ & _ & j' & Hc).
      destruct (processFile_catch_spec _ _ _ _ _ _ Hc) as (C1 & _).
      match goal with
      | |- context [startNext ?q] =>
          destruct (startNext_frame q) as (_ & A2 & _);
          pose proof (leave_cover p i) as Hcov
      end.
      rewrite A2. pool_fields. simpl. rewrite !app_nil_r.
      split_and!.
      * by rewrite map_app, IH1; simpl; rewrite C1, Hidx.
      * intros k Hk Hn. destruct (Hcov k _ _ _ Hk Hn) as [-> | [? ?]].
        -- left. apply elem_of_app. right. by left.
        -- destruct (IH2 k) as [?|?]; try done; [left|by right].
           apply elem_of_app. by left.
      * intros k (r & Hr' & Hri & He). apply elem_of_app.
        apply elem_of_app in Hr' as [Hr'|Hr'].
        -- left. apply IH3. by exists r.
        -- apply list_elem_of_singleton in Hr'. subst r. simpl in Hri.
           right. rewrite <- Hri, C1, Hidx. by left.
    + apply step_rejected_shape in Hstep as (j & Hj & ->).
      match goal with
      | |- context [startNext ?q] =>
          destruct (startNext_frame q) as (_ & A2 & _);
          pose proof (leave_cover p i) as Hcov
      end.
      rewrite A2. pool_fields. simpl. rewrite !app_nil_r.
      split_and!; try done.
      intros k Hk Hn. destruct (Hcov k _ _ _ Hk Hn) as [-> | [? ?]].
      * right. apply elem_of_app. right. by left.
      * destruct (IH2 k) as [?|?]; try done; [by left|right].
        apply elem_of_app. by left.
Qed.

(** ** Quiescence and completion *)

Lemma leave_quiescent (p : Pool) (i : nat) (j : Job) (ms : list Meta.t)
      (rs : list Result.t) (log : list SseEvent) :
  pool_inv p -> jobs p !! i = Some j ->
  let p' := startNext (mkPool ms rs (running p - 1) (idxPtr p)
                              (delete i (jobs p)) (resolved p) log
                              (encodeCalls p)) in
  lt_num 0 CONCURRENCY = true -> jobs p' = ∅ -> resolved p' = true.
Proof.
  intros Hinv Hj p'. apply startNext_quiescent; pool_fields.
  - rewrite map_size_delete_Some by (by eexists).
    rewrite (inv_running p Hinv).
    assert (size (jobs p) <> 0%nat); [|lia].
    intros Hz. apply map_size_empty_inv in Hz. by rewrite Hz in Hj.
  - intros k [jk Hk]. rewrite lookup_delete in Hk.
    case_decide; [done|]. by apply (inv_jobs p Hinv k jk).
Qed.

Lemma reaches_quiescent (evs : list Event) (p : Pool) :
  reaches evs p ->
  lt_num 0 CONCURRENCY = true -> jobs p = ∅ -> resolved p = true.
Proof.
  intros Hr. destruct Hr as [|evs p e p' Hr Hstep].
  - apply startNext_quiescent; simpl.
    + by rewrite map_size_empty.
    + intros i [j Hj]. by rewrite lookup_empty in Hj.
  - pose proof (reaches_inv evs p Hr) as Hinv.
    destruct e as [i u|i len o|i msg|i|i msg|i].
    + apply step_tick_shape in Hstep as (j & Hj & _ & ->).
      intros _ He. simpl in He. by apply insert_non_empty in He.
    + apply step_encoded_shape in Hstep as (j & Hj & _ & ->).
      intros _ He. simpl in He. by apply insert_non_empty in He.
    + destruct (step_return_shape p p' _ i Hinv Hstep eq_refl)
        as (j & result & out & m & v & Hj & _ & _ & _ & ->).
      by apply (leave_quiescent p i j).
    + destruct (step_return_shape p p' _ i Hinv Hstep eq_refl)
        as (j & result & out & m & v & Hj & _ & _ & _ & ->).
      by apply (leave_quiescent p i j).
    + destruct (step_return_shape p p' _ i Hinv Hstep eq_refl)
        as (j & result & out & m & v & Hj & _ & _ & _ & ->).
      by apply (leave_quiescent p i j).
    + apply step_rejected_shape in Hstep as (j & Hj & ->).
      by apply (leave_quiescent p i j).
Qed.

(** A live job proves that the limit lets a job run. *)
Lemma live_job_limit (p : Pool) (i : nat) (j : Job) :
  pool_inv p -> jobs p !! i = Some j -> lt_num 0 CONCURRENCY = true.
Proof.
  intros Hinv Hj.
  assert (size (jobs p) <> 0%nat) as Hsz.
  { intros Hz. apply map_size_empty_inv in Hz. by rewrite Hz in Hj. }
  pose proof (inv_running p Hinv) as Hrun.
  eapply lt_num_antitone; [|apply (inv_limit p Hinv)]; lia.
Qed.

Lemma leave_remaining (p : Pool) (i : nat) (j : Job) (ms : list Meta.t)
      (rs : list Result.t) (log : list SseEvent) :
  pool_inv p -> jobs p !! i = Some j ->
  let p' := startNext (mkPool ms rs (running p - 1) (idxPtr p)
                              (delete i (jobs p)) (resolved p) log
                              (encodeCalls p)) in
  pool_inv p' -> (remaining p' < remaining p)%nat.
Proof.
  intros Hinv Hj p' Hinv'.
  destruct (startNext_frame
              (mkPool ms rs (running p - 1) (idxPtr p) (delete i (jobs p))
                      (resolved p) log (encodeCalls p)))
    as (_ & _ & _ & A4 & A5 & _).
  fold p' in A4, A5. cbn [idxPtr running] in A4, A5.
  assert (size (jobs p) <> 0%nat) as Hsz.
  { intros Hz. apply map_size_empty_inv in Hz. by rewrite Hz in Hj. }
  pose proof (inv_running p Hinv) as Hrun.
  pose proof (inv_running p' Hinv') as Hrun'.
  pose proof (inv_idx p' Hinv') as Hidx'.
  unfold remaining. lia.
Qed.

(** Whatever job is live, its [processFile] can end, and that brings the
    batch closer to its end. *)
Lemma live_job_can_end (p : Pool) (i : nat) (j : Job) :
  pool_inv p -> jobs p !! i = Some j ->
  exists e p', step p e = Some p' /\ rejected [e] = []
               /\ (remaining p' < remaining p)%nat.
Proof.
  intros Hinv Hj.
  set (e := match phase j with
            | Encoding => EncodeRejected i ""
            | Writing => WriteRejected i ""
            end).
  assert (exists p', step p e = Some p') as [p' Hstep].
  { unfold e. destruct j as [st iv [] on]; simpl; rewrite Hj;
      destruct (processFile_catch _ _ _) as [[? ?] ?]; by eexists. }
  exists e, p'. split; [done|].
  assert (returned [e] = [i] /\ rejected [e] = []) as [He1 He2].
  { unfold e. by destruct (phase j). }
  split; [done|].
  pose proof (pool_inv_step p p' e Hinv Hstep) as Hinv'.
  destruct (step_return_shape p p' e i Hinv Hstep He1)
    as (j0 & result & out & m & v & Hj0 & _ & _ & _ & Hp').
  rewrite Hp' in Hinv' |- *. by apply (leave_remaining p i j).
Qed.

Lemma reaches_completes (n : nat) (evs : list Event) (p : Pool) :
  reaches evs p ->
  lt_num 0 CONCURRENCY = true ->
  (remaining p <= n)%nat ->
  exists evs' p', exec p evs' = Some p' /\ resolved p' = true
                  /\ rejected evs' = [].
Proof.
  revert evs p. induction n as [|n IH]; intros evs p Hr Hlim Hn.
  - exists [], p. split; [done|]. split; [|done].
    apply (reaches_quiescent evs p Hr Hlim).
    apply map_size_empty_inv. unfold remaining in Hn. lia.
  - destruct (decide (size (jobs p) = 0%nat)) as [Hz|Hnz].
    + exists [], p. split; [done|]. split; [|done].
      apply (reaches_quiescent evs p Hr Hlim).
      by apply map_size_empty_inv.
    + destruct (map_choose (jobs p)) as (i & j & Hj).
      { intros He. rewrite He in Hnz. by rewrite map_size_empty in Hnz. }
      destruct (live_job_can_end p i j (reaches_inv evs p Hr) Hj)
        as (e & p1 & Hstep & Hrej & Hlt).
      destruct (IH (evs ++ [e]) p1) as (evs' & p' & Hex & Hres & Hrej').
      { by econstructor. }
      { done. }
      { lia. }
      exists (e :: evs'), p'. split; [simpl; by rewrite Hstep|].
      split; [done|].
      change (e :: evs') with ([e] ++ evs').
      unfold rejected in *. by rewrite omap_app, Hrej, Hrej'.
Qed.

(** ** Without a session id nothing is pushed *)



(** ** The handler as a whole *)

Lemma compress_multi_accepted (evs : list Event) (out : Outcome) :
  files <> [] ->
  compress_multi evs = Some out ->
  exists p, reaches evs p
            /\ out = if resolved p then finish p
                     else mkOutcome None (sse p) (encodeCalls p).
Proof.
  intros Hf. unfold compress_multi.
  destruct (length files =? 0)%nat eqn:E.
  { apply Nat.eqb_eq in E. by destruct files. }
  destruct (exec (startNext init_pool) evs) as [p|] eqn:Hex; [|done].
  intros [= <-]. exists p. split; [by apply exec_reaches|done].
Qed.

Lemma compress_multi_rejected (evs : list Event) (out : Outcome) :
  files = [] ->
  compress_multi evs = Some out ->
  evs = [] /\ out = mkOutcome (Some (BadRequest no_files_message)) [] [].
Proof.
  intros Hf. unfold compress_multi. rewrite Hf. simpl.
  destruct evs; [|done]. by intros [= <-].
Qed.

(** C1 (as amended).  When the handler answers an accepted batch, the
    response is [{success: true, results}], and [results] lists the jobs
    whose [processFile] returned, once each, in the order in which they
    returned.  Every submitted file is either in that list or had its
    wrapper rejected; when no wrapper rejected, the indices of [results]
    are a permutation of [0 .. files.length - 1]. *)
Theorem batch_response_completion_order
        (evs : list Event) (out : Outcome) (resp : Response) :
  files <> [] ->
  compress_multi evs = Some out ->
  response out = Some resp ->
  exists rs,
    resp = Json true rs
    /\ map Result.index rs = returned evs
    /\ NoDup (map Result.index rs)
    /\ (forall i, (i < length files)%nat ->
                  i ∈ returned evs \/ i ∈ rejected evs)
    /\ (rejected evs = [] ->
        map Result.index rs ≡ₚ seq 0 (length files)).
Proof.
  intros Hf Hrun Hresp.
  destruct (compress_multi_accepted evs out Hf Hrun) as (p & Hr & ->).
  pose proof (reaches_inv evs p Hr) as Hinv.
  destruct (reaches_history evs p Hr) as (H1 & H2 & _).
  destruct (resolved p) eqn:Hres; [|done].
  destruct (inv_resolved p Hinv Hres) as [Hempty Hidx].
  simpl in Hresp. injection Hresp as <-.
  exists (results p).
  assert (forall i, (i < length files)%nat ->
                    i ∈ returned evs \/ i ∈ rejected evs) as Hcover.
  { intros i Hi. apply H2; [lia|]. by rewrite Hempty, lookup_empty. }
  split_and!; try done.
  - apply (inv_results_nodup p Hinv).
  - intros Hrej. apply NoDup_Permutation.
    + apply (inv_results_nodup p Hinv).
    + apply NoDup_seq.
    + intros i. rewrite elem_of_seq. split.
      * intros Hi. destruct (inv_results_idx p Hinv i Hi). lia.
      * intros [_ Hi]. destruct (Hcover i) as [Hin|Hin]; [lia| |].
        -- by rewrite H1.
        -- rewrite Hrej in Hin. by apply elem_of_nil in Hin.
Qed.





(** C3 (as amended).  When the promise of a job's wrapper rejects, the
    [.catch] handler releases the slot and calls [startNext]: no result is
    recorded for that job and nothing is pushed, the other live jobs are
    untouched, the next file (if any is left) is started at once, and the
    batch can still run to its end with every file started. *)
Theorem wrapper_rejection_is_survived
        (evs : list Event) (p p' : Pool) (i : nat) :
  exec (startNext init_pool) evs = Some p ->
  step p (WrapperRejected i) = Some p' ->
  results p' = results p
  /\ statesMeta p' = statesMeta p
  /\ sse p' = sse p
  /\ jobs p' !! i = None
  /\ (forall k jk, k <> i -> jobs p !! k = Some jk -> jobs p' !! k = Some jk)
  /\ ((idxPtr p < length files)%nat -> is_Some (jobs p' !! idxPtr p))
  /\ exists evs' p'',
      exec p' evs' = Some p'' /\ rejected evs' = []
      /\ resolved p'' = true /\ idxPtr p'' = length files /\ jobs p'' = ∅.
Proof.
  intros Hex Hstep. apply exec_reaches in Hex.
  pose proof (reaches_inv evs p Hex) as Hinv.
  pose proof (reaches_step evs p _ p' Hex Hstep) as Hr'.
  destruct (step_rejected_shape p p' i Hstep) as (j & Hj & Hp').
  destruct (inv_jobs p Hinv i j Hj) as (Hlt & _).
  pose proof (live_job_limit p i j Hinv Hj) as Hlim.
  pose proof (startNext_saturated
                (mkPool (statesMeta p) (results p) (running p - 1)
                        (idxPtr p) (delete i (jobs p)) (resolved p)
                        (sse p ++ []) (encodeCalls p))) as Hsat.
  destruct (startNext_frame
              (mkPool (statesMeta p) (results p) (running p - 1)
                      (idxPtr p) (delete i (jobs p)) (resolved p)
                      (sse p ++ []) (encodeCalls p)))
    as (A1 & A2 & A3 & A4 & A5 & A6 & A7 & A8).
  rewrite <- Hp' in Hsat, A1, A2, A3, A4, A5, A6, A7, A8.
  cbn [statesMeta results running idxPtr jobs sse] in Hsat, A1, A2, A3, A4,
    A5, A6, A7, A8.
  rewrite app_nil_r in A3.
  split_and!; try done.
  - rewrite A6 by done. apply lookup_delete_eq.
  - intros k jk Hk Hjk. destruct (inv_jobs p Hinv k jk Hjk) as (Hklt & _).
    rewrite A6 by done. by rewrite lookup_delete_ne.
  - intros Hleft. apply A7. split; [done|].
    destruct (decide (idxPtr p < idxPtr p')%nat) as [?|Hno]; [done|].
    assert (idxPtr p' = idxPtr p) as He by lia.
    rewrite He in Hsat, A5.
    replace (running p') with (running p - 1) in Hsat by lia.
    assert (size (jobs p) <> 0%nat) as Hsz.
    { intros Hz. apply map_size_empty_inv in Hz. by rewrite Hz in Hj. }
    pose proof (inv_running p Hinv) as Hrun.
    rewrite (inv_limit p Hinv) in Hsat by lia. by specialize (Hsat Hleft).
  - destruct (reaches_completes (remaining p') _ p' Hr' Hlim)
      as (evs' & p'' & Hex' & Hres & Hrej); [done|].
    exists evs', p''. split; [done|]. split; [done|]. split; [done|].
    assert (reaches ((evs ++ [WrapperRejected i]) ++ evs') p'') as Hr''.
    { apply exec_reaches. rewrite exec_app.
      by rewrite (proj2 (exec_reaches _ _) Hr'). }
    destruct (inv_resolved p'' (reaches_inv _ _ Hr'') Hres). done.
Qed.

(** C4 (as amended).  For every job, the progress values of its
    file-progress notifications never decrease while it runs and when it
    succeeds; the only possible exception is one last notification with
    progress 0, pushed when the job fails (its progress is reset). *)
Theorem file_progress_monotone_until_failure
        (evs : list Event) (out : Outcome) (i : nat) :
  compress_multi evs = Some out ->
  exists l t,
    progress_of i (pushed out) = l ++ t
    /\ nondecreasing l
    /\ (t = [] \/ (t = [0] /\ i ∈ failed evs)).
Proof.
  intros Hrun. destruct (decide (files = [])) as [Hf|Hf].
  { destruct (compress_multi_rejected evs out Hf Hrun) as [-> ->].
    exists [], []. split; [done|]. split; [apply nondecreasing_nil|by left]. }
  destruct (compress_multi_accepted evs out Hf Hrun) as (p & Hr & ->).
  pose proof (reaches_inv evs p Hr) as Hinv.
  destruct (reaches_history evs p Hr) as (_ & _ & H3).
  assert (progress_of i
            (pushed (if resolved p then finish p
                     else mkOutcome None (sse p) (encodeCalls p)))
          = progress_of i (sse p)) as ->.
  { destruct (resolved p); [|done]. simpl.
    rewrite !progress_of_app, !progress_of_sendSse_if by done.
    by rewrite !app_nil_r. }
  destruct (jobs p !! i) as [j|] eqn:Hj.
  - destruct (inv_log_live p Hinv i j Hj) as [Hmono _].
    exists (progress_of i (sse p)), [].
    split; [by rewrite app_nil_r|]. split; [done|by left].
  - destruct (decide (i < idxPtr p)%nat) as [Hlt|Hge].
    + destruct (inv_log_settled p Hinv i Hj Hlt) as (l & t & -> & Hl & Ht).
      exists l, t. split; [done|]. split; [done|].
      destruct Ht as [->|[-> Hfail]]; [by left|right]. split; [done|].
      by apply H3.
    + rewrite (inv_log_pending p Hinv i) by lia.
      exists [], []. split; [done|].
      split; [apply nondecreasing_nil|by left].
Qed.


(** ** Overall progress *)

Lemma returns_at_no_overall (e : Event) (i : nat) (j : Job)
      (result : FileResult.t) (out : list SseEvent) :
  returns_at e i j result out ->
  Forall (fun ev => is_overall ev = false) out.
Proof.
  assert (forall st, Forall (fun ev => is_overall ev = false)
                            (snd (reportIfNeeded clientId st))) as Hrep.
  { intros st. destruct (reportIfNeeded_out clientId st) as [-> | ->];
      repeat constructor. }
  assert (forall ev, is_overall ev = false ->
                     Forall (fun ev => is_overall ev = false)
                            (sendSse_if clientId ev)) as Hsend.
  { intros ev Hev. unfold sendSse_if.
    destruct (truthy clientId); repeat constructor; done. }
  intros Hat. destruct e as [k u|k len o|k msg|k|k msg|k]; try done;
    simpl in Hat.
  - destruct Hat as (_ & _ & j' & Hat). unfold processFile_catch in Hat.
    match type of Hat with
    | context [reportIfNeeded clientId ?s] =>
        pose proof (Hrep s) as Hs;
        destruct (reportIfNeeded clientId s) as [st1 out1]
    end.
    injection Hat as _ _ <-. apply Forall_app. split; [done|by apply Hsend].
  - destruct Hat as (_ & _ & Hat). unfold processFile_return in Hat.
    match type of Hat with
    | context [reportIfNeeded clientId ?s] =>
        pose proof (Hrep s) as Hs;
        destruct (reportIfNeeded clientId s) as [st1 out1]
    end.
    injection Hat as _ <-. apply Forall_app. split; [done|by apply Hsend].
  - destruct Hat as (_ & _ & j' & Hat). unfold processFile_catch in Hat.
    match type of Hat with
    | context [reportIfNeeded clientId ?s] =>
        pose proof (Hrep s) as Hs;
        destruct (reportIfNeeded clientId s) as [st1 out1]
    end.
    injection Hat as _ _ <-. apply Forall_app. split; [done|by apply Hsend].
Qed.



Lemma foldl_add_all_zero {A : Type} (g : A -> Z) (l : list A) (a : Z) :
  (forall x, x ∈ l -> g x = 0) -> foldl (fun s x => s + g x) a l = a.
Proof.
  revert a. induction l as [|x l IH]; intros a Hl; simpl; [done|].
  rewrite (Hl x) by (by left). rewrite Z.add_0_r.
  apply IH. intros y Hy. apply Hl. by right.
Qed.



(** ** The estimator *)

Lemma Math_round_mono (x y : Q) :
  (x <= y)%Q -> Math_round x <= Math_round y.
Proof.
  intros Hxy. unfold Math_round. apply Qfloor_resp_le.
  by apply Qplus_le_l.
Qed.


(** ** Failure *)


(** ** Quality *)

(** C10.  When the submission carries no [quality] field (or an empty
    one), the default 80 is what gets clamped, the quality of the batch is
    80, within [1, 100], and every job is started with encoder quality
    80. *)
Theorem default_quality_is_80 :
  truthy (body_quality req) = false ->
  Number_or (body_quality req) 80 = Fin 80
  /\ quality = Math_max (Fin 1) (Math_min (Fin 100) (Fin 80))
  /\ quality = Fin 80
  /\ encode_quality quality = Fin 80
  /\ forall evs out,
      compress_multi evs = Some out ->
      Forall (fun c => snd c = Fin 80) (encodes out).
Proof.
  intros Hq.
  assert (Number_or (body_quality req) 80 = Fin 80) as Hn.
  { unfold Number_or. destruct (body_quality req); [by rewrite Hq|done]. }
  assert (quality = Fin 80) as Hquality.
  { unfold quality. by rewrite Hn. }
  split; [done|]. split; [unfold quality; by rewrite Hn|].
  split; [done|]. split; [by rewrite Hquality|].
  intros evs out Hrun. destruct (decide (files = [])) as [Hf|Hf].
  {
    destruct (compress_multi_rejected evs out Hf Hrun) as [_ ->].
    constructor.
  }
  destruct (compress_multi_accepted evs out Hf Hrun) as (p & Hr & ->).
  assert (Forall (fun c => snd c = Fin 80) (encodeCalls p)) as Hall.
  { rewrite (inv_encodes p (reaches_inv evs p Hr)).
    apply Forall_fmap, Forall_forall. intros i _. simpl.
    by rewrite Hquality. }
  by destruct (resolved p).
Qed.

(** ** The limit *)

Lemma CONCURRENCY_at_least_1 (c : Z) : limit_is c CONCURRENCY -> 1 <= c.
Proof.
  unfold CONCURRENCY.
  destruct (Number_or env_CONCURRENCY 2) as [q| | |]; simpl; try done.
  - intros Hq. pose proof (Q.le_max_l 1 q) as Hle.
    rewrite Hq in Hle. unfold Qle in Hle; simpl in Hle; lia.
  - intros Hq. unfold Qeq in Hq; simpl in Hq; lia.
Qed.

Lemma running_within_limit (c : Z) (evs : list Event) (p : Pool) :
  limit_is c CONCURRENCY -> reaches evs p ->
  1 <= c /\ Z.of_nat (size (jobs p)) = running p /\ running p <= c.
Proof.
  intros Hc Hr. pose proof (reaches_inv evs p Hr) as Hinv.
  pose proof (CONCURRENCY_at_least_1 c Hc) as Hc1.
  pose proof (inv_running p Hinv) as Hrun.
  split; [done|]. split; [done|].
  destruct (decide (0 < running p)) as [Hpos|Hz]; [|lia].
  pose proof (inv_limit p Hinv Hpos) as Hlt.
  apply (lt_num_limit_is _ c) in Hlt; [lia|done].
Qed.

Lemma started_in_index_order (evs : list Event) (p : Pool) :
  reaches evs p ->
  map fst (encodeCalls p) = seq 0 (idxPtr p)
  /\ (forall i, is_Some (jobs p !! i) -> (i < idxPtr p)%nat)
  /\ (forall i, i ∈ map Result.index (results p) -> (i < idxPtr p)%nat).
Proof.
  intros Hr. pose proof (reaches_inv evs p Hr) as Hinv.
  split_and!.
  - rewrite (inv_encodes p Hinv), map_map. simpl. apply map_id.
  - intros i [j Hj]. by apply (inv_jobs p Hinv i j).
  - intros i Hi. by apply (inv_results_idx p Hinv i).
Qed.


(** ** What jobs and result entries carry *)

Lemma startLoop_jobs (fuel : nat) (p : Pool) (i : nat) (j : Job) :
  jobs (startLoop fuel p) !! i = Some j ->
  jobs p !! i = Some j
  \/ exists f, files !! i = Some f /\ j = processFile_start f i.
Proof.
  revert p. induction fuel as [|fuel IH]; intros p; simpl; [auto|].
  destruct (files !! idxPtr p) as [f|] eqn:Hf; [|auto].
  destruct (lt_num (running p) CONCURRENCY); [|auto].
  intros H. destruct (IH _ H) as [Hold|Hnew]; [|auto].
  change (jobs (launch f p))
    with (<[idxPtr p := processFile_start f (idxPtr p)]> (jobs p)) in Hold.
  apply lookup_insert_Some in Hold as [[<- <-]|[_ Hold]]; [|auto].
  right. eauto.
Qed.

Lemma startNext_jobs (p : Pool) (i : nat) (j : Job) :
  jobs (startNext p) !! i = Some j ->
  jobs p !! i = Some j
  \/ exists f, files !! i = Some f /\ j = processFile_start f i.
Proof.
  unfold startNext. destruct (_ && _); [auto|]. apply startLoop_jobs.
Qed.

Lemma job_track_start (f : File.t) (i : nat) :
  files !! i = Some f -> job_track i (processFile_start f i).
Proof.
  intros Hf. exists f. unfold processFile_start, MAX_SIMULATED_PCT. simpl.
  split_and!; auto; lia.
Qed.

Lemma pool_track_startNext (p : Pool) :
  pool_track p -> pool_track (startNext p).
Proof.
  intros [Hj Hr]. split.
  - intros i j H. destruct (startNext_jobs p i j H) as [Hold|(f & Hf & ->)].
    + apply Hj, Hold.
    + apply job_track_start, Hf.
  - destruct (startNext_frame p) as (_ & -> & _). exact Hr.
Qed.

Lemma newPct_nonneg (pb s : Z) : 0 <= pb -> 0 <= newPct pb s.
Proof.
  intros H. rewrite <- (newPct_0 s). apply newPct_mono, H.
Qed.

Lemma job_track_tick (u : Q) (i : nat) (j : Job) :
  job_ok j -> phase j = Encoding -> job_track i j ->
  job_track i (mkJob (fst (tick clientId u (state j))) (interval j)
                     (phase j) (outName j)).
Proof.
  intros Hok Hp (f & Hf & T1 & T2 & T3 & T4 & T5 & T6).
  pose proof Hok as [Hs Hj]. rewrite Hp in Hj, T6.
  destruct Hj as (Hi & Hc & Hpb & Hpr).
  pose proof (tick_inc_min (State.originalSize (state j)) u) as Hinc.
  exists f. simpl. rewrite Hp. unfold tick. rewrite Hc. simpl.
  match goal with
  | |- context [reportIfNeeded clientId ?s] =>
      pose proof (reportIfNeeded_state clientId s) as Hst
  end.
  simpl in Hst.
  destruct Hst as (H1 & H2 & H3 & H4 & H5 & H6 & H7 & H8 & H9 & H10).
  rewrite H1, H2, H3, H6, H8, H10.
  split_and!; auto.
  - assert (0 <= newPct (maxBeforeFinish (State.originalSize (state j))
                          `min` (State.processedBytes (state j)
                                 + tick_inc (State.originalSize (state j)) u))
                        (State.originalSize (state j))).
    { apply newPct_nonneg. lia. }
    unfold MAX_SIMULATED_PCT in *. lia.
  - unfold MAX_SIMULATED_PCT. lia.
Qed.

Lemma job_track_finalize (len : N) (o : string) (i : nat) (j : Job) :
  job_track i j -> job_track i (processFile_finalize (Z.of_N len) o j).
Proof.
  intros (f & Hf & T1 & T2 & T3 & T4 & T5 & _).
  exists f. simpl. split_and!; auto; try lia. exists len. auto.
Qed.

Lemma reportIfNeeded_fires (cid : option string) (st : State.t) :
  State.progress st <> State.lastReportedPct st ->
  reportIfNeeded cid st
  = (State.set_lastReported (State.progress st) (State.processedBytes st) st,
     sendSse_if cid
       (file_progress (State.index st) (State.originalName st)
                      (State.processedBytes st) (State.originalSize st)
                      (State.progress st))).
Proof.
  intros Hne. unfold reportIfNeeded. rewrite Math_round_Z.
  apply Z.eqb_neq in Hne. rewrite Hne. reflexivity.
Qed.

Lemma processFile_return_track (i : nat) (j : Job) :
  phase j = Writing -> job_track i j ->
  exists f (len : N),
    files !! i = Some f
    /\ State.processedBytes (state j) = Z.of_N len
    /\ processFile_return clientId j
       = (FileResult.mk i (originalName_of f i)
            (Some (Z.of_N (File.size f))) (Some (Z.of_N len))
            (Some ("/outputs/" +:+ outName j)) None
            (Some (State.set_lastReported 100 (Z.of_N len)
                     (State.set_outPath (Some ("/outputs/" +:+ outName j))
                                        (state j)))),
          sendSse_if clientId
            (file_progress i (originalName_of f i) (Z.of_N len)
                           (Z.of_N (File.size f)) 100)
          ++ sendSse_if clientId
               (file_done i (originalName_of f i)
                          (Some (Z.of_N (File.size f))) (Some (Z.of_N len))
                          (Some ("/outputs/" +:+ outName j)) None)).
Proof.
  intros Hp (f & Hf & T1 & T2 & T3 & T4 & T5 & T6). rewrite Hp in T6.
  destruct T6 as (len & L1 & L2 & L3).
  exists f, len. split; [exact Hf|]. split; [exact L2|].
  unfold processFile_return.
  rewrite reportIfNeeded_fires
    by (simpl; rewrite L3; unfold MAX_SIMULATED_PCT in T5; lia).
  simpl. rewrite T1, T2, T3, L1, L2, L3. reflexivity.
Qed.

Lemma result_track_return (i : nat) (j : Job) (result : FileResult.t)
      (out : list SseEvent) :
  phase j = Writing -> job_track i j ->
  processFile_return clientId j = (result, out) ->
  result_track (result_entry result).
Proof.
  intros Hp Ht Hr.
  destruct (processFile_return_track i j Hp Ht) as (f & len & Hf & _ & E).
  rewrite E in Hr. injection Hr as <- <-.
  exists f. unfold result_entry. simpl.
  split; [exact Hf|]. split; [reflexivity|].
  left. split_and!; eauto.
Qed.

Lemma result_track_catch (msg : string) (i : nat) (j j' : Job)
      (result : FileResult.t) (out : list SseEvent) :
  job_track i j ->
  processFile_catch clientId msg j = (j', result, out) ->
  result_track (result_entry result).
Proof.
  intros (f & Hf & T1 & T2 & T3 & T4 & T5 & T6).
  unfold processFile_catch.
  match goal with
  | |- context [reportIfNeeded clientId ?s] =>
      pose proof (reportIfNeeded_state clientId s) as Hst;
      destruct (reportIfNeeded clientId s) as [st1 out1]
  end.
  simpl in Hst.
  destruct Hst as (H1 & H2 & H3 & H4 & H5 & H6 & H7 & H8 & H9 & H10).
  intros [= <- <- <-].
  exists f. unfold result_entry. simpl. rewrite H1, H2, H8, T1, T2.
  split; [exact Hf|]. split; [reflexivity|].
  right. split_and!; eauto.
Qed.

Lemma pool_track_step (p p' : Pool) (e : Event) :
  pool_inv p -> pool_track p -> step p e = Some p' -> pool_track p'.
Proof.
  intros Hinv [Hj Hr] Hstep.
  destruct e as [i u|i len o|i msg|i|i msg|i].
  - destruct (step_tick_shape p p' i u Hstep) as (j & Hji & Hi & ->).
    destruct (inv_jobs p Hinv i j Hji) as (_ & _ & Hok & _).
    assert (Hp : phase j = Encoding).
    { destruct Hok as [_ Hok]. destruct (phase j); [reflexivity|].
      destruct Hok as [Hoff _]. congruence. }
    split; [|exact Hr]. intros k jk. unfold set_jobs. pool_fields.
    intros H. apply lookup_insert_Some in H as [[<- <-]|[_ H]]; [|auto].
    apply job_track_tick; auto.
  - destruct (step_encoded_shape p p' i len o Hstep) as (j & Hji & Hp & ->).
    split; [|exact Hr]. intros k jk. unfold set_jobs. pool_fields.
    intros H. apply lookup_insert_Some in H as [[<- <-]|[_ H]]; [|auto].
    apply job_track_finalize; auto.
  - destruct (step_return_shape p p' _ i Hinv Hstep eq_refl)
      as (j & result & out & m & v & Hji & Hret & _ & _ & ->).
    destruct Hret as (_ & _ & j' & Hc).
    apply pool_track_startNext. split; pool_fields.
    + intros k jk H. apply lookup_delete_Some in H as [_ H]. auto.
    + apply Forall_app. split; [exact Hr|]. constructor; [|constructor].
      eapply result_track_catch; [apply (Hj i j Hji)|exact Hc].
  - destruct (step_return_shape p p' _ i Hinv Hstep eq_refl)
      as (j & result & out & m & v & Hji & Hret & _ & _ & ->).
    destruct Hret as (_ & Hp & Hc).
    apply pool_track_startNext. split; pool_fields.
    + intros k jk H. apply lookup_delete_Some in H as [_ H]. auto.
    + apply Forall_app. split; [exact Hr|]. constructor; [|constructor].
      eapply result_track_return; [exact Hp|apply (Hj i j Hji)|exact Hc].
  - destruct (step_return_shape p p' _ i Hinv Hstep eq_refl)
      as (j & result & out & m & v & Hji & Hret & _ & _ & ->).
    destruct Hret as (_ & _ & j' & Hc).
    apply pool_track_startNext. split; pool_fields.
    + intros k jk H. apply lookup_delete_Some in H as [_ H]. auto.
    + apply Forall_app. split; [exact Hr|]. constructor; [|constructor].
      eapply result_track_catch; [apply (Hj i j Hji)|exact Hc].
  - destruct (step_rejected_shape p p' i Hstep) as (j & Hji & ->).
    apply pool_track_startNext. split; pool_fields; [|exact Hr].
    intros k jk H. apply lookup_delete_Some in H as [_ H]. auto.
Qed.

Lemma reaches_track (evs : list Event) (p : Pool) :
  reaches evs p -> pool_track p.
Proof.
  induction 1 as [|evs p e p' Hreach IH Hstep].
  - apply pool_track_startNext. split.
    + intros i j H. unfold init_pool in H. simpl in H.
      rewrite lookup_empty in H. discriminate.
    + constructor.
  - apply (pool_track_step p p' e); auto.
    apply (reaches_inv evs p Hreach).
Qed.

(** X16.  When the write of a job's output resolves, the job pushes a
    file-progress of 100 % whose processed bytes are the length of the
    encoded buffer, then its file-done, and the handler pushes one
    overall-progress; the entry appended to [results] carries the same
    index, name, sizes and output path as the file-done, with no error, and
    the length of the buffer is what the job now counts for in the overall
    progress. *)
Theorem successful_job_reports_completion
        (evs : list Event) (p p' : Pool) (i : nat) :
  truthy clientId = true ->
  reaches evs p ->
  step p (WriteResolved i) = Some p' ->
  exists f (len : N) (o : string),
    files !! i = Some f
    /\ sse p'
       = sse p
         ++ [file_progress i (originalName_of f i) (Z.of_N len)
                           (Z.of_N (File.size f)) 100;
             file_done i (originalName_of f i)
                       (Some (Z.of_N (File.size f))) (Some (Z.of_N len))
                       (Some ("/outputs/" +:+ o)) None]
         ++ reportOverall (statesMeta p')
    /\ results p'
       = results p
         ++ [Result.mk i (originalName_of f i)
                       (Some (Z.of_N (File.size f))) (Some (Z.of_N len))
                       (Some ("/outputs/" +:+ o)) None]
    /\ exists m, statesMeta p' !! i = Some m
                 /\ Meta.processedBytes m = Z.of_N len.
Proof.
  intros Hcid Hreach Hstep.
  pose proof (reaches_inv evs p Hreach) as Hinv.
  destruct (reaches_track evs p Hreach) as [Hj _].
  destruct (step_return_shape p p' _ i Hinv Hstep eq_refl)
    as (j & result & out & m & v & Hji & Hret & Hm & Hv & ->).
  destruct Hret as (_ & Hp & Hc).
  destruct (processFile_return_track i j Hp (Hj i j Hji))
    as (f & len & Hf & Hlen & E).
  rewrite E in Hc. injection Hc as <- <-.
  unfold propagated_bytes in Hv. simpl in Hv. injection Hv as <-.
  rewrite Hlen.
  unfold sendSse_if. rewrite Hcid.
  match goal with
  | |- context [startNext ?q] =>
      destruct (startNext_frame q) as (-> & -> & -> & _)
  end.
  pool_fields.
  exists f, len, (outName j). split_and!.
  - exact Hf.
  - rewrite <- !app_assoc. reflexivity.
  - reflexivity.
  - eexists. split.
    + apply list_lookup_insert_eq. eapply lookup_lt_Some, Hm.
    + reflexivity.
Qed.

Lemma foldl_add_ext {A : Type} (g h : A -> Z) (l : list A) (a : Z) :
  Forall (fun x => g x = h x) l ->
  foldl (fun s x => s + g x) a l = foldl (fun s x => s + h x) a l.
Proof.
  intros H. revert a. induction H as [|x l Hx _ IH]; intros a; [reflexivity|].
  simpl. rewrite Hx. apply IH.
Qed.

Lemma foldl_add_ge {A : Type} (g : A -> Z) (l : list A) (a : Z) :
  Forall (fun x => 0 <= g x) l -> a <= foldl (fun s x => s + g x) a l.
Proof.
  intros H. revert a. induction H as [|x l Hx _ IH]; intros a; simpl; [lia|].
  specialize (IH (a + g x)). lia.
Qed.

Lemma foldl_add_zeros {A : Type} (g : A -> Z) (l : list A) (a : Z) :
  Forall (fun x => g x = 0) l -> foldl (fun s x => s + g x) a l = a.
Proof.
  intros H. revert a. induction H as [|x l Hx _ IH]; intros a; simpl;
    [reflexivity|].
  rewrite Hx, Z.add_0_r. apply IH.
Qed.

(** X17.  The final overall-progress is computed from the entries of
    [results] alone: its totals add up the file sizes and the buffer
    lengths of the jobs that succeeded, a failed job counting for nothing
    in either, and its percentage lies between 0 and 100.  When every job
    of the batch failed it reads 0 bytes of 0, at 100 %. *)
Theorem final_overall_progress_counts_successes
        (evs : list Event) (out : Outcome) (rs : list Result.t) :
  truthy clientId = true ->
  files <> [] ->
  compress_multi evs = Some out ->
  response out = Some (Json true rs) ->
  exists l tp to pct,
    pushed out = l ++ [overall_progress tp to pct; done rs]
    /\ to = foldl (fun s r => s + if succeeded r
                                  then file_size_at (Result.index r) else 0)
                  0 rs
    /\ tp = foldl (fun s r => s + if succeeded r
                                  then default 0 (Result.compressedSize r)
                                  else 0)
                  0 rs
    /\ 0 <= tp /\ 0 <= to /\ 0 <= pct <= 100
    /\ (Forall (fun r => succeeded r = false) rs ->
        tp = 0 /\ to = 0 /\ pct = 100).
Proof.
  intros Hcid Hf Hrun Hresp.
  destruct (compress_multi_accepted evs out Hf Hrun) as (p & Hreach & ->).
  destruct (reaches_track evs p Hreach) as [_ Hr].
  destruct (resolved p); [|discriminate].
  simpl in Hresp. injection Hresp as <-.
  unfold finish. cbn [pushed]. unfold sendSse_if. rewrite Hcid.
  set (to := foldl (fun s r => s + default 0 (Result.originalSize r)) 0
                   (results p)).
  set (tp := foldl (fun s r => s + default 0 (Result.compressedSize r)) 0
                   (results p)).
  assert (Hto : to = foldl (fun s r => s + if succeeded r
                                           then file_size_at (Result.index r)
                                           else 0) 0 (results p)).
  { apply foldl_add_ext. eapply Forall_impl; [exact Hr|].
    intros r (f & Hfr & _ & [(He & Ho & _)|([msg He] & Ho & _)]);
      unfold succeeded, file_size_at; rewrite He, Ho; simpl;
      [rewrite Hfr|]; reflexivity. }
  assert (Htp : tp = foldl (fun s r => s + if succeeded r
                                           then default 0
                                                  (Result.compressedSize r)
                                           else 0) 0 (results p)).
  { apply foldl_add_ext. eapply Forall_impl; [exact Hr|].
    intros r (f & _ & _ & [(He & _)|([msg He] & _ & Hc & _)]);
      unfold succeeded; rewrite He; [reflexivity|].
    rewrite Hc. reflexivity. }
  assert (Hto0 : 0 <= to).
  { apply foldl_add_ge. eapply Forall_impl; [exact Hr|].
    intros r (f & _ & _ & [(_ & -> & _)|(_ & -> & _)]); simpl; lia. }
  assert (Htp0 : 0 <= tp).
  { apply foldl_add_ge. eapply Forall_impl; [exact Hr|].
    intros r (f & _ & _ & [(_ & _ & len & o & -> & _)|(_ & _ & -> & _)]);
      simpl; lia. }
  eexists (sse p), tp, to, _.
  split; [reflexivity|]. split; [exact Hto|]. split; [exact Htp|].
  split; [exact Htp0|]. split; [exact Hto0|]. split.
  - destruct (0 <? to) eqn:E; [|lia].
    assert (0 <= Math_round (inject_Z tp / inject_Z to * 100)); [|lia].
    rewrite <- (Math_round_Z 0). apply Math_round_mono.
    apply Z.ltb_lt in E.
    apply Qmult_le_0_compat; [|discriminate].
    apply Qle_shift_div_l.
    + unfold Qlt. simpl. lia.
    + rewrite Qmult_0_l. unfold Qle. simpl. lia.
  - intros Hall.
    assert (Ht0 : to = 0).
    { rewrite Hto. apply foldl_add_zeros. eapply Forall_impl; [exact Hall|].
      intros r ->. reflexivity. }
    assert (Hp0 : tp = 0).
    { rewrite Htp. apply foldl_add_zeros. eapply Forall_impl; [exact Hall|].
      intros r ->. reflexivity. }
    rewrite Ht0, Hp0. auto.
Qed.

(** ** One job at a time *)

Lemma sole_job (p : Pool) (i k : nat) (j jk : Job) :
  (size (jobs p) <= 1)%nat ->
  jobs p !! i = Some j -> jobs p !! k = Some jk -> k = i.
Proof.
  intros Hsz Hi Hk. destruct (decide (k = i)) as [|Hne]; [assumption|].
  exfalso.
  rewrite <- (insert_delete_id (jobs p) i j Hi) in Hsz.
  rewrite map_size_insert_None in Hsz by apply lookup_delete_eq.
  assert (Hz : size (delete i (jobs p)) = 0%nat) by lia.
  apply map_size_empty_inv in Hz.
  assert (Hd : delete i (jobs p) !! k = Some jk)
    by (rewrite lookup_delete_ne by congruence; exact Hk).
  rewrite Hz, lookup_empty in Hd. discriminate.
Qed.

Lemma seq_sorted (a n : nat) : StronglySorted lt (seq a n).
Proof.
  revert a. induction n as [|n IH]; intros a; simpl; constructor.
  - apply IH.
  - apply Forall_forall. intros x Hx. apply elem_of_seq in Hx. lia.
Qed.

Lemma reaches_sequential (evs : list Event) (p : Pool) :
  limit_is 1 CONCURRENCY -> reaches evs p ->
  (forall r i, r ∈ results p -> is_Some (jobs p !! i) ->
               (Result.index r < i)%nat)
  /\ StronglySorted lt (map Result.index (results p)).
Proof.
  intros Hlim. induction 1 as [|evs p e p' Hreach [IH1 IH2] Hstep].
  - destruct (startNext_frame init_pool) as (_ & -> & _).
    split; [|constructor].
    intros r i Hr. apply elem_of_nil in Hr. contradiction.
  - pose proof (reaches_inv evs p Hreach) as Hinv.
    destruct (running_within_limit 1 evs p Hlim Hreach) as (_ & Hsz & Hle).
    assert (Hone : (size (jobs p) <= 1)%nat) by lia.
    assert (Hleave :
      forall i j rs',
        jobs p !! i = Some j ->
        (forall r, r ∈ rs' -> r ∈ results p \/ Result.index r = i) ->
        forall q, results q = rs' -> jobs q = delete i (jobs p) ->
                  idxPtr q = idxPtr p ->
                  forall r k, r ∈ results (startNext q) ->
                              is_Some (jobs (startNext q) !! k) ->
                              (Result.index r < k)%nat).
    { intros i j rs' Hji Hrs q Hq1 Hq2 Hq3 r k Hr [jk Hk].
      destruct (startNext_frame q) as (_ & A2 & _ & _ & _ & A6 & _).
      rewrite A2, Hq1 in Hr.
      destruct (inv_jobs p Hinv i j Hji) as (Hlt & _).
      assert (Hidx : (Result.index r < idxPtr p)%nat).
      { destruct (Hrs r Hr) as [Hold| ->]; [|exact Hlt].
        apply (inv_results_idx p Hinv).
        apply list_elem_of_fmap. eauto. }
      destruct (decide (k < idxPtr q)%nat) as [Hold|Hnew]; [|lia].
      rewrite (A6 k Hold), Hq2 in Hk.
      apply lookup_delete_Some in Hk as [Hne Hk].
      pose proof (sole_job p i k j jk Hone Hji Hk). congruence. }
    destruct e as [i u|i len o|i msg|i|i msg|i].
    + destruct (step_tick_shape p p' i u Hstep) as (j & Hji & _ & ->).
      unfold set_jobs. pool_fields. split; [|exact IH2].
      intros r k Hr [jk Hk]. apply IH1; [exact Hr|].
      apply lookup_insert_Some in Hk as [[<- _]|[_ Hk]]; eauto.
    + destruct (step_encoded_shape p p' i len o Hstep) as (j & Hji & _ & ->).
      unfold set_jobs. pool_fields. split; [|exact IH2].
      intros r k Hr [jk Hk]. apply IH1; [exact Hr|].
      apply lookup_insert_Some in Hk as [[<- _]|[_ Hk]]; eauto.
    + destruct (step_return_shape p p' _ i Hinv Hstep eq_refl)
        as (j & result & out & m & v & Hji & Hret & _ & _ & ->).
      destruct Hret as (_ & _ & j' & Hc).
      destruct (processFile_catch_spec _ _ _ _ _ _ Hc) as (C1 & _).
      destruct (inv_jobs p Hinv i j Hji) as (_ & Hidx & _).
      rewrite Hidx in C1. split.
      * eapply (Hleave i j); [exact Hji| |reflexivity..].
        intros r Hr. apply elem_of_app in Hr as [Hr|Hr]; [auto|].
        apply list_elem_of_singleton in Hr as ->. right. exact C1.
      * match goal with
        | |- context [startNext ?q] =>
            destruct (startNext_frame q) as (_ & -> & _)
        end.
        pool_fields. rewrite map_app. apply StronglySorted_app_2.
        -- intros x1 x2 Hx1 Hx2. simpl in Hx2.
           apply list_elem_of_singleton in Hx2 as ->.
           apply list_elem_of_fmap in Hx1 as (r & -> & Hr).
           unfold result_entry. simpl. rewrite C1. apply IH1; eauto.
        -- exact IH2.
        -- repeat constructor.
    + destruct (step_return_shape p p' _ i Hinv Hstep eq_refl)
        as (j & result & out & m & v & Hji & Hret & _ & _ & ->).
      destruct Hret as (_ & _ & Hc).
      destruct (processFile_return_spec _ _ _ _ Hc) as (C1 & _).
      destruct (inv_jobs p Hinv i j Hji) as (_ & Hidx & _).
      rewrite Hidx in C1. split.
      * eapply (Hleave i j); [exact Hji| |reflexivity..].
        intros r Hr. apply elem_of_app in Hr as [Hr|Hr]; [auto|].
        apply list_elem_of_singleton in Hr as ->. right. exact C1.
      * match goal with
        | |- context [startNext ?q] =>
            destruct (startNext_frame q) as (_ & -> & _)
        end.
        pool_fields. rewrite map_app. apply StronglySorted_app_2.
        -- intros x1 x2 Hx1 Hx2. simpl in Hx2.
           apply list_elem_of_singleton in Hx2 as ->.
           apply list_elem_of_fmap in Hx1 as (r & -> & Hr).
           unfold result_entry. simpl. rewrite C1. apply IH1; eauto.
        -- exact IH2.
        -- repeat constructor.
    + destruct (step_return_shape p p' _ i Hinv Hstep eq_refl)
        as (j & result & out & m & v & Hji & Hret & _ & _ & ->).
      destruct Hret as (_ & _ & j' & Hc).
      destruct (processFile_catch_spec _ _ _ _ _ _ Hc) as (C1 & _).
      destruct (inv_jobs p Hinv i j Hji) as (_ & Hidx & _).
      rewrite Hidx in C1. split.
      * eapply (Hleave i j); [exact Hji| |reflexivity..].
        intros r Hr. apply elem_of_app in Hr as [Hr|Hr]; [auto|].
        apply list_elem_of_singleton in Hr as ->. right. exact C1.
      * match goal with
        | |- context [startNext ?q] =>
            destruct (startNext_frame q) as (_ & -> & _)
        end.
        pool_fields. rewrite map_app. apply StronglySorted_app_2.
        -- intros x1 x2 Hx1 Hx2. simpl in Hx2.
           apply list_elem_of_singleton in Hx2 as ->.
           apply list_elem_of_fmap in Hx1 as (r & -> & Hr).
           unfold result_entry. simpl. rewrite C1. apply IH1; eauto.
        -- exact IH2.
        -- repeat constructor.
    + destruct (step_rejected_shape p p' i Hstep) as (j & Hji & ->).
      split.
      * eapply (Hleave i j); [exact Hji| |reflexivity..]. auto.
      * match goal with
        | |- context [startNext ?q] =>
            destruct (startNext_frame q) as (_ & -> & _)
        end.
        exact IH2.
Qed.

(** X18.  When the limit in force is 1 the jobs run one after the other:
    the entries of the response are in increasing order of index, and when
    no wrapper rejected they are the jobs [0 .. files.length - 1] in that
    order. *)
Theorem sequential_batch_answers_in_index_order
        (evs : list Event) (out : Outcome) (rs : list Result.t) :
  limit_is 1 CONCURRENCY ->
  files <> [] ->
  compress_multi evs = Some out ->
  response out = Some (Json true rs) ->
  StronglySorted lt (map Result.index rs)
  /\ (rejected evs = [] -> map Result.index rs = seq 0 (length files)).
Proof.
  intros Hlim Hf Hrun Hresp.
  destruct (compress_multi_accepted evs out Hf Hrun) as (p & Hreach & ->).
  pose proof (reaches_inv evs p Hreach) as Hinv.
  destruct (reaches_sequential evs p Hlim Hreach) as [_ Hsorted].
  destruct (reaches_history evs p Hreach) as (H1 & H2 & _).
  destruct (resolved p) eqn:Hres; [|discriminate].
  simpl in Hresp. injection Hresp as <-.
  split; [exact Hsorted|]. intros Hrej.
  destruct (inv_resolved p Hinv Hres) as [Hempty Hidx].
  apply (StronglySorted_unique_strong lt).
  - intros x1 x2 _ _ Ha Hb. lia.
  - exact Hsorted.
  - apply seq_sorted.
  - apply NoDup_Permutation.
    + apply (inv_results_nodup p Hinv).
    + apply NoDup_seq.
    + intros i. rewrite elem_of_seq. split.
      * intros Hi. destruct (inv_results_idx p Hinv i Hi). lia.
      * intros [_ Hi]. destruct (H2 i) as [Hin|Hin].
        -- lia.
        -- rewrite Hempty. apply lookup_empty.
        -- rewrite H1. exact Hin.
        -- rewrite Hrej in Hin. apply elem_of_nil in Hin. contradiction.
Qed.

(** ** The overall progress never goes back *)

Lemma foldl_add_shift {A : Type} (g : A -> Z) (l : list A) (a c : Z) :
  foldl (fun s x => s + g x) (a + c) l = foldl (fun s x => s + g x) a l + c.
Proof.
  revert a. induction l as [|x l IH]; intros a; simpl; [reflexivity|].
  replace (a + c + g x) with (a + g x + c) by lia. apply IH.
Qed.

Lemma foldl_add_insert {A : Type} (g : A -> Z) (l : list A) (i : nat)
      (x y : A) (a : Z) :
  l !! i = Some x ->
  foldl (fun s z => s + g z) a (<[i := y]> l)
  = foldl (fun s z => s + g z) a l - g x + g y.
Proof.
  revert i a. induction l as [|z l IH]; intros [|i] a H; simpl in *;
    try discriminate.
  - injection H as ->.
    replace (a + g y) with (a + g x + (g y - g x)) by lia.
    rewrite foldl_add_shift. lia.
  - apply IH, H.
Qed.

Lemma foldl_add_snoc {A : Type} (g : A -> Z) (l : list A) (x : A) (a : Z) :
  foldl (fun s z => s + g z) a (l ++ [x])
  = foldl (fun s z => s + g z) a l + g x.
Proof. rewrite foldl_app. reflexivity. Qed.

(** Distinct positions of a list of sizes, each counted for at most its
    size, add up to at most the total. *)
Lemma sum_at_distinct {A : Type} (idx : A -> nat) (c : A -> Z) (l : list A) :
  forall sizes : list Z,
    Forall (fun x => 0 <= x) sizes ->
    NoDup (map idx l) ->
    Forall (fun r => c r <= default 0 (sizes !! idx r)) l ->
    foldl (fun s r => s + c r) 0 l <= foldl (fun s x => s + x) 0 sizes.
Proof.
  induction l as [|r l IH]; intros sizes Hpos Hnd Hc; simpl.
  - apply (foldl_add_ge (fun x => x)). exact Hpos.
  - simpl in Hnd. apply NoDup_cons in Hnd as [Hr Hnd].
    apply Forall_cons in Hc as [Hcr Hc].
    rewrite <- (Z.add_comm (c r)), (Z.add_comm (c r) 0), foldl_add_shift.
    assert (Hrest : foldl (fun s r0 => s + c r0) 0 l
                    <= foldl (fun s x => s + x) 0 (<[idx r := 0]> sizes)).
    { apply IH; [|exact Hnd|].
      - apply Forall_insert; [exact Hpos|lia].
      - apply Forall_forall. intros r' Hr'.
        rewrite list_lookup_insert_ne.
        + rewrite Forall_forall in Hc. apply Hc, Hr'.
        + intros E. apply Hr. rewrite E.
          apply list_elem_of_fmap. eauto. }
    destruct (sizes !! idx r) as [x|] eqn:Hx; simpl in Hcr.
    + rewrite (foldl_add_insert (fun x => x) sizes (idx r) x 0 0 Hx) in Hrest.
      lia.
    + rewrite list_insert_ge in Hrest by (apply lookup_ge_None; exact Hx).
      lia.
Qed.

Lemma overallPct_bounds (tp to : Z) :
  0 <= tp -> 0 <= overallPct tp to <= 100.
Proof.
  intros Htp. unfold overallPct. destruct (0 <? to) eqn:E; [|lia].
  apply Z.ltb_lt in E.
  assert (0 <= Math_round (inject_Z tp / inject_Z to * 100)); [|lia].
  rewrite <- (Math_round_Z 0). apply Math_round_mono.
  apply Qmult_le_0_compat; [|discriminate].
  apply Qle_shift_div_l.
  - unfold Qlt. simpl. lia.
  - rewrite Qmult_0_l. unfold Qle. simpl. lia.
Qed.

Lemma ratio_le (a b c d : Z) :
  0 < b -> 0 < d -> a * d <= c * b ->
  (inject_Z a / inject_Z b * 100 <= inject_Z c / inject_Z d * 100)%Q.
Proof.
  intros Hb Hd H. apply Qmult_le_compat_r; [|discriminate].
  apply Qle_shift_div_l; [unfold Qlt; simpl; lia|].
  unfold Qdiv. rewrite <- Qmult_assoc, (Qmult_comm (/ inject_Z b)),
    Qmult_assoc.
  apply Qle_shift_div_r; [unfold Qlt; simpl; lia|].
  rewrite <- !inject_Z_mult. rewrite <- Zle_Qle. exact H.
Qed.

Lemma overallPct_mono (tp tp' to : Z) :
  tp <= tp' -> overallPct tp to <= overallPct tp' to.
Proof.
  intros H. unfold overallPct. destruct (0 <? to) eqn:E; [|lia].
  apply Z.ltb_lt in E. apply Z.min_le_compat_l, Math_round_mono.
  apply ratio_le; nia.
Qed.

(** The percentage of the final report, computed over a smaller total, is
    not below the one [reportOverall] would give. *)
Lemma overallPct_final (tp to T : Z) :
  0 <= tp -> to <= T ->
  overallPct tp T
  <= (if 0 <? to
      then Z.min 100 (Math_round (inject_Z tp / inject_Z to * 100))
      else 100).
Proof.
  intros Htp Hle. pose proof (overallPct_bounds tp T Htp) as Hb.
  destruct (0 <? to) eqn:E; [|lia]. apply Z.ltb_lt in E.
  unfold overallPct. rewrite (proj2 (Z.ltb_lt 0 T)) by lia.
  apply Z.min_le_compat_l, Math_round_mono. apply ratio_le; nia.
Qed.

Lemma overall_pcts_app (l1 l2 : list SseEvent) :
  overall_pcts (l1 ++ l2) = overall_pcts l1 ++ overall_pcts l2.
Proof. apply omap_app. Qed.

Lemma overall_pcts_none (l : list SseEvent) :
  Forall (fun ev => is_overall ev = false) l -> overall_pcts l = [].
Proof.
  induction 1 as [|ev l Hev _ IH]; [reflexivity|].
  change (ev :: l) with ([ev] ++ l). rewrite overall_pcts_app, IH.
  destruct ev; try reflexivity. discriminate.
Qed.

Lemma overall_pcts_tick (cid : option string) (u : Q) (st : State.t) :
  overall_pcts (snd (tick cid u st)) = [].
Proof.
  unfold tick. destruct (negb (State.isCompressing st)); [reflexivity|].
  match goal with
  | |- context [reportIfNeeded cid ?s] =>
      destruct (reportIfNeeded_out cid s) as [-> | ->]
  end; reflexivity.
Qed.

Lemma pool_overall_startNext (p : Pool) :
  pool_overall p -> pool_overall (startNext p).
Proof.
  unfold pool_overall.
  destruct (startNext_frame p) as (-> & -> & -> & _). auto.
Qed.

Lemma pool_overall_return (p : Pool) (i : nat) (j : Job) (m : Meta.t)
      (v : Z) (result : FileResult.t) (out : list SseEvent) :
  pool_inv p -> pool_overall p ->
  jobs p !! i = Some j -> statesMeta p !! i = Some m ->
  0 <= v -> v = default 0 (FileResult.compressedSize result) ->
  FileResult.index result = i ->
  Forall (fun ev => is_overall ev = false) out ->
  sum_originalSize (<[i := Meta.set_processedBytes v m]> (statesMeta p))
  = sum_originalSize init_statesMeta ->
  pool_overall
    (mkPool (<[i := Meta.set_processedBytes v m]> (statesMeta p))
            (results p ++ [result_entry result])
            (running p - 1) (idxPtr p) (delete i (jobs p)) (resolved p)
            ((sse p ++ out)
             ++ reportOverall
                  (<[i := Meta.set_processedBytes v m]> (statesMeta p)))
            (encodeCalls p)).
Proof.
  intros Hinv (I1 & I2 & I3 & I4 & I5) Hji Hm Hv Hvc Hidx Hout HT.
  assert (Hfresh : i ∉ map Result.index (results p)).
  { intros Hin. destruct (inv_results_idx p Hinv i Hin) as [_ Hnone].
    congruence. }
  assert (Hm0 : Meta.processedBytes m = 0) by (apply (I1 i m Hm Hfresh)).
  assert (Hsum : sum_processedBytes
                   (<[i := Meta.set_processedBytes v m]> (statesMeta p))
                 = sum_processedBytes (statesMeta p) + v).
  { unfold sum_processedBytes.
    rewrite (foldl_add_insert Meta.processedBytes _ i m _ 0 Hm).
    simpl. lia. }
  unfold pool_overall. pool_fields. rewrite Hsum.
  assert (Hpcts : overall_pcts
                    ((sse p ++ out)
                     ++ reportOverall
                          (<[i := Meta.set_processedBytes v m]>
                             (statesMeta p)))
                  = overall_pcts (sse p)
                    \/ overall_pcts
                         ((sse p ++ out)
                          ++ reportOverall
                               (<[i := Meta.set_processedBytes v m]>
                                  (statesMeta p)))
                       = overall_pcts (sse p)
                         ++ [overallPct (sum_processedBytes (statesMeta p) + v)
                                        (sum_originalSize init_statesMeta)]).
  { rewrite !overall_pcts_app, (overall_pcts_none out Hout), app_nil_r.
    unfold reportOverall, sendSse_if. rewrite Hsum, HT.
    destruct (truthy clientId); simpl; [right|left; rewrite app_nil_r];
      reflexivity. }
  assert (Hmono : overallPct (sum_processedBytes (statesMeta p))
                             (sum_originalSize init_statesMeta)
                  <= overallPct (sum_processedBytes (statesMeta p) + v)
                                (sum_originalSize init_statesMeta))
    by (apply overallPct_mono; lia).
  split_and!.
  - intros k mk Hk Hnot.
    assert (Hki : k <> i).
    { intros ->. apply Hnot. rewrite map_app. apply elem_of_app. right.
      simpl. rewrite Hidx. left. }
    rewrite list_lookup_insert_ne in Hk by congruence.
    apply (I1 k mk Hk). intros Hin. apply Hnot.
    rewrite map_app. apply elem_of_app. left. exact Hin.
  - rewrite foldl_add_snoc, <- I2. simpl. rewrite Hvc. reflexivity.
  - lia.
  - destruct Hpcts as [-> | ->]; [exact I4|].
    apply nondecreasing_snoc; [exact I4|].
    eapply Forall_impl; [exact I5|]. simpl. intros x [_ Hx]. lia.
  - destruct Hpcts as [-> | ->].
    + eapply Forall_impl; [exact I5|]. simpl. intros x [H0 Hx]. lia.
    + apply Forall_app. split.
      * eapply Forall_impl; [exact I5|]. simpl. intros x [H0 Hx]. lia.
      * constructor; [|constructor].
        pose proof (overallPct_bounds (sum_processedBytes (statesMeta p) + v)
                      (sum_originalSize init_statesMeta)). lia.
Qed.

Lemma pool_overall_step (p p' : Pool) (e : Event) :
  pool_inv p -> pool_track p -> pool_overall p ->
  step p e = Some p' -> pool_overall p'.
Proof.
  intros Hinv [Hj _] Hov Hstep.
  pose proof (pool_inv_step p p' e Hinv Hstep) as Hinv'.
  assert (Hret :
    forall i j m v result out,
      jobs p !! i = Some j -> statesMeta p !! i = Some m ->
      0 <= v -> v = default 0 (FileResult.compressedSize result) ->
      FileResult.index result = i ->
      Forall (fun ev => is_overall ev = false) out ->
      p' = startNext
             (mkPool (<[i := Meta.set_processedBytes v m]> (statesMeta p))
                     (results p ++ [result_entry result])
                     (running p - 1) (idxPtr p) (delete i (jobs p))
                     (resolved p)
                     ((sse p ++ out)
                      ++ reportOverall
                           (<[i := Meta.set_processedBytes v m]>
                              (statesMeta p)))
                     (encodeCalls p)) ->
      pool_overall p').
  { intros i j m v result out Hji Hm Hv Hvc Hidx Hout Hp'.
    pose proof (sum_originalSize_inv p' Hinv') as HT.
    rewrite Hp' in HT |- *.
    match type of HT with
    | context [startNext ?q] =>
        destruct (startNext_frame q) as (A1 & _); rewrite A1 in HT
    end.
    apply pool_overall_startNext.
    apply (pool_overall_return p i j m v result out); assumption. }
  destruct e as [i u|i len o|i msg|i|i msg|i].
  - destruct (step_tick_shape p p' i u Hstep) as (j & _ & _ & ->).
    unfold pool_overall, set_jobs. pool_fields.
    rewrite overall_pcts_app, overall_pcts_tick, app_nil_r. exact Hov.
  - destruct (step_encoded_shape p p' i len o Hstep) as (j & _ & _ & ->).
    unfold pool_overall, set_jobs. pool_fields.
    rewrite app_nil_r. exact Hov.
  - destruct (step_return_shape p p' _ i Hinv Hstep eq_refl)
      as (j & result & out & m & v & Hji & Hat & Hm & Hv & Hp').
    pose proof (returns_at_no_overall _ _ _ _ _ Hat) as Hout.
    destruct Hat as (_ & _ & j' & Hc).
    destruct (processFile_catch_spec _ _ _ _ _ _ Hc)
      as (C1 & _ & C3 & _ & _ & C6 & _ & _ & C9 & _).
    destruct (inv_jobs p Hinv i j Hji) as (_ & Hidx & _).
    unfold propagated_bytes in Hv. rewrite C6, C9 in Hv. injection Hv as <-.
    apply (Hret i j m 0 result out); auto; try lia;
      try (rewrite C3; reflexivity); congruence.
  - destruct (step_return_shape p p' _ i Hinv Hstep eq_refl)
      as (j & result & out & m & v & Hji & Hat & Hm & Hv & Hp').
    pose proof (returns_at_no_overall _ _ _ _ _ Hat) as Hout.
    destruct Hat as (_ & Hp & Hc).
    destruct (processFile_return_track i j Hp (Hj i j Hji))
      as (f & len & Hf & Hlen & E).
    rewrite E in Hc. injection Hc as <- <-.
    unfold propagated_bytes in Hv. simpl in Hv. injection Hv as <-.
    rewrite Hlen in Hp'.
    refine (Hret i j m (Z.of_N len) _ _ Hji Hm _ _ _ _ Hp');
      [lia|reflexivity|reflexivity|exact Hout].
  - destruct (step_return_shape p p' _ i Hinv Hstep eq_refl)
      as (j & result & out & m & v & Hji & Hat & Hm & Hv & Hp').
    pose proof (returns_at_no_overall _ _ _ _ _ Hat) as Hout.
    destruct Hat as (_ & _ & j' & Hc).
    destruct (processFile_catch_spec _ _ _ _ _ _ Hc)
      as (C1 & _ & C3 & _ & _ & C6 & _ & _ & C9 & _).
    destruct (inv_jobs p Hinv i j Hji) as (_ & Hidx & _).
    unfold propagated_bytes in Hv. rewrite C6, C9 in Hv. injection Hv as <-.
    apply (Hret i j m 0 result out); auto; try lia;
      try (rewrite C3; reflexivity); congruence.
  - destruct (step_rejected_shape p p' i Hstep) as (j & _ & ->).
    apply pool_overall_startNext.
    unfold pool_overall. pool_fields. rewrite app_nil_r. exact Hov.
Qed.

Lemma sum_processedBytes_init : sum_processedBytes init_statesMeta = 0.
Proof.
  unfold sum_processedBytes, init_statesMeta.
  apply foldl_add_all_zero. intros m Hm.
  apply list_elem_of_lookup_1 in Hm as [i Hi].
  apply list_lookup_imap_Some in Hi as (f & _ & ->). reflexivity.
Qed.

Lemma reaches_overall (evs : list Event) (p : Pool) :
  reaches evs p -> pool_overall p.
Proof.
  induction 1 as [|evs p e p' Hreach IH Hstep].
  - apply pool_overall_startNext. unfold pool_overall, init_pool.
    pool_fields. rewrite sum_processedBytes_init. split_and!.
    + intros i m Hi _.
      apply list_lookup_imap_Some in Hi as (f & _ & ->). reflexivity.
    + reflexivity.
    + lia.
    + apply nondecreasing_nil.
    + constructor.
  - apply (pool_overall_step p p' e); auto.
    + apply (reaches_inv evs p Hreach).
    + apply (reaches_track evs p Hreach).
Qed.

Lemma results_original_le (p : Pool) :
  pool_inv p ->
  foldl (fun s r => s + default 0 (Result.originalSize r)) 0 (results p)
  <= sum_originalSize init_statesMeta.
Proof.
  intros Hinv. rewrite sum_originalSize_fmap, init_statesMeta_sizes.
  apply (sum_at_distinct Result.index
           (fun r => default 0 (Result.originalSize r))).
  - apply Forall_fmap, Forall_forall. intros f _. simpl. lia.
  - apply (inv_results_nodup p Hinv).
  - apply Forall_forall. intros r Hr.
    change (map (fun f => Z.of_N (File.size f)) files)
      with ((fun f => Z.of_N (File.size f)) <$> files).
    rewrite list_lookup_fmap.
    destruct (inv_results_size p Hinv r Hr) as [E | (f & Hf & E)]; rewrite E.
    + destruct (files !! Result.index r); simpl; lia.
    + rewrite Hf. simpl. lia.
Qed.

(** X20.  The percentages of the overall-progress notifications of a batch
    never go back, the final one included, and all lie between 0 and
    100. *)
Theorem overall_progress_never_decreases
        (evs : list Event) (out : Outcome) :
  files <> [] ->
  compress_multi evs = Some out ->
  nondecreasing (overall_pcts (pushed out))
  /\ Forall (fun x => 0 <= x <= 100) (overall_pcts (pushed out)).
Proof.
  intros Hf Hrun.
  destruct (compress_multi_accepted evs out Hf Hrun) as (p & Hreach & ->).
  pose proof (reaches_inv evs p Hreach) as Hinv.
  destruct (reaches_overall evs p Hreach) as (_ & I2 & I3 & I4 & I5).
  assert (Hold : Forall (fun x => 0 <= x <= 100) (overall_pcts (sse p))).
  { eapply Forall_impl; [exact I5|]. simpl. intros x [H0 Hx].
    pose proof (overallPct_bounds (sum_processedBytes (statesMeta p))
                  (sum_originalSize init_statesMeta) I3). lia. }
  destruct (resolved p); [|split; assumption].
  unfold finish. cbn [pushed].
  rewrite !overall_pcts_app.
  replace (overall_pcts (sendSse_if clientId (done (results p)))) with (@nil Z)
    by (unfold sendSse_if; destruct (truthy clientId); reflexivity).
  rewrite app_nil_r. unfold sendSse_if.
  destruct (truthy clientId); [|rewrite app_nil_r; split; assumption].
  cbn [overall_pcts omap]. simpl.
  rewrite <- I2.
  pose proof (overallPct_final (sum_processedBytes (statesMeta p)) _ _ I3
                (results_original_le p Hinv)) as Hfin.
  pose proof (overallPct_bounds (sum_processedBytes (statesMeta p))
                (sum_originalSize init_statesMeta) I3) as Hb.
  match goal with
  | |- nondecreasing (_ ++ [?x]) /\ _ => assert (Hx : 0 <= x <= 100)
  end.
  { split; [lia|]. destruct (0 <? _); lia. }
  split.
  - apply nondecreasing_snoc; [exact I4|].
    eapply Forall_impl; [exact I5|]. simpl. intros x [_ Hle]. lia.
  - apply Forall_app. split; [exact Hold|]. constructor; [exact Hx|constructor].
Qed.
End Server.

(** ** The concurrency limit, for every configuration *)

(** C7.  Whenever the limit in force is an integer [c], [c] is at least 1
    and at every point of every run the number of live jobs equals
    [running] and is at most [c]; a configured value below 1 yields the
    limit 1, so that the configurations "0" and "1" give the same handler;
    and jobs are started in index order: the jobs started so far are
    exactly [0 .. idxPtr - 1], in that order, every live or finished job
    being among them. *)
Theorem concurrency_limit_respected
        (Number : string -> JsNum) (env : option string) (req : Request) :
  (forall c evs p,
      limit_is c (CONCURRENCY Number env) ->
      exec Number env req (startNext Number env req (init_pool req)) evs
      = Some p ->
      1 <= c /\ Z.of_nat (size (jobs p)) = running p /\ running p <= c)
  /\ (forall s q,
         truthy (Some s) = true -> Number s = Fin q -> (q < 1)%Q ->
         CONCURRENCY Number (Some s) = Fin 1)
  /\ (Number "0" = Fin 0 -> Number "1" = Fin 1 ->
      CONCURRENCY Number (Some "0") = CONCURRENCY Number (Some "1")
      /\ forall evs,
          compress_multi Number (Some "0") req evs
          = compress_multi Number (Some "1") req evs)
  /\ (forall evs p,
         exec Number env req (startNext Number env req (init_pool req)) evs
         = Some p ->
         map fst (encodeCalls p) = seq 0 (idxPtr p)
         /\ (forall i, is_Some (jobs p !! i) -> (i < idxPtr p)%nat)
         /\ (forall i, i ∈ map Result.index (results p) ->
                       (i < idxPtr p)%nat)).
Proof.
  split_and!.
  - intros c evs p Hc Hex. apply exec_reaches in Hex.
    by apply (running_within_limit Number env req c evs p).
  - intros s q Hs Hn Hq. unfold CONCURRENCY, Number_or. rewrite Hs, Hn.
    simpl. f_equal. unfold Qmax, GenericMinMax.gmax.
    apply Qlt_alt in Hq. apply Qgt_alt in Hq. by rewrite Hq.
  - intros H0 H1.
    assert (CONCURRENCY Number (Some "0") = CONCURRENCY Number (Some "1")) as He.
    { unfold CONCURRENCY, Number_or. simpl. by rewrite H0, H1. }
    split; [done|]. intros evs.
    unfold compress_multi, exec, step, job_returned, job_continue,
      job_rejected, startNext, startLoop.
    by rewrite He.
  - intros evs p Hex. apply exec_reaches in Hex.
    by apply (started_in_index_order Number env req evs p).
Qed.

(** ** Examples: the theorems at concrete submissions *)

(** Provide the value of an optional computation as existential witness. *)
Ltac exists_value t :=
  let r := eval vm_compute in t in
  match r with
  | Some ?v => exists v
  end.

Lemma batch_response_completion_order_witness :
  exists out resp,
    files req_two <> []
    /\ compress_multi Number_decimal None req_two evs_two_reversed = Some out
    /\ response out = Some resp
    /\ exists rs,
        resp = Json true rs
        /\ map Result.index rs = returned evs_two_reversed
        /\ NoDup (map Result.index rs)
        /\ (forall i, (i < length (files req_two))%nat ->
                      i ∈ returned evs_two_reversed
                      \/ i ∈ rejected evs_two_reversed)
        /\ (rejected evs_two_reversed = [] ->
            map Result.index rs ≡ₚ seq 0 (length (files req_two))).
Proof.
  exists_value (compress_multi Number_decimal None req_two evs_two_reversed).
  eexists.
  assert (files req_two <> []) as Hf by done.
  match goal with
  | |- _ /\ ?R /\ _ => assert R as Hrun by (vm_compute; reflexivity)
  end.
  split; [exact Hf|]. split; [exact Hrun|]. split; [reflexivity|].
  exact (batch_response_completion_order Number_decimal None req_two
           evs_two_reversed _ _ Hf Hrun eq_refl).
Defined.

(** C1, counterexample: with two files and the default limit 2, job 1
    finishes first and the response lists it first: the results are in
    completion order, not in index order. *)
Lemma batch_response_not_in_index_order :
  exists out rs,
    compress_multi Number_decimal None req_two evs_two_reversed = Some out
    /\ response out = Some (Json true rs)
    /\ map Result.index rs = [1; 0]%nat
    /\ map Result.index rs <> seq 0 (length (req_files req_two)).
Proof.
  exists_value (compress_multi Number_decimal None req_two evs_two_reversed).
  eexists. split; [vm_compute; reflexivity|].
  split; [reflexivity|]. split; [reflexivity|]. discriminate.
Qed.



Lemma wrapper_rejection_is_survived_witness :
  exists p p',
    exec Number_decimal None req_two
         (startNext Number_decimal None req_two (init_pool req_two)) []
    = Some p
    /\ step Number_decimal None req_two p (WrapperRejected 0) = Some p'
    /\ results p' = results p
    /\ sse p' = sse p
    /\ jobs p' !! 0%nat = None.
Proof.
  exists_value
    (exec Number_decimal None req_two
          (startNext Number_decimal None req_two (init_pool req_two)) []).
  match goal with
  | |- exists p', _ /\ step ?a ?b ?c ?p ?e = _ /\ _ =>
      exists_value (step a b c p e)
  end.
  match goal with
  | |- ?A /\ ?B /\ _ =>
      assert A as Hex by (vm_compute; reflexivity);
      assert B as Hstep by (vm_compute; reflexivity)
  end.
  split; [exact Hex|]. split; [exact Hstep|].
  destruct (wrapper_rejection_is_survived Number_decimal None req_two [] _ _ 0%nat
              Hex Hstep) as (H1 & _ & H3 & H4 & _).
  exact (conj H1 (conj H3 H4)).
Defined.

(** C3, counterexample: the wrapper of the only job rejects; the batch
    ends and the response holds no entry for that job: no failed outcome
    has been recorded. *)
Lemma wrapper_rejection_records_no_outcome :
  exists out,
    compress_multi Number_decimal None req_one evs_wrapper_rejected = Some out
    /\ response out = Some (Json true [])
    /\ pushed out = [overall_progress 0 0 100; done []].
Proof.
  exists_value
    (compress_multi Number_decimal None req_one evs_wrapper_rejected).
  split; [vm_compute; reflexivity|]. split; reflexivity.
Qed.

Lemma file_progress_monotone_until_failure_witness :
  exists out,
    compress_multi Number_decimal None req_one evs_tick_then_fail = Some out
    /\ exists l t,
        progress_of 0 (pushed out) = l ++ t
        /\ nondecreasing l
        /\ (t = [] \/ (t = [0] /\ 0%nat ∈ failed evs_tick_then_fail)).
Proof.
  exists_value (compress_multi Number_decimal None req_one evs_tick_then_fail).
  match goal with
  | |- ?A /\ _ => assert A as Hrun by (vm_compute; reflexivity)
  end.
  split; [exact Hrun|].
  exact (file_progress_monotone_until_failure Number_decimal None req_one
           evs_tick_then_fail _ 0%nat Hrun).
Defined.

(** C4, counterexample: a job reports 3% on a tick and then fails; its
    last file-progress notification reports 0, lower than the earlier
    one. *)
Lemma file_progress_drops_on_failure :
  exists out,
    compress_multi Number_decimal None req_one evs_tick_then_fail = Some out
    /\ progress_of 0 (pushed out) = [3; 0]
    /\ ~ nondecreasing (progress_of 0 (pushed out)).
Proof.
  exists_value (compress_multi Number_decimal None req_one evs_tick_then_fail).
  split; [vm_compute; reflexivity|]. split; [reflexivity|].
  intros H. specialize (H 0%nat 1%nat 3 0). simpl in H.
  assert (3 <= 0) by (apply H; [lia|reflexivity|reflexivity]). lia.
Qed.





Lemma concurrency_limit_respected_witness :
  exists p,
    limit_is 2 (CONCURRENCY Number_decimal None)
    /\ exec Number_decimal None req_three
            (startNext Number_decimal None req_three (init_pool req_three)) []
       = Some p
    /\ 1 <= 2 /\ Z.of_nat (size (jobs p)) = running p /\ running p <= 2.
Proof.
  exists_value
    (exec Number_decimal None req_three
          (startNext Number_decimal None req_three (init_pool req_three)) []).
  assert (limit_is 2 (CONCURRENCY Number_decimal None)) as Hc by reflexivity.
  match goal with
  | |- _ /\ ?A /\ _ => assert A as Hex by (vm_compute; reflexivity)
  end.
  split; [exact Hc|]. split; [exact Hex|].
  exact (proj1 (concurrency_limit_respected Number_decimal None req_three)
               2 [] _ Hc Hex).
Defined.




Lemma default_quality_is_80_witness :
  truthy (body_quality req_one) = false
  /\ quality Number_decimal req_one = Fin 80
  /\ encode_quality (quality Number_decimal req_one) = Fin 80.
Proof.
  split; [reflexivity|].
  destruct (default_quality_is_80 Number_decimal None req_one eq_refl)
    as (_ & _ & Q3 & Q4 & _).
  exact (conj Q3 Q4).
Defined.

(** ** Output names *)

Lemma string_forall_app (P : Ascii.ascii -> bool) (s1 s2 : string) :
  string_forall P (s1 +:+ s2) = string_forall P s1 && string_forall P s2.
Proof.
  induction s1 as [|c s1 IH]; simpl; [done|].
  by rewrite IH, andb_assoc.
Qed.

Lemma string_forall_impl (P Q : Ascii.ascii -> bool) (s : string) :
  (forall c, P c = true -> Q c = true) ->
  string_forall P s = true -> string_forall Q s = true.
Proof.
  intros HPQ. induction s as [|c s IH]; simpl; [done|].
  intros [Hc Hs]%andb_true_iff. apply andb_true_iff. auto.
Qed.

Lemma pretty_N_char_digit (x : N) : is_digit (pretty_N_char x) = true.
Proof. unfold pretty_N_char. by repeat case_match. Qed.

Lemma pretty_N_go_digits (x : N) (s : string) :
  string_forall is_digit s = true ->
  string_forall is_digit (pretty_N_go x s) = true.
Proof.
  revert s. induction (N.lt_wf_0 x) as [x _ IH]; intros s Hs.
  assert (x = 0 \/ 0 < x)%N as [->|Hx] by lia.
  - by rewrite pretty_N_go_0.
  - rewrite pretty_N_go_step by done. apply IH.
    + by apply N.div_lt.
    + simpl. by rewrite pretty_N_char_digit, Hs.
Qed.

Lemma pretty_N_digits (x : N) : string_forall is_digit (pretty x) = true.
Proof.
  unfold pretty, pretty_N. case_decide; [done|].
  by apply pretty_N_go_digits.
Qed.

Lemma pretty_nat_digits (n : nat) : string_forall is_digit (pretty n) = true.
Proof. apply pretty_N_digits. Qed.

Lemma is_digit_safe (c : Ascii.ascii) : is_digit c = true -> is_safe_char c = true.
Proof.
  unfold is_digit, is_safe_char. intros ->.
  by rewrite !orb_true_r.
Qed.

Lemma pretty_Z_safe (z : Z) : string_forall is_safe_char (pretty z) = true.
Proof.
  assert (forall n : N, string_forall is_safe_char (pretty n) = true) as HN.
  { intros n. eapply string_forall_impl; [apply is_digit_safe|].
    apply pretty_N_digits. }
  destruct z as [|p|p]; [done|apply HN|].
  change (pretty (Z.neg p)) with ("-" +:+ pretty (N.pos p)).
  rewrite string_forall_app. by rewrite HN.
Qed.

Lemma safeName_safe (s : string) : string_forall is_safe_char (safeName s) = true.
Proof.
  induction s as [|c s IH]; simpl; [done|].
  apply andb_true_iff. split; [|done].
  by destruct (is_safe_char c) eqn:E.
Qed.

Lemma extension_match_Some (s b : string) :
  extension_match s = Some b ->
  exists e,
    s = b +:+ String dot e /\ e <> ""
    /\ string_forall
         (fun x => negb (Ascii.eqb x slash) && negb (Ascii.eqb x dot)) e
       = true.
Proof.
  revert b. induction s as [|c s IH]; intros b; simpl; [done|].
  destruct (extension_match s) as [b'|].
  - intros [= <-]. destruct (IH b' eq_refl) as (e & -> & He & Hf).
    by exists e.
  - destruct (Ascii.eqb c dot) eqn:Ec; simpl; [|done].
    destruct (String.eqb s "") eqn:Es; simpl; [done|].
    destruct (string_forall _ s) eqn:Ef; [|done].
    intros [= <-]. apply Ascii.eqb_eq in Ec as ->.
    exists s. split; [done|]. split; [|done].
    intros ->. by rewrite String.eqb_refl in Es.
Qed.

Lemma strip_extension_safe (s : string) :
  string_forall is_safe_char s = true ->
  string_forall is_safe_char (strip_extension s) = true.
Proof.
  unfold strip_extension. destruct (extension_match s) as [b|] eqn:E; [|done].
  destruct (extension_match_Some s b E) as (e & -> & _).
  rewrite string_forall_app. by intros [? _]%andb_true_iff.
Qed.

(** X1.  Whatever the uploaded file is called and whatever the clock
    says, the name under which the output is written is made of letters,
    digits, dots, dashes and underscores only; in particular it contains
    no slash and no backslash, so the file lands directly in the outputs
    directory. *)
Theorem outName_has_only_safe_characters (now : Z) (f : File.t) (idx : nat) :
  string_forall is_safe_char (outName_of now f idx) = true
  /\ string_forall
       (fun c => negb (Ascii.eqb c slash) && negb (Ascii.eqb c backslash))
       (outName_of now f idx) = true.
Proof.
  assert (string_forall is_safe_char (outName_of now f idx) = true) as Hsafe.
  { unfold outName_of. rewrite !string_forall_app.
    rewrite pretty_Z_safe.
    rewrite (string_forall_impl _ _ _ is_digit_safe (pretty_nat_digits idx)).
    rewrite (strip_extension_safe _ (safeName_safe _)). done. }
  split; [done|].
  eapply string_forall_impl; [|exact Hsafe].
  intros c Hc. destruct (Ascii.eqb c slash) eqn:E1.
  { apply Ascii.eqb_eq in E1. subst c. by vm_compute in Hc. }
  destruct (Ascii.eqb c backslash) eqn:E2; [|done].
  apply Ascii.eqb_eq in E2. subst c. by vm_compute in Hc.
Qed.



Lemma extension_match_no_dot (s : string) :
  string_forall (fun c => negb (Ascii.eqb c dot)) s = true ->
  extension_match s = None.
Proof.
  induction s as [|c s IH]; simpl; [done|].
  intros [Hc Hs]%andb_true_iff. rewrite (IH Hs).
  by destruct (Ascii.eqb c dot).
Qed.

Lemma strip_extension_last (b e : string) :
  e <> "" ->
  string_forall (fun x => negb (Ascii.eqb x slash) && negb (Ascii.eqb x dot)) e
  = true ->
  strip_extension (b +:+ String dot e) = b.
Proof.
  intros He Hf. unfold strip_extension.
  assert (extension_match (String dot e) = Some "") as H0.
  { simpl. rewrite extension_match_no_dot.
    - rewrite Hf. destruct e; [done|]. done.
    - eapply string_forall_impl; [|exact Hf].
      intros c [_ ?]%andb_true_iff. done. }
  induction b as [|c b IH]; simpl in *.
  - by rewrite H0.
  - destruct (extension_match (b +:+ String dot e)) as [b'|] eqn:E.
    + simpl in IH. by rewrite IH.
    + simpl in IH. clear IH. exfalso.
      clear c. induction b as [|c b IH]; simpl in E; [by rewrite H0 in E|].
      destruct (extension_match (b +:+ String dot e)); [done|]. by apply IH.
Qed.

Lemma safeName_id (s : string) :
  string_forall is_safe_char s = true -> safeName s = s.
Proof.
  unfold safeName. induction s as [|c s IH]; simpl; [done|].
  intros [Hc Hs]%andb_true_iff. by rewrite Hc, (IH Hs).
Qed.

Lemma safe_extension_chars (ext : string) :
  string_forall is_safe_char ext = true ->
  string_forall (fun c => negb (Ascii.eqb c dot)) ext = true ->
  string_forall (fun x => negb (Ascii.eqb x slash) && negb (Ascii.eqb x dot)) ext
  = true.
Proof.
  induction ext as [|c e IH]; simpl; [done|].
  intros [Hc He]%andb_true_iff [Hc' Hd]%andb_true_iff.
  rewrite Hc', (IH He Hd).
  destruct (Ascii.eqb c slash) eqn:E; [|done].
  apply Ascii.eqb_eq in E. subst c. by vm_compute in Hc.
Qed.

(** X3.  An upload whose name is a base of safe characters followed by
    one extension (.png, .webp, ...) is stored under
    [<now>_<index>_<base>.jpg]: the base is kept as it is and the
    extension is replaced. *)
Theorem outName_replaces_extension
        (now : Z) (f : File.t) (idx : nat) (base ext : string) :
  File.originalname f = Some (base +:+ String dot ext) ->
  string_forall is_safe_char base = true ->
  string_forall is_safe_char ext = true ->
  string_forall (fun c => negb (Ascii.eqb c dot)) ext = true ->
  ext <> "" ->
  outName_of now f idx
  = pretty now +:+ "_" +:+ pretty idx +:+ "_" +:+ base +:+ ".jpg".
Proof.
  intros Hn Hb He Hd Hne. unfold outName_of.
  assert (originalName_of f idx = base +:+ String dot ext) as ->.
  { assert (truthy (Some (base +:+ String dot ext)) = true) as Ht.
    { simpl. by destruct base. }
    unfold originalName_of, or_else. rewrite Hn, Ht. by rewrite Ht. }
  rewrite safeName_id.
  2:{ rewrite string_forall_app. simpl. by rewrite Hb, He. }
  rewrite strip_extension_last; [done|done|].
  by apply safe_extension_chars.
Qed.

Lemma outName_replaces_extension_witness :
  outName_of 1700000000000 (File.mk (Some "photo.png") None 5) 3
  = "1700000000000_3_photo.jpg".
Proof.
  exact (outName_replaces_extension 1700000000000
           (File.mk (Some "photo.png") None 5) 3 "photo" "png"
           eq_refl eq_refl eq_refl eq_refl ltac:(discriminate)).
Defined.


(** ** The RGBA to RGB loop *)

Lemma rgb_loop_spec (data : list Byte.byte) (fuel k : nat)
      (rgb : list Byte.byte) :
  (length data <= 4 * k + 4 * fuel)%nat ->
  let r := rgb_loop fuel data (4 * k) (3 * k) rgb in
  length r = length rgb
  /\ forall p c, (c < 3)%nat ->
       r !! (3 * p + c)%nat
       = if decide (k <= p /\ 3 * p + c < length rgb /\ 4 * p < length data)%nat
         then Some (byte_at data (4 * p + c))
         else rgb !! (3 * p + c)%nat.
Proof.
  revert k rgb. induction fuel as [|fuel IH]; intros k rgb Hfuel;
    cbn [rgb_loop]; cbv zeta.
  { split; [done|]. intros p c Hc. case_decide; [lia|done]. }
  destruct (4 * k <? length data)%nat eqn:Hlt.
  2:{ apply Nat.ltb_ge in Hlt. split; [done|].
      intros p c Hc. case_decide; [lia|done]. }
  apply Nat.ltb_lt in Hlt.
  replace (4 * k + 4)%nat with (4 * S k)%nat by lia.
  replace (3 * k + 3)%nat with (3 * S k)%nat by lia.
  match goal with
  | |- context [rgb_loop fuel data _ _ ?rgb'] =>
      destruct (IH (S k) rgb') as [Hlen Hget]; [lia|]
  end.
  rewrite !length_insert in Hlen. split; [done|].
  intros p c Hc. rewrite (Hget p c Hc). rewrite !length_insert.
  destruct (decide (p = k)) as [->|Hpk].
  - rewrite decide_False by lia.
    destruct (decide (3 * k + c < length rgb)%nat) as [Hin|Hout].
    + rewrite decide_True by lia.
      assert (c = 0 \/ c = 1 \/ c = 2)%nat as [-> | [-> | ->]] by lia.
      * rewrite list_lookup_insert_ne by lia.
        rewrite list_lookup_insert_ne by lia.
        rewrite !Nat.add_0_r. rewrite list_lookup_insert_eq by lia. done.
      * rewrite list_lookup_insert_ne by lia.
        replace (3 * k + 1)%nat with (S (3 * k)) by lia.
        rewrite list_lookup_insert_eq by (rewrite length_insert; lia). done.
      * replace (3 * k + 2)%nat with (S (S (3 * k))) by lia.
        rewrite list_lookup_insert_eq by (rewrite !length_insert; lia). done.
    + rewrite decide_False by lia.
      rewrite !lookup_ge_None_2; rewrite ?length_insert; try lia. done.
  - rewrite !list_lookup_insert_ne by lia.
    repeat case_decide; try lia; done.
Qed.

(** X4.  The RGB buffer handed to jpeg-js always has [width * height * 3]
    bytes.  Its pixel [p] holds the first three bytes of pixel [p] of the
    RGBA data (the alpha byte is dropped, the order of pixels and channels
    is kept); bytes the data does not provide are 0, and data beyond
    [width * height] pixels are ignored. *)
Theorem rgba_to_rgb_drops_alpha
        (data : list Byte.byte) (width height : nat) :
  length (rgba_to_rgb data width height) = (width * height * 3)%nat
  /\ forall p c, (c < 3)%nat -> (p < width * height)%nat ->
       rgba_to_rgb data width height !! (3 * p + c)%nat
       = Some (if decide (4 * p < length data)%nat
               then byte_at data (4 * p + c)
               else Byte.x00).
Proof.
  unfold rgba_to_rgb.
  destruct (rgb_loop_spec data (length data) 0
              (replicate (width * height * 3) Byte.x00)) as [Hlen Hget];
    [lia|].
  change (4 * 0)%nat with 0%nat in Hlen, Hget.
  change (3 * 0)%nat with 0%nat in Hlen, Hget.
  cbv zeta in Hlen, Hget. rewrite length_replicate in Hlen.
  split; [done|]. intros p c Hc Hp.
  rewrite (Hget p c Hc), length_replicate.
  destruct (decide (4 * p < length data)%nat) as [Hd|Hd].
  - by rewrite decide_True by lia.
  - rewrite decide_False by lia.
    apply lookup_replicate_2. lia.
Qed.

Lemma rgba_to_rgb_drops_alpha_witness :
  rgba_to_rgb [Byte.x01; Byte.x02; Byte.x03; Byte.xff] 1 1 !! 2%nat
  = Some Byte.x03.
Proof.
  exact (proj2 (rgba_to_rgb_drops_alpha [Byte.x01; Byte.x02; Byte.x03; Byte.xff]
                   1 1) 0%nat 2%nat ltac:(lia) ltac:(lia)).
Defined.

(** ** formatBytes *)

Lemma round_ratio_mul (a d m : Z) :
  0 < d ->
  Math_round (inject_Z a / inject_Z d * inject_Z m)
  = (2 * a * m + d) `div` (2 * d).
Proof.
  intros Hd. destruct d as [|p|p]; try lia.
  unfold Math_round.
  rewrite (Qfloor_comp _ ((2 * a * m + Z.pos p) # (2 * p))).
  - reflexivity.
  - unfold Qeq, Qdiv, Qmult, Qinv, Qplus, inject_Z; simpl. lia.
Qed.

Lemma Math_round_comp (x y : Q) : (x == y)%Q -> Math_round x = Math_round y.
Proof. intros H. unfold Math_round. apply Qfloor_comp. by rewrite H. Qed.

Lemma pretty_digit_length (r : Z) :
  0 <= r < 10 -> pad_zeros 1 (pretty r) = pretty r.
Proof.
  intros Hr.
  assert (r = 0 \/ r = 1 \/ r = 2 \/ r = 3 \/ r = 4 \/ r = 5 \/ r = 6
          \/ r = 7 \/ r = 8 \/ r = 9) as H by lia.
  repeat (destruct H as [-> | H]; [reflexivity|]). by subst r.
Qed.

Lemma toFixed_nonneg (d : nat) (x : Q) :
  (0 <= x)%Q ->
  toFixed (S d) x
  = pretty (Math_round (x * inject_Z (10 ^ Z.of_nat (S d)))
            `div` 10 ^ Z.of_nat (S d))
    +:+ "."
    +:+ pad_zeros (S d)
          (pretty (Math_round (x * inject_Z (10 ^ Z.of_nat (S d)))
                   `mod` 10 ^ Z.of_nat (S d))).
Proof.
  intros Hx. unfold toFixed, toFixed_units.
  by rewrite (proj2 (Qle_bool_iff 0 x) Hx).
Qed.

(** X5.  [formatBytes] prints whole bytes below 1 KiB; from 1 KiB up to
    1 MiB it prints kibibytes with one decimal, the value shown being the
    number of tenths nearest to the size (so between 1.0 and 1024.0: sizes
    just below 1 MiB are printed as 1024.0 KB); from 1 MiB on (for the
    integers a number holds exactly, below 2^53) it prints mebibytes with
    two decimals, the nearest number of hundredths. *)
Theorem formatBytes_rounds_to_nearest (n : Z) :
  (n < 1024 -> formatBytes (Some n) = pretty n +:+ " B")
  /\ (1024 <= n < 1024 * 1024 ->
      exists t,
        formatBytes (Some n)
        = (pretty (t `div` 10) +:+ "." +:+ pretty (t `mod` 10)) +:+ " KB"
        /\ 10 <= t <= 10240
        /\ 10 * n - 512 < 1024 * t <= 10 * n + 512)
  /\ (1024 * 1024 <= n < 2 ^ 53 ->
      exists t,
        formatBytes (Some n)
        = (pretty (t `div` 100) +:+ "."
           +:+ pad_zeros 2 (pretty (t `mod` 100))) +:+ " MB"
        /\ 100 <= t
        /\ 100 * n - 524288 < 1048576 * t <= 100 * n + 524288).
Proof.
  split_and!.
  - intros Hn. unfold formatBytes.
    by rewrite (proj2 (Z.ltb_lt n 1024) Hn).
  - intros [Hlo Hhi]. unfold formatBytes.
    rewrite (proj2 (Z.ltb_ge n 1024) Hlo), (proj2 (Z.ltb_lt n _) Hhi).
    rewrite toFixed_nonneg.
    2:{ unfold Qle, Qdiv, Qmult, Qinv, inject_Z; simpl. lia. }
    change (inject_Z n / 1024)%Q with (inject_Z n / inject_Z 1024)%Q.
    rewrite (round_ratio_mul n 1024 (10 ^ Z.of_nat 1)) by lia.
    change (10 ^ Z.of_nat 1) with 10.
    set (t := (2 * n * 10 + 1024) `div` (2 * 1024)).
    assert (2 * n * 10 + 1024 = 2048 * t + (2 * n * 10 + 1024) `mod` 2048)
      as Hdm by (apply Z.div_mod; lia).
    pose proof (Z.mod_pos_bound (2 * n * 10 + 1024) 2048 ltac:(lia)) as Hm.
    exists t. split_and!; try lia.
    rewrite pretty_digit_length by (apply Z.mod_pos_bound; lia). done.
  - intros [Hlo _]. unfold formatBytes.
    rewrite (proj2 (Z.ltb_ge n 1024)) by lia.
    rewrite (proj2 (Z.ltb_ge n (1024 * 1024))) by lia.
    rewrite toFixed_nonneg.
    2:{ unfold Qle, Qdiv, Qmult, Qinv, inject_Z; simpl. lia. }
    rewrite (Math_round_comp _
               (inject_Z n / inject_Z 1048576 * inject_Z (10 ^ Z.of_nat 2))).
    2:{ unfold Qeq, Qdiv, Qmult, Qinv, inject_Z; simpl. lia. }
    rewrite (round_ratio_mul n 1048576 (10 ^ Z.of_nat 2)) by lia.
    change (10 ^ Z.of_nat 2) with 100.
    set (t := (2 * n * 100 + 1048576) `div` (2 * 1048576)).
    assert (2 * n * 100 + 1048576
            = 2097152 * t + (2 * n * 100 + 1048576) `mod` 2097152)
      as Hdm by (apply Z.div_mod; lia).
    pose proof (Z.mod_pos_bound (2 * n * 100 + 1048576) 2097152 ltac:(lia))
      as Hm.
    exists t. split_and!; try lia. done.
Qed.

Lemma formatBytes_rounds_to_nearest_witness :
  exists t,
    formatBytes (Some 1048575)
    = (pretty (t `div` 10) +:+ "." +:+ pretty (t `mod` 10)) +:+ " KB"
    /\ 10 <= t <= 10240
    /\ 10 * 1048575 - 512 < 1024 * t <= 10 * 1048575 + 512.
Proof.
  exact (proj1 (proj2 (formatBytes_rounds_to_nearest 1048575))
               ltac:(lia)).
Defined.
(** ** The observers *)

Lemma res_write_spec chunk c :
  res_write chunk c =
    (mkConn (headers c)
            (if next_write_returns c then written c ++ [chunk] else written c)
            (ended c) (drop 1 (faults c)),
     next_write_returns c).
Proof.
  unfold res_write, next_write_returns.
  destruct (faults c) as [|[] ?]; reflexivity.
Qed.

Lemma sendSse_at s e d h r c :
  sseClients h !! s = Some r -> conns h !! r = Some c ->
  sendSse s e d h =
    mkHub (<[r := if (res_write (event_chunk e) c).2
                  then (res_write (data_chunk d)
                                  (res_write (event_chunk e) c).1).1
                  else (res_write (event_chunk e) c).1]> (conns h))
          (sseClients h).
Proof.
  intros Hs Hr. unfold sendSse. rewrite Hs, Hr.
  destruct (res_write (event_chunk e) c) as [c1 []]; simpl; [|reflexivity].
  destruct (res_write (data_chunk d) c1) as [c2 ?]; reflexivity.
Qed.

Lemma sendSse_sseClients s e d h :
  sseClients (sendSse s e d h) = sseClients h.
Proof.
  destruct (sseClients h !! s) as [r|] eqn:Hs.
  - destruct (conns h !! r) as [c|] eqn:Hr.
    + rewrite (sendSse_at s e d h r c Hs Hr). reflexivity.
    + unfold sendSse. rewrite Hs, Hr. reflexivity.
  - unfold sendSse. rewrite Hs. reflexivity.
Qed.

Lemma sendSse_length s e d h :
  length (conns (sendSse s e d h)) = length (conns h).
Proof.
  destruct (sseClients h !! s) as [r|] eqn:Hs.
  - destruct (conns h !! r) as [c|] eqn:Hr.
    + rewrite (sendSse_at s e d h r c Hs Hr). simpl.
      apply length_insert.
    + unfold sendSse. rewrite Hs, Hr. reflexivity.
  - unfold sendSse. rewrite Hs. reflexivity.
Qed.

Lemma sendSse_others s e d h k :
  sseClients h !! s <> Some k ->
  conns (sendSse s e d h) !! k = conns h !! k.
Proof.
  intros Hk. destruct (sseClients h !! s) as [r|] eqn:Hs.
  - destruct (conns h !! r) as [c|] eqn:Hr.
    + rewrite (sendSse_at s e d h r c Hs Hr). simpl.
      apply list_lookup_insert_ne. congruence.
    + unfold sendSse. rewrite Hs, Hr. reflexivity.
  - unfold sendSse. rewrite Hs. reflexivity.
Qed.

Lemma hub_wf_same_registry h h' :
  sseClients h' = sseClients h -> length (conns h') = length (conns h) ->
  hub_wf h -> hub_wf h'.
Proof.
  intros Hr Hl [Hb Hi]. split.
  - intros id r. rewrite Hr, Hl. apply Hb.
  - intros id1 id2 r. rewrite Hr. apply Hi.
Qed.

Lemma hub_wf_empty : hub_wf hub_empty.
Proof.
  split.
  - intros id r H. unfold hub_empty in H. simpl in H.
    rewrite lookup_empty in H. discriminate.
  - intros id1 id2 r H. unfold hub_empty in H. simpl in H.
    rewrite lookup_empty in H. discriminate.
Qed.

Lemma hub_wf_sendSse s e d h : hub_wf h -> hub_wf (sendSse s e d h).
Proof.
  apply hub_wf_same_registry;
    [apply sendSse_sseClients | apply sendSse_length].
Qed.

Lemma hub_wf_delete id h conns' :
  length conns' = length (conns h) ->
  hub_wf h -> hub_wf (mkHub conns' (delete id (sseClients h))).
Proof.
  intros Hl [Hb Hi]. split; simpl.
  - intros id1 r H. rewrite Hl.
    apply lookup_delete_Some in H as [_ H]. eauto.
  - intros id1 id2 r H1 H2.
    apply lookup_delete_Some in H1 as [_ H1].
    apply lookup_delete_Some in H2 as [_ H2]. eauto.
Qed.

Lemma hub_wf_on_close id r h : hub_wf h -> hub_wf (on_close id r h).
Proof. apply hub_wf_delete. apply length_alter. Qed.

Lemma hub_wf_keepalive_entry h entry :
  hub_wf h -> hub_wf (keepalive_entry h entry).
Proof.
  intros Hwf. destruct entry as [id r]. unfold keepalive_entry.
  destruct (conns h !! r) as [c|]; [|exact Hwf].
  destruct (res_write heartbeat_chunk c) as [c1 []].
  - revert Hwf. apply hub_wf_same_registry; [reflexivity|].
    simpl. apply length_insert.
  - apply hub_wf_delete; [|exact Hwf]. apply length_insert.
Qed.

Lemma hub_wf_keepalive entries h :
  hub_wf h -> hub_wf (keepalive entries h).
Proof.
  revert h. induction entries as [|entry l IH]; intros h Hwf; [exact Hwf|].
  apply IH, hub_wf_keepalive_entry, Hwf.
Qed.

Lemma sse_get_spec s fs h :
  truthy (Some s) = true ->
  sse_get (Some s) fs h =
    let res :=
      mkConn stream_headers
             (match fs with
              | true :: _ => []
              | false :: true :: _ => [event_chunk "connected"]
              | _ => [event_chunk "connected";
                      data_chunk (connected_payload "connected" s)]
              end)
             false
             (match fs with true :: _ => drop 1 fs | _ => drop 2 fs end) in
    match fs with
    | true :: _ | false :: true :: _ =>
        (mkHub (conns h ++ [res]) (sseClients h),
         Write_threw (length (conns h)))
    | _ =>
        (mkHub (conns h ++ [res]) (<[s := length (conns h)]> (sseClients h)),
         Stream (length (conns h)))
    end.
Proof.
  intros Ht. unfold sse_get. rewrite Ht.
  destruct fs as [|[] [|[] ?]]; reflexivity.
Qed.

Lemma hub_wf_sse_get id fs h : hub_wf h -> hub_wf (sse_get id fs h).1.
Proof.
  intros Hwf. destruct id as [s|]; [|exact Hwf].
  destruct (truthy (Some s)) eqn:Ht.
  2:{ unfold sse_get. rewrite Ht. exact Hwf. }
  rewrite (sse_get_spec s fs h Ht).
  assert (Hgrow : forall c,
             hub_wf (mkHub (conns h ++ [c]) (sseClients h))).
  { intros c. destruct Hwf as [Hb Hi]. split; simpl.
    - intros id r H. rewrite length_app. simpl.
      specialize (Hb id r H). lia.
    - exact Hi. }
  assert (Hreg : forall c,
             hub_wf (mkHub (conns h ++ [c])
                           (<[s := length (conns h)]> (sseClients h)))).
  { intros c. destruct Hwf as [Hb Hi]. split; simpl.
    - intros id r H. rewrite length_app. simpl.
      apply lookup_insert_Some in H as [[_ <-]|[_ H]]; [lia|].
      specialize (Hb id r H). lia.
    - intros id1 id2 r H1 H2.
      apply lookup_insert_Some in H1 as [[<- <-]|[Hn1 H1]];
        apply lookup_insert_Some in H2 as [[<- E2]|[Hn2 H2]];
        try reflexivity.
      + specialize (Hb _ _ H2). lia.
      + specialize (Hb _ _ H1). lia.
      + eauto. }
  destruct fs as [|[] [|[] ?]]; simpl; auto.
Qed.

Lemma hub_wf_deliver s log h : hub_wf h -> hub_wf (deliver s log h).
Proof.
  revert h. induction log as [|ev l IH]; intros h Hwf; [exact Hwf|].
  apply IH, hub_wf_sendSse, Hwf.
Qed.

(** X6.  [sendSse] writes to the response registered for the session and to
    no other: it never changes the registry, never ends a stream, leaves
    every other response as it was, and does nothing at all for a session
    that is not registered.  On the session's response it appends the event
    line and the data line; when the first write throws nothing is
    appended, and when only the second throws the event line stays alone. *)
Theorem sendSse_writes_to_its_session_only s e d h :
  sseClients (sendSse s e d h) = sseClients h
  /\ length (conns (sendSse s e d h)) = length (conns h)
  /\ (sseClients h !! s = None -> sendSse s e d h = h)
  /\ (forall k, sseClients h !! s <> Some k ->
                conns (sendSse s e d h) !! k = conns h !! k)
  /\ (forall r c,
         sseClients h !! s = Some r -> conns h !! r = Some c ->
         exists c',
           conns (sendSse s e d h) !! r = Some c'
           /\ headers c' = headers c /\ ended c' = ended c
           /\ written c' =
                written c ++
                match faults c with
                | true :: _ => []
                | false :: true :: _ => [event_chunk e]
                | _ => [event_chunk e; data_chunk d]
                end).
Proof.
  split_and!.
  - apply sendSse_sseClients.
  - apply sendSse_length.
  - intros Hs. unfold sendSse. rewrite Hs. reflexivity.
  - apply sendSse_others.
  - intros r c Hs Hr. rewrite (sendSse_at s e d h r c Hs Hr). simpl.
    rewrite list_lookup_insert_eq by (eapply lookup_lt_Some; exact Hr).
    eexists; split; [reflexivity|].
    unfold res_write.
    destruct (faults c) as [|[] [|[] ?]]; simpl;
      rewrite ?app_nil_r, <- ?app_assoc; auto.
Qed.

Lemma sendSse_target s e d h r c :
  sseClients h !! s = Some r -> conns h !! r = Some c ->
  exists c1 x,
    conns (sendSse s e d h) !! r = Some c1
    /\ written c1 = written c ++ x
    /\ x `sublist_of` [event_chunk e; data_chunk d]
    /\ (faults c !! 0%nat <> Some true -> faults c !! 1%nat <> Some true ->
        x = [event_chunk e; data_chunk d] /\ faults c1 = drop 2 (faults c)).
Proof.
  intros Hs Hr. rewrite (sendSse_at s e d h r c Hs Hr). simpl.
  rewrite list_lookup_insert_eq by (eapply lookup_lt_Some; exact Hr).
  unfold res_write.
  destruct (faults c) as [|[] [|[] ?]]; simpl; eexists; eexists;
    (split; [reflexivity|]); simpl.
  - split; [rewrite <- app_assoc; reflexivity|]. split; [reflexivity|]. auto.
  - split; [symmetry; apply app_nil_r|].
    split; [apply sublist_nil_l|]. intros H; contradiction H; reflexivity.
  - split; [symmetry; apply app_nil_r|].
    split; [apply sublist_nil_l|]. intros H; contradiction H; reflexivity.
  - split; [symmetry; apply app_nil_r|].
    split; [apply sublist_nil_l|]. intros H; contradiction H; reflexivity.
  - split; [rewrite <- app_assoc; reflexivity|]. split; [reflexivity|]. auto.
  - split; [reflexivity|]. split.
    + apply sublist_skip, sublist_nil_l.
    + intros _ H; contradiction H; reflexivity.
  - split; [rewrite <- app_assoc; reflexivity|]. split; [reflexivity|]. auto.
Qed.

Lemma deliver_written s log h r c :
  sseClients h !! s = Some r -> conns h !! r = Some c ->
  exists c' sent,
    conns (deliver s log h) !! r = Some c'
    /\ written c' = written c ++ sent
    /\ sent `sublist_of` flat_map frames log
    /\ ((forall k, (k < 2 * length log)%nat -> faults c !! k <> Some true) ->
        sent = flat_map frames log).
Proof.
  revert h c. induction log as [|ev l IH]; intros h c Hs Hr.
  - exists c, []. simpl. split_and!; auto using app_nil_r.
  - destruct (sendSse_target s (event_name ev) (event_payload ev) h r c Hs Hr)
      as (c1 & x & Hr1 & Hw1 & Hsub1 & Hall1).
    set (h1 := sendSse s (event_name ev) (event_payload ev) h) in *.
    assert (Hs1 : sseClients h1 !! s = Some r).
    { unfold h1. rewrite sendSse_sseClients. exact Hs. }
    destruct (IH h1 c1 Hs1 Hr1) as (c' & sent & Hr' & Hw' & Hsub' & Hall').
    exists c', (x ++ sent).
    change (deliver s (ev :: l) h) with (deliver s l h1).
    split_and!.
    + exact Hr'.
    + rewrite Hw', Hw1, app_assoc. reflexivity.
    + change (flat_map frames (ev :: l)) with (frames ev ++ flat_map frames l).
      apply sublist_app; assumption.
    + intros Hok.
      destruct Hall1 as [-> Hf1].
      * apply Hok. simpl. lia.
      * apply Hok. simpl. lia.
      * rewrite Hall'; [reflexivity|].
        intros k Hk. rewrite Hf1, lookup_drop. apply Hok. simpl. lia.
Qed.

Lemma deliver_sseClients s log h :
  sseClients (deliver s log h) = sseClients h.
Proof.
  revert h. induction log as [|ev l IH]; intros h; [reflexivity|].
  change (deliver s (ev :: l) h)
    with (deliver s l (sendSse s (event_name ev) (event_payload ev) h)).
  rewrite IH. apply sendSse_sseClients.
Qed.

(** X7.  The notifications a handler pushes for a session reach the
    session's response in the order of the pushes and never twice: what is
    appended is a subsequence of their chunks, whatever the transport does,
    and all of them when no write throws.  The registry is as before. *)
Theorem deliver_appends_in_order s log h r c :
  sseClients h !! s = Some r -> conns h !! r = Some c ->
  exists c' sent,
    conns (deliver s log h) !! r = Some c'
    /\ written c' = written c ++ sent
    /\ sent `sublist_of` flat_map frames log
    /\ ((forall k, (k < 2 * length log)%nat -> faults c !! k <> Some true) ->
        sent = flat_map frames log)
    /\ sseClients (deliver s log h) = sseClients h.
Proof.
  intros Hs Hr.
  destruct (deliver_written s log h r c Hs Hr)
    as (c' & sent & Hc' & Hw & Hsub & Hall).
  exists c', sent. split_and!.
  - exact Hc'.
  - exact Hw.
  - exact Hsub.
  - exact Hall.
  - apply deliver_sseClients.
Qed.

Lemma keepalive_entry_at h id r c :
  conns h !! r = Some c ->
  keepalive_entry h (id, r) =
    mkHub (<[r := mkConn (headers c)
                         (if next_write_returns c
                          then written c ++ [heartbeat_chunk] else written c)
                         (if next_write_returns c then ended c else true)
                         (drop 1 (faults c))]> (conns h))
          (if next_write_returns c then sseClients h
           else delete id (sseClients h)).
Proof.
  intros Hr. unfold keepalive_entry. rewrite Hr, res_write_spec.
  destruct (next_write_returns c); reflexivity.
Qed.

Lemma keepalive_spec entries :
  forall h,
    NoDup entries.*1 -> NoDup entries.*2 ->
    (forall id r, (id, r) ∈ entries -> (r < length (conns h))%nat) ->
    length (conns (keepalive entries h)) = length (conns h)
    /\ (forall k, k ∉ entries.*2 ->
                  conns (keepalive entries h) !! k = conns h !! k)
    /\ (forall id, id ∉ entries.*1 ->
                   sseClients (keepalive entries h) !! id
                   = sseClients h !! id)
    /\ (forall id r c,
           (id, r) ∈ entries -> conns h !! r = Some c ->
           conns (keepalive entries h) !! r
           = Some (mkConn (headers c)
                          (if next_write_returns c
                           then written c ++ [heartbeat_chunk]
                           else written c)
                          (if next_write_returns c then ended c else true)
                          (drop 1 (faults c)))
           /\ sseClients (keepalive entries h) !! id
              = if next_write_returns c then sseClients h !! id else None).
Proof.
  induction entries as [|[id0 r0] l IH]; intros h Hd1 Hd2 Hlt.
  - simpl. split_and!; auto.
    intros id r c H. apply elem_of_nil in H. contradiction.
  - rewrite fmap_cons in Hd1. rewrite fmap_cons in Hd2. simpl in Hd1, Hd2.
    apply NoDup_cons in Hd1 as [Hn1 Hd1].
    apply NoDup_cons in Hd2 as [Hn2 Hd2].
    assert (Hr0 : (r0 < length (conns h))%nat)
      by (apply (Hlt id0); left).
    destruct (lookup_lt_is_Some_2 _ _ Hr0) as [c0 Hc0].
    change (keepalive ((id0, r0) :: l) h)
      with (keepalive l (keepalive_entry h (id0, r0))).
    rewrite (keepalive_entry_at h id0 r0 c0 Hc0).
    set (c0' := mkConn _ _ _ _).
    set (h1 := mkHub _ _).
    assert (Hl1 : length (conns h1) = length (conns h))
      by (unfold h1; simpl; apply length_insert).
    destruct (IH h1 Hd1 Hd2) as (Hlen & Hoth & Hreg & Hin).
    { intros id r H. rewrite Hl1. apply (Hlt id). right. exact H. }
    assert (Hreg1 : forall id, id <> id0 ->
                               sseClients h1 !! id = sseClients h !! id).
    { intros id Hne. unfold h1. simpl.
      destruct (next_write_returns c0); [reflexivity|].
      apply lookup_delete_ne. congruence. }
    split_and!.
    + rewrite Hlen. exact Hl1.
    + intros k Hk. rewrite fmap_cons in Hk. simpl in Hk.
      apply not_elem_of_cons in Hk as [Hk1 Hk2].
      rewrite (Hoth k Hk2). unfold h1. simpl.
      apply list_lookup_insert_ne. congruence.
    + intros id Hid. rewrite fmap_cons in Hid. simpl in Hid.
      apply not_elem_of_cons in Hid as [Hid1 Hid2].
      rewrite (Hreg id Hid2). apply Hreg1, Hid1.
    + intros id r c Hmem Hc.
      apply elem_of_cons in Hmem as [Heq|Hmem].
      * injection Heq as -> ->.
        assert (c = c0) as -> by congruence.
        rewrite (Hoth r0 Hn2), (Hreg id0 Hn1). unfold h1. simpl.
        split; [apply list_lookup_insert_eq, Hr0|].
        destruct (next_write_returns c0); [reflexivity|].
        apply lookup_delete_eq.
      * assert (Hne_r : r <> r0).
        { intros ->. apply Hn2.
          apply (list_elem_of_fmap_2 snd) in Hmem. exact Hmem. }
        assert (Hne_id : id <> id0).
        { intros ->. apply Hn1.
          apply (list_elem_of_fmap_2 fst) in Hmem. exact Hmem. }
        assert (Hc1 : conns h1 !! r = Some c).
        { unfold h1. simpl. rewrite list_lookup_insert_ne by congruence.
          exact Hc. }
        destruct (Hin id r c Hmem Hc1) as [-> ->].
        rewrite (Hreg1 id Hne_id). split; reflexivity.
Qed.

Lemma entries_of_elem h entries id r :
  entries_of h entries ->
  (id, r) ∈ entries <-> sseClients h !! id = Some r.
Proof.
  unfold entries_of. intros ->. apply elem_of_map_to_list.
Qed.

Lemma entries_of_NoDup h entries :
  hub_wf h -> entries_of h entries ->
  NoDup entries.*1 /\ NoDup entries.*2.
Proof.
  intros [_ Hinj] He. split.
  - unfold entries_of in He. rewrite He. apply NoDup_fst_map_to_list.
  - apply NoDup_fmap_2_strong.
    + intros [id1 r1] [id2 r2] H1 H2. simpl. intros <-.
      apply (entries_of_elem h entries _ _ He) in H1, H2.
      rewrite (Hinj id1 id2 r1 H1 H2). reflexivity.
    + unfold entries_of in He. rewrite He. apply NoDup_map_to_list.
Qed.

(** X8.  One round of the keep-alive timer, in whatever order the registry
    is walked: a registered stream whose write returns gets one heartbeat
    and stays registered; one whose write throws is ended and its session
    leaves the registry, nothing being written to it.  No session is added,
    responses that are not registered are left alone, and the registry
    stays well formed. *)
Theorem keepalive_drops_exactly_the_broken_streams entries h :
  hub_wf h -> entries_of h entries ->
  hub_wf (keepalive entries h)
  /\ (forall id r c,
         sseClients h !! id = Some r -> conns h !! r = Some c ->
         exists c',
           conns (keepalive entries h) !! r = Some c'
           /\ if next_write_returns c
              then sseClients (keepalive entries h) !! id = Some r
                   /\ written c' = written c ++ [heartbeat_chunk]
                   /\ ended c' = ended c
              else sseClients (keepalive entries h) !! id = None
                   /\ written c' = written c
                   /\ ended c' = true)
  /\ (forall id, sseClients h !! id = None ->
                 sseClients (keepalive entries h) !! id = None)
  /\ (forall k, (forall id, sseClients h !! id <> Some k) ->
                conns (keepalive entries h) !! k = conns h !! k).
Proof.
  intros Hwf He.
  destruct (entries_of_NoDup h entries Hwf He) as [Hd1 Hd2].
  destruct (keepalive_spec entries h Hd1 Hd2) as (Hlen & Hoth & Hreg & Hin).
  { intros id r H. apply (entries_of_elem h entries _ _ He) in H.
    destruct Hwf as [Hb _]. eauto. }
  split_and!.
  - apply hub_wf_keepalive, Hwf.
  - intros id r c Hs Hc.
    apply (entries_of_elem h entries _ _ He) in Hs as Hmem.
    destruct (Hin id r c Hmem Hc) as [Hc' Hs'].
    eexists. split; [exact Hc'|]. rewrite Hs'. simpl.
    destruct (next_write_returns c); auto.
  - intros id Hnone. rewrite Hreg; [exact Hnone|].
    intros Hmem. apply list_elem_of_fmap in Hmem as ([id' r] & -> & Hmem).
    apply (entries_of_elem h entries _ _ He) in Hmem. simpl in Hnone.
    congruence.
  - intros k Hk. apply Hoth.
    intros Hmem. apply list_elem_of_fmap in Hmem as ([id r] & -> & Hmem).
    apply (entries_of_elem h entries _ _ He) in Hmem. exact (Hk id Hmem).
Qed.

Lemma sse_get_falsy id fs h :
  truthy id = false -> sse_get id fs h = (h, Missing_id).
Proof.
  intros Ht. unfold sse_get. destruct id; [rewrite Ht|]; reflexivity.
Qed.

Lemma sse_get_truthy s fs h :
  truthy (Some s) = true ->
  exists res,
    conns (sse_get (Some s) fs h).1 = conns h ++ [res]
    /\ headers res = stream_headers /\ ended res = false
    /\ ((sse_get (Some s) fs h).2 = Stream (length (conns h))
        /\ sseClients (sse_get (Some s) fs h).1
           = <[s := length (conns h)]> (sseClients h)
        /\ written res = greeting s
        \/
        (sse_get (Some s) fs h).2 = Write_threw (length (conns h))
        /\ sseClients (sse_get (Some s) fs h).1 = sseClients h).
Proof.
  intros Ht. rewrite (sse_get_spec s fs h Ht).
  destruct fs as [|[] [|[] ?]]; simpl; eexists;
    (split; [reflexivity|]); simpl;
    (split; [reflexivity|]); (split; [reflexivity|]);
    first [ left; split_and!; reflexivity | right; split; reflexivity ].
Qed.

Lemma sse_get_Stream id fs h h' r :
  sse_get id fs h = (h', Stream r) ->
  exists s res,
    id = Some s /\ truthy id = true /\ r = length (conns h)
    /\ h' = mkHub (conns h ++ [res]) (<[s := r]> (sseClients h))
    /\ headers res = stream_headers /\ written res = greeting s
    /\ ended res = false.
Proof.
  intros H. destruct (truthy id) eqn:Ht.
  2:{ rewrite (sse_get_falsy id fs h Ht) in H. discriminate. }
  destruct id as [s|]; [|discriminate].
  destruct (sse_get_truthy s fs h Ht)
    as (res & Hc & Hh & He & [(Hr & Hs & Hw)|(Hr & _)]);
    rewrite H in *; simpl in *; [|discriminate].
  injection Hr as ->. exists s, res. split_and!; auto.
  destruct h' as [cs m]. simpl in *. congruence.
Qed.

(** X9.  [GET /sse] registers a session only once its greeting has been
    written in full: afterwards every registered session is one that was
    registered before, or the request's own, on a new response that carries
    the stream headers and the two greeting chunks and is not ended.  The
    responses that existed are left as they were; the request is refused
    with 'Missing id', the registry untouched, exactly when the id is
    missing or empty. *)
Theorem sse_get_registers_after_greeting id fs h :
  take (length (conns h)) (conns (sse_get id fs h).1) = conns h
  /\ ((sse_get id fs h).2 = Missing_id <-> truthy id = false)
  /\ (truthy id = false -> (sse_get id fs h).1 = h)
  /\ (forall s r,
         sseClients (sse_get id fs h).1 !! s = Some r ->
         sseClients h !! s = Some r
         \/ (id = Some s /\ (sse_get id fs h).2 = Stream r
             /\ r = length (conns h)
             /\ exists res,
                 conns (sse_get id fs h).1 !! r = Some res
                 /\ headers res = stream_headers
                 /\ written res = greeting s
                 /\ ended res = false)).
Proof.
  destruct (truthy id) eqn:Ht.
  - destruct id as [s|]; [|discriminate].
    destruct (sse_get_truthy s fs h Ht)
      as (res & Hc & Hh & He & Hcases).
    split_and!.
    + rewrite Hc. apply take_app_length.
    + split; [|discriminate].
      destruct Hcases as [(-> & _)|(-> & _)]; discriminate.
    + discriminate.
    + intros s' r Hs'.
      destruct Hcases as [(Hr & Hs & Hw)|(Hr & Hs)]; rewrite Hs in Hs'.
      * apply lookup_insert_Some in Hs' as [[<- <-]|[_ Hs']]; [|auto].
        right. split_and!; auto.
        exists res. rewrite Hc. split_and!; auto.
        apply list_lookup_middle. reflexivity.
      * auto.
  - rewrite (sse_get_falsy id fs h Ht). simpl. split_and!; auto.
    + apply firstn_all.
    + split; reflexivity.
Qed.

Lemma deliver_others s log h k :
  sseClients h !! s <> Some k ->
  conns (deliver s log h) !! k = conns h !! k.
Proof.
  revert h. induction log as [|ev l IH]; intros h Hk; [reflexivity|].
  change (deliver s (ev :: l) h)
    with (deliver s l (sendSse s (event_name ev) (event_payload ev) h)).
  rewrite IH by (rewrite sendSse_sseClients; exact Hk).
  apply sendSse_others, Hk.
Qed.

Lemma deliver_unregistered s log h :
  sseClients h !! s = None -> deliver s log h = h.
Proof.
  intros Hs. induction log as [|ev l IH]; [reflexivity|].
  change (deliver s (ev :: l) h)
    with (deliver s l (sendSse s (event_name ev) (event_payload ev) h)).
  replace (sendSse s (event_name ev) (event_payload ev) h) with h;
    [exact IH|].
  unfold sendSse. rewrite Hs. reflexivity.
Qed.

(** X10.  When a session that has a stream opens another one, the
    notifications pushed for it afterwards go to the new response only: the
    older response is neither written to nor ended, and the new one keeps
    its greeting in front of whatever reaches it. *)
Theorem reconnect_redirects_to_newest_stream s fs h h' r r0 c0 log :
  sseClients h !! s = Some r0 -> conns h !! r0 = Some c0 ->
  sse_get (Some s) fs h = (h', Stream r) ->
  r <> r0
  /\ conns (deliver s log h') !! r0 = Some c0
  /\ exists c sent,
      conns (deliver s log h') !! r = Some c
      /\ written c = greeting s ++ sent
      /\ sent `sublist_of` flat_map frames log.
Proof.
  intros Hs Hc0 Hget.
  destruct (sse_get_Stream _ _ _ _ _ Hget)
    as (s' & res & [= <-] & Ht & -> & -> & Hh & Hw & He).
  pose proof (lookup_lt_Some _ _ _ Hc0) as Hlt.
  set (h' := mkHub _ _) in *.
  assert (Hs' : sseClients h' !! s = Some (length (conns h)))
    by (unfold h'; simpl; apply lookup_insert_eq).
  assert (Hres : conns h' !! length (conns h) = Some res)
    by (unfold h'; simpl; apply list_lookup_middle; reflexivity).
  split_and!.
  - lia.
  - rewrite deliver_others by (rewrite Hs'; intros [= E]; lia).
    unfold h'. simpl. apply lookup_app_l_Some, Hc0.
  - destruct (deliver_written s log h' _ res Hs' Hres)
      as (c & sent & Hc & Hwc & Hsub & _).
    exists c, sent. rewrite Hwc, Hw. auto.
Qed.

Lemma keepalive_unregistered entries h k :
  hub_wf h -> entries_of h entries ->
  (forall id, sseClients h !! id <> Some k) ->
  conns (keepalive entries h) !! k = conns h !! k.
Proof.
  intros Hwf He Hk.
  destruct (entries_of_NoDup h entries Hwf He) as [Hd1 Hd2].
  destruct (keepalive_spec entries h Hd1 Hd2) as (_ & Hoth & _).
  { intros id r H. apply (entries_of_elem h entries _ _ He) in H.
    destruct Hwf as [Hb _]. eauto. }
  apply Hoth.
  intros Hmem. apply list_elem_of_fmap in Hmem as ([id r] & -> & Hmem).
  apply (entries_of_elem h entries _ _ He) in Hmem. exact (Hk id Hmem).
Qed.

(** X11.  A session opens a stream and then a second one; when the request
    of the first closes, its handler removes the session from the registry
    although the registry had passed to the second response.  The first
    response is ended; the second stays open with only its greeting, and
    from then on neither the notifications pushed for the session nor the
    keep-alive timer reach it. *)
Theorem stale_close_silences_new_stream s fs1 fs2 h h1 h2 r1 r2 :
  hub_wf h ->
  sse_get (Some s) fs1 h = (h1, Stream r1) ->
  sse_get (Some s) fs2 h1 = (h2, Stream r2) ->
  sseClients (on_close s r1 h2) !! s = None
  /\ (exists c1, conns (on_close s r1 h2) !! r1 = Some c1 /\ ended c1 = true)
  /\ (exists c2,
        conns (on_close s r1 h2) !! r2 = Some c2
        /\ written c2 = greeting s /\ ended c2 = false)
  /\ (forall log, deliver s log (on_close s r1 h2) = on_close s r1 h2)
  /\ (forall entries,
        entries_of (on_close s r1 h2) entries ->
        conns (keepalive entries (on_close s r1 h2)) !! r2
        = conns (on_close s r1 h2) !! r2).
Proof.
  intros Hwf Hget1 Hget2.
  assert (Hwf3 : hub_wf (on_close s r1 h2)).
  { apply hub_wf_on_close.
    replace h2 with (sse_get (Some s) fs2 h1).1 by (rewrite Hget2; reflexivity).
    apply hub_wf_sse_get.
    replace h1 with (sse_get (Some s) fs1 h).1 by (rewrite Hget1; reflexivity).
    apply hub_wf_sse_get, Hwf. }
  destruct (sse_get_Stream _ _ _ _ _ Hget1)
    as (s1 & res1 & [= <-] & _ & -> & -> & _ & _ & _).
  destruct (sse_get_Stream _ _ _ _ _ Hget2)
    as (s2 & res2 & [= <-] & _ & -> & -> & _ & Hw2 & He2).
  simpl in *. rewrite length_app in *. simpl in *.
  set (n := length (conns h)) in *.
  assert (Hreg : sseClients (on_close s n
                   (mkHub ((conns h ++ [res1]) ++ [res2])
                          (<[s := (n + 1)%nat]> (<[s := n]> (sseClients h)))))
                 !! s = None)
    by (unfold on_close; simpl; apply lookup_delete_eq).
  assert (Hc2 : conns (on_close s n
                   (mkHub ((conns h ++ [res1]) ++ [res2])
                          (<[s := (n + 1)%nat]> (<[s := n]> (sseClients h)))))
                !! (n + 1)%nat = Some res2).
  { unfold on_close. simpl. rewrite list_lookup_alter_ne by lia.
    apply list_lookup_middle. rewrite length_app. reflexivity. }
  split_and!.
  - exact Hreg.
  - exists (res_end res1). split; [|reflexivity].
    unfold on_close. simpl. rewrite list_lookup_alter_eq.
    rewrite lookup_app_l by (rewrite length_app; simpl; lia).
    rewrite list_lookup_middle by reflexivity. reflexivity.
  - exists res2. auto.
  - intros log. apply deliver_unregistered, Hreg.
  - intros entries He. apply keepalive_unregistered; [exact Hwf3|exact He|].
    intros id Hid. unfold on_close in Hid. simpl in Hid.
    apply lookup_delete_Some in Hid as [Hne Hid].
    rewrite !lookup_insert_ne in Hid by congruence.
    destruct Hwf as [Hb _]. specialize (Hb id _ Hid). lia.
Qed.

(** X12.  Opening a stream for a session that has none and closing it again
    leaves the registry as it was; the responses that existed are
    untouched, and the response of the stream is ended with only its
    greeting written. *)
Theorem close_after_open_restores_registry s fs h h1 r :
  sseClients h !! s = None ->
  sse_get (Some s) fs h = (h1, Stream r) ->
  sseClients (on_close s r h1) = sseClients h
  /\ take (length (conns h)) (conns (on_close s r h1)) = conns h
  /\ exists c,
      conns (on_close s r h1) = conns h ++ [c]
      /\ written c = greeting s /\ ended c = true.
Proof.
  intros Hs Hget.
  destruct (sse_get_Stream _ _ _ _ _ Hget)
    as (s1 & res & [= <-] & _ & -> & -> & _ & Hw & _).
  unfold on_close. simpl.
  assert (Hc : alter res_end (length (conns h)) (conns h ++ [res])
               = conns h ++ [res_end res]).
  { apply list_eq. intros i.
    destruct (decide (i = length (conns h))) as [->|Hne].
    - rewrite list_lookup_alter_eq, !list_lookup_middle by reflexivity.
      reflexivity.
    - rewrite list_lookup_alter_ne by congruence.
      destruct (decide (i < length (conns h))%nat).
      + rewrite !lookup_app_l by assumption. reflexivity.
      + rewrite !lookup_app_r by lia.
        destruct (i - length (conns h))%nat as [|j] eqn:E; [lia|].
        reflexivity. }
  rewrite Hc. split_and!.
  - apply delete_insert_id, Hs.
  - apply take_app_length.
  - exists (res_end res). auto.
Qed.

Lemma hub_wf_step h ev : hub_wf h -> hub_wf (hub_step h ev).
Proof.
  destruct ev; simpl.
  - apply hub_wf_sse_get.
  - apply hub_wf_on_close.
  - apply hub_wf_sendSse.
  - apply hub_wf_keepalive.
Qed.


Lemma hub_extends_refl h : hub_extends h h.
Proof. intros k c Hc. exists c. split_and!; auto. Qed.

Lemma hub_extends_trans h1 h2 h3 :
  hub_extends h1 h2 -> hub_extends h2 h3 -> hub_extends h1 h3.
Proof.
  intros H12 H23 k c Hc.
  destruct (H12 k c Hc) as (c2 & Hc2 & Hh2 & Hw2).
  destruct (H23 k c2 Hc2) as (c3 & Hc3 & Hh3 & Hw3).
  exists c3. split_and!; [assumption|congruence|].
  etransitivity; eassumption.
Qed.

Lemma hub_extends_insert h r c c' m :
  conns h !! r = Some c -> headers c' = headers c ->
  written c `prefix_of` written c' ->
  hub_extends h (mkHub (<[r := c']> (conns h)) m).
Proof.
  intros Hr Hh Hw k ck Hk. simpl.
  destruct (decide (r = k)) as [<-|Hne].
  - exists c'. rewrite list_lookup_insert_eq
      by (eapply lookup_lt_Some; exact Hr).
    assert (ck = c) as -> by congruence. auto.
  - exists ck. rewrite list_lookup_insert_ne by assumption. auto.
Qed.

Lemma hub_extends_sendSse s e d h : hub_extends h (sendSse s e d h).
Proof.
  destruct (sseClients h !! s) as [r|] eqn:Hs.
  - destruct (conns h !! r) as [c|] eqn:Hr.
    + rewrite (sendSse_at s e d h r c Hs Hr).
      apply (hub_extends_insert h r c); [exact Hr| |];
        rewrite !res_write_spec; simpl;
        destruct (next_write_returns c); simpl;
        try destruct (next_write_returns _); simpl;
        try reflexivity;
        try (apply prefix_app_r; reflexivity);
        try (apply prefix_app_r, prefix_app_r; reflexivity).
    + unfold sendSse. rewrite Hs, Hr. apply hub_extends_refl.
  - unfold sendSse. rewrite Hs. apply hub_extends_refl.
Qed.

Lemma hub_extends_on_close s r h : hub_extends h (on_close s r h).
Proof.
  intros k c Hk. unfold on_close. simpl. rewrite list_lookup_alter.
  case_decide as E.
  - subst k. rewrite Hk. simpl. exists (res_end c). auto.
  - exists c. auto.
Qed.

Lemma hub_extends_keepalive_entry h entry :
  hub_extends h (keepalive_entry h entry).
Proof.
  destruct entry as [id r]. destruct (conns h !! r) as [c|] eqn:Hr.
  - rewrite (keepalive_entry_at h id r c Hr).
    apply (hub_extends_insert h r c); [exact Hr|reflexivity|]. simpl.
    destruct (next_write_returns c); [apply prefix_app_r|]; reflexivity.
  - unfold keepalive_entry. rewrite Hr. apply hub_extends_refl.
Qed.

Lemma keepalive_entry_registry h entry id r :
  sseClients (keepalive_entry h entry) !! id = Some r ->
  sseClients h !! id = Some r.
Proof.
  destruct entry as [id0 r0]. destruct (conns h !! r0) as [c|] eqn:Hr.
  - rewrite (keepalive_entry_at h id0 r0 c Hr). simpl.
    destruct (next_write_returns c); [auto|].
    intros H. apply lookup_delete_Some in H as [_ H]. exact H.
  - unfold keepalive_entry. rewrite Hr. auto.
Qed.

Lemma keepalive_extends entries h :
  hub_extends h (keepalive entries h)
  /\ (forall id r, sseClients (keepalive entries h) !! id = Some r ->
                   sseClients h !! id = Some r).
Proof.
  revert h. induction entries as [|entry l IH]; intros h.
  - split; [apply hub_extends_refl|auto].
  - change (keepalive (entry :: l) h)
      with (keepalive l (keepalive_entry h entry)).
    destruct (IH (keepalive_entry h entry)) as [He Hr]. split.
    + eapply hub_extends_trans; [apply hub_extends_keepalive_entry|exact He].
    + intros id r H. eapply keepalive_entry_registry, Hr, H.
Qed.

Lemma greeted_mono h h' :
  greeted h -> hub_extends h h' ->
  (forall s r, sseClients h' !! s = Some r -> sseClients h !! s = Some r) ->
  greeted h'.
Proof.
  intros Hg He Hr s r Hs.
  destruct (Hg s r (Hr s r Hs)) as (c & Hc & Hh & Hw).
  destruct (He r c Hc) as (c' & Hc' & Hh' & Hw').
  exists c'. split_and!; [assumption|congruence|].
  etransitivity; eassumption.
Qed.

Lemma greeted_step h ev : greeted h -> greeted (hub_step h ev).
Proof.
  intros Hg. destruct ev as [id fs|s r|s e d|entries]; simpl.
  - destruct (truthy id) eqn:Ht.
    2:{ rewrite (sse_get_falsy id fs h Ht). exact Hg. }
    destruct id as [s|]; [|discriminate].
    destruct (sse_get_truthy s fs h Ht)
      as (res & Hc & Hh & He & [(_ & Hs & Hw)|(_ & Hs)]).
    + intros s' r. rewrite Hs, Hc. intros H.
      apply lookup_insert_Some in H as [[<- <-]|[_ H]].
      * exists res. split_and!; [|assumption|rewrite Hw; reflexivity].
        apply list_lookup_middle. reflexivity.
      * destruct (Hg s' r H) as (c & Hcr & Hhc & Hwc).
        exists c. split_and!; auto. apply lookup_app_l_Some, Hcr.
    + intros s' r. rewrite Hs, Hc. intros H.
      destruct (Hg s' r H) as (c & Hcr & Hhc & Hwc).
      exists c. split_and!; auto. apply lookup_app_l_Some, Hcr.
  - apply (greeted_mono h); [exact Hg|apply hub_extends_on_close|].
    intros s' r' H. unfold on_close in H. simpl in H.
    apply lookup_delete_Some in H as [_ H]. exact H.
  - apply (greeted_mono h); [exact Hg|apply hub_extends_sendSse|].
    intros s' r'. rewrite sendSse_sseClients. auto.
  - destruct (keepalive_extends entries h) as [He Hr].
    apply (greeted_mono h); assumption.
Qed.

(** X13.  Whatever requests, closes, pushes and keep-alive rounds the
    process has gone through, its registry is well formed (every registered
    session points to an existing response, no two sessions to the same
    one), and every registered session is on a response that carries the
    stream headers and begins with that session's greeting. *)
Theorem registry_stays_well_formed evs :
  hub_wf (hub_run evs) /\ greeted (hub_run evs).
Proof.
  unfold hub_run.
  assert (H0 : hub_wf hub_empty /\ greeted hub_empty).
  { split; [apply hub_wf_empty|].
    intros s r H. unfold hub_empty in H. simpl in H.
    rewrite lookup_empty in H. discriminate. }
  revert H0. generalize hub_empty.
  induction evs as [|ev l IH]; intros h [Hwf Hg]; [auto|].
  simpl. apply IH. split; [apply hub_wf_step|apply greeted_step]; assumption.
Qed.

(** *** The theorems about the observers at sample registries *)

Lemma hub_wf_hub_one : hub_wf hub_one.
Proof. apply hub_wf_sse_get, hub_wf_empty. Qed.

Lemma hub_wf_hub_two : hub_wf hub_two.
Proof. apply hub_wf_sse_get, hub_wf_sse_get, hub_wf_empty. Qed.

Lemma sendSse_writes_to_its_session_only_witness :
  sseClients hub_two !! "b" = Some 1%nat
  /\ conns hub_two !! 1%nat
     = Some (mkConn stream_headers (greeting "b") false [true])
  /\ exists c',
      conns (sendSse "b" "done" (event_payload (done [])) hub_two) !! 1%nat
      = Some c'
      /\ headers c' = stream_headers /\ ended c' = false
      /\ written c' = greeting "b" ++ [].
Proof.
  assert (H1 : sseClients hub_two !! "b" = Some 1%nat)
    by (vm_compute; reflexivity).
  assert (H2 : conns hub_two !! 1%nat
               = Some (mkConn stream_headers (greeting "b") false [true]))
    by (vm_compute; reflexivity).
  exact (conj H1 (conj H2
    (proj2 (proj2 (proj2 (proj2
       (sendSse_writes_to_its_session_only
          "b" "done" (event_payload (done [])) hub_two))))
       1%nat _ H1 H2))).
Defined.

Lemma deliver_appends_in_order_witness :
  sseClients hub_one !! "cid" = Some 0%nat
  /\ conns hub_one !! 0%nat
     = Some (mkConn stream_headers (greeting "cid") false [])
  /\ exists c' sent,
      conns (deliver "cid" [overall_progress 0 0 100; done []] hub_one)
        !! 0%nat = Some c'
      /\ written c' = greeting "cid" ++ sent
      /\ sent `sublist_of`
           flat_map frames [overall_progress 0 0 100; done []]
      /\ ((forall k, (k < 2 * 2)%nat ->
                     @nil bool !! k <> Some true) ->
          sent = flat_map frames [overall_progress 0 0 100; done []])
      /\ sseClients (deliver "cid" [overall_progress 0 0 100; done []]
                             hub_one)
         = sseClients hub_one.
Proof.
  assert (H1 : sseClients hub_one !! "cid" = Some 0%nat)
    by (vm_compute; reflexivity).
  assert (H2 : conns hub_one !! 0%nat
               = Some (mkConn stream_headers (greeting "cid") false []))
    by (vm_compute; reflexivity).
  exact (conj H1 (conj H2
    (deliver_appends_in_order
       "cid" [overall_progress 0 0 100; done []] hub_one 0%nat _ H1 H2))).
Defined.

Lemma keepalive_drops_exactly_the_broken_streams_witness :
  hub_wf hub_two
  /\ entries_of hub_two [("a", 0%nat); ("b", 1%nat)]
  /\ hub_wf (keepalive [("a", 0%nat); ("b", 1%nat)] hub_two)
  /\ exists c',
      conns (keepalive [("a", 0%nat); ("b", 1%nat)] hub_two) !! 1%nat
      = Some c'
      /\ sseClients (keepalive [("a", 0%nat); ("b", 1%nat)] hub_two) !! "b"
         = None
      /\ written c' = greeting "b"
      /\ ended c' = true.
Proof.
  assert (He : entries_of hub_two [("a", 0%nat); ("b", 1%nat)]).
  { unfold entries_of. vm_compute.
    first [ reflexivity | apply perm_swap ]. }
  assert (H1 : sseClients hub_two !! "b" = Some 1%nat)
    by (vm_compute; reflexivity).
  assert (H2 : conns hub_two !! 1%nat
               = Some (mkConn stream_headers (greeting "b") false [true]))
    by (vm_compute; reflexivity).
  pose proof (keepalive_drops_exactly_the_broken_streams
                [("a", 0%nat); ("b", 1%nat)] hub_two hub_wf_hub_two He)
    as (Hwf & Hreg & _).
  exact (conj hub_wf_hub_two (conj He (conj Hwf (Hreg "b" 1%nat _ H1 H2)))).
Defined.

Lemma sse_get_registers_after_greeting_witness :
  sseClients (sse_get (Some "b") [] hub_one).1 !! "b" = Some 1%nat
  /\ (sseClients hub_one !! "b" = Some 1%nat
      \/ (Some "b" = Some "b"
          /\ (sse_get (Some "b") [] hub_one).2 = Stream 1%nat
          /\ 1%nat = length (conns hub_one)
          /\ exists res,
              conns (sse_get (Some "b") [] hub_one).1 !! 1%nat = Some res
              /\ headers res = stream_headers
              /\ written res = greeting "b"
              /\ ended res = false)).
Proof.
  assert (H1 : sseClients (sse_get (Some "b") [] hub_one).1 !! "b"
               = Some 1%nat)
    by (vm_compute; reflexivity).
  exact (conj H1
    (proj2 (proj2 (proj2
       (sse_get_registers_after_greeting (Some "b") [] hub_one)))
       "b" 1%nat H1)).
Defined.

Lemma reconnect_redirects_to_newest_stream_witness :
  exists h',
    sseClients hub_one !! "cid" = Some 0%nat
    /\ conns hub_one !! 0%nat
       = Some (mkConn stream_headers (greeting "cid") false [])
    /\ sse_get (Some "cid") [] hub_one = (h', Stream 1%nat)
    /\ 1%nat <> 0%nat
    /\ conns (deliver "cid" [done []] h') !! 0%nat
       = Some (mkConn stream_headers (greeting "cid") false [])
    /\ exists c sent,
        conns (deliver "cid" [done []] h') !! 1%nat = Some c
        /\ written c = greeting "cid" ++ sent
        /\ sent `sublist_of` flat_map frames [done []].
Proof.
  exists (sse_get (Some "cid") [] hub_one).1.
  assert (H1 : sseClients hub_one !! "cid" = Some 0%nat)
    by (vm_compute; reflexivity).
  assert (H2 : conns hub_one !! 0%nat
               = Some (mkConn stream_headers (greeting "cid") false []))
    by (vm_compute; reflexivity).
  assert (H3 : sse_get (Some "cid") [] hub_one
               = ((sse_get (Some "cid") [] hub_one).1, Stream 1%nat))
    by (vm_compute; reflexivity).
  exact (conj H1 (conj H2 (conj H3
    (reconnect_redirects_to_newest_stream
       "cid" [] hub_one _ 1%nat 0%nat _ [done []] H1 H2 H3)))).
Defined.

Lemma stale_close_silences_new_stream_witness :
  exists h1 h2,
    hub_wf hub_empty
    /\ sse_get (Some "cid") [] hub_empty = (h1, Stream 0%nat)
    /\ sse_get (Some "cid") [] h1 = (h2, Stream 1%nat)
    /\ sseClients (on_close "cid" 0%nat h2) !! "cid" = None
    /\ (exists c1, conns (on_close "cid" 0%nat h2) !! 0%nat = Some c1
                   /\ ended c1 = true)
    /\ (exists c2,
          conns (on_close "cid" 0%nat h2) !! 1%nat = Some c2
          /\ written c2 = greeting "cid" /\ ended c2 = false)
    /\ (forall log,
          deliver "cid" log (on_close "cid" 0%nat h2)
          = on_close "cid" 0%nat h2)
    /\ (forall entries,
          entries_of (on_close "cid" 0%nat h2) entries ->
          conns (keepalive entries (on_close "cid" 0%nat h2)) !! 1%nat
          = conns (on_close "cid" 0%nat h2) !! 1%nat).
Proof.
  exists hub_one, (sse_get (Some "cid") [] hub_one).1.
  assert (H1 : sse_get (Some "cid") [] hub_empty = (hub_one, Stream 0%nat))
    by (vm_compute; reflexivity).
  assert (H2 : sse_get (Some "cid") [] hub_one
               = ((sse_get (Some "cid") [] hub_one).1, Stream 1%nat))
    by (vm_compute; reflexivity).
  exact (conj hub_wf_empty (conj H1 (conj H2
    (stale_close_silences_new_stream
       "cid" [] [] hub_empty _ _ 0%nat 1%nat hub_wf_empty H1 H2)))).
Defined.

Lemma close_after_open_restores_registry_witness :
  sseClients hub_empty !! "cid" = None
  /\ sse_get (Some "cid") [] hub_empty = (hub_one, Stream 0%nat)
  /\ sseClients (on_close "cid" 0%nat hub_one) = sseClients hub_empty
  /\ take (length (conns hub_empty)) (conns (on_close "cid" 0%nat hub_one))
     = conns hub_empty
  /\ exists c,
      conns (on_close "cid" 0%nat hub_one) = conns hub_empty ++ [c]
      /\ written c = greeting "cid" /\ ended c = true.
Proof.
  assert (H0 : sseClients hub_empty !! "cid" = None)
    by (vm_compute; reflexivity).
  assert (H1 : sse_get (Some "cid") [] hub_empty = (hub_one, Stream 0%nat))
    by (vm_compute; reflexivity).
  exact (conj H0 (conj H1
    (close_after_open_restores_registry
       "cid" [] hub_empty hub_one 0%nat H0 H1))).
Defined.

(** ** The handler and its observer *)

Lemma frames_no_done (l : list SseEvent) :
  Forall (fun ev => is_done ev = false) l ->
  event_chunk "done" ∉ flat_map frames l.
Proof.
  induction l as [|ev l IH]; intros Hl.
  - simpl. apply not_elem_of_nil.
  - apply Forall_cons in Hl as [Hev Hl].
    change (flat_map frames (ev :: l)) with (frames ev ++ flat_map frames l).
    rewrite elem_of_app. intros [Hin|Hin]; [|exact (IH Hl Hin)].
    unfold frames in Hin.
    apply elem_of_cons in Hin as [Heq|Hin].
    + destruct ev; simpl in Heq; discriminate.
    + apply elem_of_cons in Hin as [Heq|Hin]; [discriminate|].
      apply elem_of_nil in Hin. exact Hin.
Qed.

(** X14.  An observer whose stream is registered under the session id of a
    batch, on a transport that does not fail, and which nothing else writes
    to meanwhile: when the handler answers, everything it pushed is on the
    stream in the order of the pushes, the stream ends with the two chunks
    of [done] carrying the results of the response, and no [done] event
    line occurs before them. *)
Theorem observer_stream_ends_with_done
        (Number : string -> JsNum) (env : option string) (req : Request)
        (evs : list Event) (out : Outcome) (rs : list Result.t)
        (s : string) (h : Hub) (r : nat) (c : Conn) :
  clientId req = Some s -> truthy (Some s) = true ->
  files req <> [] ->
  compress_multi Number env req evs = Some out ->
  response out = Some (Json true rs) ->
  sseClients h !! s = Some r -> conns h !! r = Some c -> faults c = [] ->
  exists c' before,
    conns (deliver s (pushed out) h) !! r = Some c'
    /\ written c' = written c ++ flat_map frames (pushed out)
    /\ flat_map frames (pushed out)
       = before ++ [event_chunk "done"; data_chunk (event_payload (done rs))]
    /\ event_chunk "done" ∉ before.
Proof.
  intros Hid Ht Hf Hrun Hresp Hs Hc Hfaults.
  destruct (compress_multi_accepted Number env req evs out Hf Hrun)
    as (p & Hreach & Hout).
  pose proof (inv_no_done Number env req p
                (reaches_inv Number env req evs p Hreach)) as Hnd.
  destruct (deliver_written s (pushed out) h r c Hs Hc)
    as (c' & sent & Hc' & Hw & _ & Hall).
  rewrite Hall in Hw.
  2:{ intros k _. rewrite Hfaults. rewrite lookup_nil. discriminate. }
  assert (Hcid : truthy (clientId req) = true) by (rewrite Hid; exact Ht).
  destruct (resolved p) eqn:Hres; rewrite Hout in *; simpl in Hresp;
    [|discriminate].
  injection Hresp as <-.
  revert Hc' Hw. unfold finish, sendSse_if. cbn [pushed]. rewrite Hcid.
  intros Hc' Hw.
  match type of Hw with
  | context [overall_progress ?tp ?to ?pct] =>
      exists c', (flat_map frames (sse p ++ [overall_progress tp to pct]))
  end.
  split_and!.
  - exact Hc'.
  - exact Hw.
  - rewrite !flat_map_app. simpl. rewrite <- !app_assoc. reflexivity.
  - apply frames_no_done. apply Forall_app. split; [exact Hnd|].
    repeat constructor.
Qed.

Lemma observer_stream_ends_with_done_witness :
  exists out rs c' before,
    clientId req_one = Some "cid" /\ truthy (Some "cid") = true
    /\ files req_one <> []
    /\ compress_multi Number_decimal None req_one evs_one_ok = Some out
    /\ response out = Some (Json true rs)
    /\ sseClients hub_one !! "cid" = Some 0%nat
    /\ conns hub_one !! 0%nat
       = Some (mkConn stream_headers (greeting "cid") false [])
    /\ conns (deliver "cid" (pushed out) hub_one) !! 0%nat = Some c'
    /\ written c' = greeting "cid" ++ flat_map frames (pushed out)
    /\ flat_map frames (pushed out)
       = before ++ [event_chunk "done"; data_chunk (event_payload (done rs))]
    /\ event_chunk "done" ∉ before.
Proof.
  exists_value (compress_multi Number_decimal None req_one evs_one_ok).
  eexists.
  assert (Hf : files req_one <> []) by discriminate.
  match goal with
  | |- exists _ _, _ /\ _ /\ _ /\ ?A /\ _ =>
      assert (Hrun : A) by (vm_compute; reflexivity)
  end.
  assert (H1 : sseClients hub_one !! "cid" = Some 0%nat)
    by (vm_compute; reflexivity).
  assert (H2 : conns hub_one !! 0%nat
               = Some (mkConn stream_headers (greeting "cid") false []))
    by (vm_compute; reflexivity).
  destruct (observer_stream_ends_with_done
              Number_decimal None req_one evs_one_ok _ _ "cid" hub_one
              0%nat _ eq_refl eq_refl Hf Hrun eq_refl H1 H2 eq_refl)
    as (c' & before & G1 & G2 & G3 & G4).
  exists c', before.
  exact (conj eq_refl (conj eq_refl (conj Hf (conj Hrun (conj eq_refl
          (conj H1 (conj H2 (conj G1 (conj G2 (conj G3 G4)))))))))).
Defined.

(** ** The quality handed to the encoders *)

Lemma Qmax_cases (x y : Q) :
  (Qmax x y = x /\ (y <= x)%Q) \/ (Qmax x y = y /\ (x <= y)%Q).
Proof.
  unfold Qmax, GenericMinMax.gmax.
  destruct (x ?= y)%Q eqn:E.
  - left. split; [reflexivity|]. apply Qeq_alt in E. rewrite E. apply Qle_refl.
  - right. split; [reflexivity|]. apply Qlt_alt in E. apply Qlt_le_weak, E.
  - left. split; [reflexivity|]. apply Qgt_alt in E. apply Qlt_le_weak, E.
Qed.

Lemma Qmin_cases (x y : Q) :
  (Qmin x y = x /\ (x <= y)%Q) \/ (Qmin x y = y /\ (y <= x)%Q).
Proof.
  unfold Qmin, GenericMinMax.gmin.
  destruct (x ?= y)%Q eqn:E.
  - left. split; [reflexivity|]. apply Qeq_alt in E. rewrite E. apply Qle_refl.
  - left. split; [reflexivity|]. apply Qlt_alt in E. apply Qlt_le_weak, E.
  - right. split; [reflexivity|]. apply Qgt_alt in E. apply Qlt_le_weak, E.
Qed.

Lemma same_number_refl (a : JsNum) : same_number a a.
Proof. destruct a; simpl; auto. apply Qeq_refl. Qed.

Lemma clamp_range (a : JsNum) :
  let c := Math_max (Fin 1) (Math_min (Fin 100) a) in
  (c = NaN <-> a = NaN)
  /\ (c = NaN \/ in_range 1 100 c)
  /\ (in_range 1 100 a -> same_number c a).
Proof.
  destruct a as [x| | |]; simpl.
  - destruct (Qmin_cases 100 x) as [[-> H1]|[-> H1]];
      destruct (Qmax_cases 1 100) as [[E2 H2]|[E2 H2]];
      destruct (Qmax_cases 1 x) as [[E3 H3]|[E3 H3]];
      try (exfalso; revert H2; clear; intros H; vm_compute in H;
           apply H; reflexivity);
      rewrite ?E2, ?E3;
      (split; [split; discriminate|]);
      (split; [right; split;
               first [ apply Qle_refl | assumption | discriminate
                     | eapply Qle_trans; eassumption ]|]);
      intros [Hlo Hhi];
      first [ apply Qeq_refl | apply Qle_antisym; assumption ].
  - split; [split; discriminate|]. split; [right; split; discriminate|].
    intros [].
  - split; [split; discriminate|]. split; [right; split; discriminate|].
    intros [].
  - split; [split; reflexivity|]. split; [left; reflexivity|]. intros [].
Qed.

(** X15.  The quality of a batch is NaN exactly when the submitted text is
    not a number, and lies between 1 and 100 otherwise, a value already in
    that range being kept.  Clamping it again for the encoder changes
    nothing, so every encoder call of the batch is made with the quality of
    the batch; in the Jimp branch the quality of any call is NaN or within
    1 and 100, and the jpeg-js fallback never goes below 60. *)
Theorem quality_is_clamped_once
        (Number : string -> JsNum) (env : option string) (req : Request) :
  (quality Number req = NaN
   <-> Number_or Number (body_quality req) 80 = NaN)
  /\ (quality Number req = NaN \/ in_range 1 100 (quality Number req))
  /\ (in_range 1 100 (Number_or Number (body_quality req) 80) ->
      same_number (quality Number req)
                  (Number_or Number (body_quality req) 80))
  /\ same_number (encode_quality (quality Number req)) (quality Number req)
  /\ (forall img x,
         call_quality (processFile_jimp_encode Number req img) = Some x ->
         x = NaN \/ in_range 1 100 x)
  /\ (forall img rgb w hgt x,
         processFile_jimp_encode Number req img = JpegJsEncode rgb w hgt x ->
         x = NaN \/ in_range 60 100 x)
  /\ (forall evs out,
         compress_multi Number env req evs = Some out ->
         Forall (fun c => same_number (snd c) (quality Number req))
                (encodes out)).
Proof.
  destruct (clamp_range (Number_or Number (body_quality req) 80))
    as (Hnan & Hrange & Hkeep).
  fold (quality Number req) in Hnan, Hrange, Hkeep.
  assert (Henc : same_number (encode_quality (quality Number req))
                             (quality Number req)).
  { destruct Hrange as [->|Hr]; [exact I|].
    apply (proj2 (proj2 (clamp_range (quality Number req)))), Hr. }
  assert (Henc_range : encode_quality (quality Number req) = NaN
                       \/ in_range 1 100 (encode_quality (quality Number req))).
  { apply (proj1 (proj2 (clamp_range (quality Number req)))). }
  assert (Hfb : Math_max (Fin 60) (quality Number req) = NaN
                \/ in_range 60 100 (Math_max (Fin 60) (quality Number req))).
  { destruct Hrange as [->|Hr]; [left; reflexivity|]. right.
    destruct (quality Number req) as [x| | |]; try contradiction.
    destruct Hr as [Hlo Hhi]. simpl.
    destruct (Qmax_cases 60 x) as [[-> H]|[-> H]]; split;
      first [ apply Qle_refl | assumption | discriminate ]. }
  split_and!; try assumption.
  - intros img x. unfold processFile_jimp_encode.
    clear Henc. revert Henc_range Hfb.
    generalize (encode_quality (quality Number req)).
    generalize (Math_max (Fin 60) (quality Number req)).
    intros fb pq Hpq Hfb. unfold jimpToJpegBuffer_call.
    destruct img as [img|]; [|discriminate].
    destruct (has_getBufferAsync img).
    { cbn [call_quality]. destruct (has_quality img); [|discriminate].
      intros [= <-]. exact Hpq. }
    destruct (has_getBuffer img).
    { cbn [call_quality]. destruct (has_quality img); [|discriminate].
      intros [= <-]. exact Hpq. }
    destruct (bitmap img) as [[[data w] hgt]|]; [|discriminate].
    destruct (_ && _); [|discriminate].
    cbn [call_quality]. intros [= <-].
    destruct Hfb as [E|Hr]; [left; exact E|right].
    destruct fb as [y| | |]; try contradiction.
    destruct Hr as [Hlo Hhi]. split; [|exact Hhi].
    eapply Qle_trans; [|exact Hlo]. discriminate.
  - intros img rgb w hgt x. unfold processFile_jimp_encode.
    revert Hfb. generalize (encode_quality (quality Number req)).
    generalize (Math_max (Fin 60) (quality Number req)).
    intros fb pq Hfb. unfold jimpToJpegBuffer_call.
    destruct img as [img|]; [|discriminate].
    destruct (has_getBufferAsync img); [discriminate|].
    destruct (has_getBuffer img); [discriminate|].
    destruct (bitmap img) as [[[data w'] hgt']|]; [|discriminate].
    destruct (_ && _); [|discriminate].
    intros [= _ _ _ <-]. exact Hfb.
  - intros evs out Hrun. destruct (decide (files req = [])) as [Hf|Hf].
    { destruct (compress_multi_rejected Number env req evs out Hf Hrun)
        as [_ ->].
      constructor. }
    destruct (compress_multi_accepted Number env req evs out Hf Hrun)
      as (p & Hr & ->).
    assert (Hall : Forall (fun c => same_number (snd c) (quality Number req))
                          (encodeCalls p)).
    { rewrite (inv_encodes Number env req p
                 (reaches_inv Number env req evs p Hr)).
      apply Forall_fmap, Forall_forall. intros i _. exact Henc. }
    destruct (resolved p); exact Hall.
Qed.

Lemma quality_is_clamped_once_witness :
  quality Number_decimal req_quality_150 = Fin 100
  /\ call_quality
       (processFile_jimp_encode Number_decimal req_quality_150
                                (Some jimg_bitmap_only))
     = Some (Fin 100)
  /\ (Fin 100 = NaN \/ in_range 1 100 (Fin 100))
  /\ exists out,
      compress_multi Number_decimal None req_quality_150 evs_one_ok = Some out
      /\ Forall (fun c => same_number (snd c)
                                      (quality Number_decimal req_quality_150))
                (encodes out).
Proof.
  assert (H1 : call_quality
                 (processFile_jimp_encode Number_decimal req_quality_150
                                          (Some jimg_bitmap_only))
               = Some (Fin 100))
    by (vm_compute; reflexivity).
  split; [vm_compute; reflexivity|]. split; [exact H1|].
  pose proof (quality_is_clamped_once Number_decimal None req_quality_150)
    as (_ & _ & _ & _ & Hcall & _ & Hrun).
  split; [exact (Hcall _ _ H1)|].
  exists_value
    (compress_multi Number_decimal None req_quality_150 evs_one_ok).
  match goal with
  | |- ?A /\ _ => assert (Hc : A) by (vm_compute; reflexivity)
  end.
  exact (conj Hc (Hrun _ _ Hc)).
Defined.

(** *** The theorems about jobs and results at sample submissions *)

Lemma successful_job_reports_completion_witness :
  exists p p',
    truthy (clientId req_one) = true
    /\ reaches Number_decimal None req_one [EncodeResolved 0 1234 "a.jpg"] p
    /\ step Number_decimal None req_one p (WriteResolved 0) = Some p'
    /\ exists f (len : N) (o : string),
        files req_one !! 0%nat = Some f
        /\ sse p'
           = sse p
             ++ [file_progress 0 (originalName_of f 0) (Z.of_N len)
                               (Z.of_N (File.size f)) 100;
                 file_done 0 (originalName_of f 0)
                           (Some (Z.of_N (File.size f))) (Some (Z.of_N len))
                           (Some ("/outputs/" +:+ o)) None]
             ++ reportOverall req_one (statesMeta p')
        /\ results p'
           = results p
             ++ [Result.mk 0 (originalName_of f 0)
                           (Some (Z.of_N (File.size f))) (Some (Z.of_N len))
                           (Some ("/outputs/" +:+ o)) None]
        /\ exists m, statesMeta p' !! 0%nat = Some m
                     /\ Meta.processedBytes m = Z.of_N len.
Proof.
  exists_value
    (exec Number_decimal None req_one
          (startNext Number_decimal None req_one (init_pool req_one))
          [EncodeResolved 0 1234 "a.jpg"]).
  match goal with
  | |- exists _, _ /\ reaches _ _ _ _ ?p /\ _ =>
      exists_value (step Number_decimal None req_one p (WriteResolved 0));
      assert (Hreach : reaches Number_decimal None req_one
                               [EncodeResolved 0 1234 "a.jpg"] p)
        by (apply exec_reaches; vm_compute; reflexivity)
  end.
  match goal with
  | |- _ /\ _ /\ ?A /\ _ => assert (Hstep : A) by (vm_compute; reflexivity)
  end.
  exact (conj eq_refl (conj Hreach (conj Hstep
    (successful_job_reports_completion
       Number_decimal None req_one _ _ _ 0%nat eq_refl Hreach Hstep)))).
Defined.

Lemma final_overall_progress_counts_successes_witness :
  exists out rs l,
    truthy (clientId req_one) = true
    /\ files req_one <> []
    /\ compress_multi Number_decimal None req_one evs_tick_then_fail = Some out
    /\ response out = Some (Json true rs)
    /\ Forall (fun r => succeeded r = false) rs
    /\ pushed out = l ++ [overall_progress 0 0 100; done rs].
Proof.
  exists_value (compress_multi Number_decimal None req_one evs_tick_then_fail).
  eexists.
  assert (Hf : files req_one <> []) by discriminate.
  match goal with
  | |- exists _, _ /\ _ /\ ?A /\ ?B /\ ?C /\ _ =>
      assert (Hrun : A) by (vm_compute; reflexivity);
      assert (Hresp : B) by reflexivity;
      assert (Hall : C) by (repeat constructor)
  end.
  destruct (final_overall_progress_counts_successes
              Number_decimal None req_one evs_tick_then_fail _ _
              eq_refl Hf Hrun Hresp)
    as (l & tp & to & pct & Hpush & _ & _ & _ & _ & _ & Hzero).
  destruct (Hzero Hall) as (-> & -> & ->).
  exists l.
  exact (conj eq_refl (conj Hf (conj Hrun (conj Hresp (conj Hall Hpush))))).
Defined.

Lemma sequential_batch_answers_in_index_order_witness :
  exists out rs,
    limit_is 1 (CONCURRENCY Number_decimal (Some "1"))
    /\ files req_two <> []
    /\ compress_multi Number_decimal (Some "1") req_two evs_two_in_turn
       = Some out
    /\ response out = Some (Json true rs)
    /\ rejected evs_two_in_turn = []
    /\ StronglySorted lt (map Result.index rs)
    /\ map Result.index rs = seq 0 (length (files req_two)).
Proof.
  exists_value
    (compress_multi Number_decimal (Some "1") req_two evs_two_in_turn).
  eexists.
  assert (Hlim : limit_is 1 (CONCURRENCY Number_decimal (Some "1")))
    by (vm_compute; reflexivity).
  assert (Hf : files req_two <> []) by discriminate.
  match goal with
  | |- _ /\ _ /\ ?A /\ ?B /\ _ =>
      assert (Hrun : A) by (vm_compute; reflexivity);
      assert (Hresp : B) by reflexivity
  end.
  destruct (sequential_batch_answers_in_index_order
              Number_decimal (Some "1") req_two evs_two_in_turn _ _
              Hlim Hf Hrun Hresp) as [Hsorted Hseq].
  exact (conj Hlim (conj Hf (conj Hrun (conj Hresp (conj eq_refl
          (conj Hsorted (Hseq eq_refl))))))).
Defined.

Lemma overall_progress_never_decreases_witness :
  exists out,
    files req_two <> []
    /\ compress_multi Number_decimal None req_two evs_one_of_two_fails
       = Some out
    /\ overall_pcts (pushed out) = [0; 27; 40]
    /\ nondecreasing (overall_pcts (pushed out)).
Proof.
  exists_value
    (compress_multi Number_decimal None req_two evs_one_of_two_fails).
  assert (Hf : files req_two <> []) by discriminate.
  match goal with
  | |- _ /\ ?A /\ _ => assert (Hrun : A) by (vm_compute; reflexivity)
  end.
  split; [exact Hf|]. split; [exact Hrun|]. split; [vm_compute; reflexivity|].
  exact (proj1 (overall_progress_never_decreases
                  Number_decimal None req_two evs_one_of_two_fails _
                  Hf Hrun)).
Defined.

(** ** The throttle of [reportIfNeeded] *)

(** X19.  [reportIfNeeded] called twice in a row pushes at most once: the
    second call finds the percentage and the byte count it has just
    recorded, pushes nothing and leaves the state as the first call left
    it. *)
Theorem reportIfNeeded_twice_pushes_once
        (cid : option string) (st : State.t) :
  reportIfNeeded cid (fst (reportIfNeeded cid st))
  = (fst (reportIfNeeded cid st), []).
Proof.
  unfold reportIfNeeded at 2 3.
  destruct (negb (negb (Math_round (inject_Z (State.progress st))
                        =? State.lastReportedPct st))
            && negb (MIN_REPORT_BYTES
                     <? State.processedBytes st - State.lastReportedBytes st))
    eqn:E; cbn [fst].
  - unfold reportIfNeeded. rewrite E. reflexivity.
  - unfold reportIfNeeded. simpl.
    rewrite Z.eqb_refl, Z.sub_diag. reflexivity.
Qed.
